(** * SenseBridge: the realtime session manager, its codec and the mode switch

    A shallow embedding of [src/hooks/useGeminiLive.ts], of the mode registry
    of [src/components/ControlPanel.tsx] and of the mode switch of
    [src/App.tsx]; and, around them, of the feedback hook, of the camera of
    [src/components/CameraView.tsx] and of the other handlers of the shell.

    Conventions of the embedding.
    - JavaScript numbers that carry times or samples (seconds on the output
      clock, buffer durations, normalised samples) are exact rationals [Q];
      the rounding of IEEE doubles is not modelled.
    - Browser and SDK objects (audio contexts, media tracks, buffer sources,
      timers, the live session) are identified by a [handle]; what the code
      does to them is recorded, newest first, in the [trace] of the state.
    - A function of the hook is a computation in the monad [M]: it threads
      the state and may throw. A thrown exception leaves the state as it was
      at the throw, as in JavaScript.
    - An [await] is resolved before the next event is delivered: a handler
      runs to completion. *)

From Stdlib Require Import ZArith QArith Qminmax Qabs List String Ascii Bool Lia Lqa ListSet.
Import ListNotations.

Local Open Scope string_scope.
Local Open Scope list_scope.

(** ** Exceptions and the state-and-exception monad *)

(** A thrown JavaScript error: its [name] and its [message]. *)
Record Exn : Type := Thrown { name : string; message : string }.

Inductive Outcome (A : Type) : Type :=
| Returned (a : A)
| Threw (e : Exn).
Arguments Returned {A} a.
Arguments Threw {A} e.

Definition M (S A : Type) : Type := S -> Outcome A * S.

Definition ret {S A} (a : A) : M S A := fun s => (Returned a, s).

Definition bind {S A B} (m : M S A) (k : A -> M S B) : M S B :=
  fun s => match m s with
           | (Returned a, s') => k a s'
           | (Threw e, s') => (Threw e, s')
           end.

Definition throw {S A} (e : Exn) : M S A := fun s => (Threw e, s).

Definition read {S A} (f : S -> A) : M S A := fun s => (Returned (f s), s).

Definition modify {S} (f : S -> S) : M S unit := fun s => (Returned tt, f s).

(** [try { m } catch (err) { h err }] *)
Definition try_catch {S A} (m : M S A) (h : Exn -> M S A) : M S A :=
  fun s => match m s with
           | (Returned a, s') => (Returned a, s')
           | (Threw e, s') => h e s'
           end.

(** Resolution of a value that may be an exception ([await] of a settled
    promise, or a call that may throw). *)
Definition settle {S A} (o : Outcome A) : M S A := fun s => (o, s).

(** Run a computation on a component of the state. *)
Definition zoom {S T A} (get : T -> S) (put : S -> T -> T) (m : M S A) : M T A :=
  fun t => let (o, s') := m (get t) in (o, put s' t).

Declare Scope monad_scope.
Delimit Scope monad_scope with monad.
Notation "x <- m ;; k" := (bind m (fun x => k))
  (at level 61, m at next level, right associativity) : monad_scope.
Notation "m ;; k" := (bind m (fun _ => k))
  (at level 61, right associativity) : monad_scope.
Local Open Scope monad_scope.

(** [l.forEach(f)] *)
Fixpoint forEach {S A} (l : list A) (f : A -> M S unit) : M S unit :=
  match l with
  | [] => ret tt
  | a :: l' => f a ;; forEach l' f
  end.

(** [if (c) { body }] *)
Definition when {S} (c : bool) (body : M S unit) : M S unit :=
  if c then body else ret tt.

(** JavaScript truthiness of a string that may be [undefined]. *)
Definition truthy (s : option string) : bool :=
  match s with
  | Some (String _ _) => true
  | _ => false
  end.

(** [s || d] on strings. *)
Definition or_else (s : option string) (d : string) : string :=
  match s with
  | Some (String c r) => String c r
  | _ => d
  end.

Definition isSome {A} (o : option A) : bool :=
  match o with Some _ => true | None => false end.

Definition TypeError_null (what : string) : Exn :=
  Thrown "TypeError" ("Cannot read properties of null (" ++ what ++ ")").

(** [r.current.method(...)]: reading a property of the value of a ref throws
    a [TypeError] when the ref holds [null]. *)
Definition deref {S A} (what : string) (r : S -> option A) : M S A :=
  fun s => match r s with
           | Some a => (Returned a, s)
           | None => (Threw (TypeError_null what), s)
           end.

(** ** src/types.ts *)

Module types.

Inductive AppMode : Type :=
| IDLE | NARRATION | OBJECT_FINDER | DOCUMENT_READER | TASK_GUIDANCE | WALKING_ASSIST.

(** The string value of each member of the enum. *)
Definition AppMode_value (m : AppMode) : string :=
  match m with
  | IDLE => "IDLE"
  | NARRATION => "NARRATION"
  | OBJECT_FINDER => "OBJECT_FINDER"
  | DOCUMENT_READER => "DOCUMENT_READER"
  | TASK_GUIDANCE => "TASK_GUIDANCE"
  | WALKING_ASSIST => "WALKING_ASSIST"
  end.

Definition AppMode_eqb (a b : AppMode) : bool :=
  match a, b with
  | IDLE, IDLE | NARRATION, NARRATION | OBJECT_FINDER, OBJECT_FINDER
  | DOCUMENT_READER, DOCUMENT_READER | TASK_GUIDANCE, TASK_GUIDANCE
  | WALKING_ASSIST, WALKING_ASSIST => true
  | _, _ => false
  end.

Record ModeConfig : Type := {
  mode : AppMode;
  label : string;
  systemInstruction : string;
  icon : string;
  description : string
}.

End types.

(** ** utils/audio: the codec the hook imports

    [src/hooks/useGeminiLive.ts] imports [base64ToUint8Array], [createPcmBlob]
    and [decodeAudioData] from [../utils/audio], which is not among the
    sources. The hook is written against the interface [AudioUtils]; the
    instance [spec_utils] below is the codec as the specification describes
    it. *)

Module audio.

(** A decoded buffer of one channel: normalised samples and their rate. *)
Record AudioBuffer : Type := {
  channelData : list Q;
  sampleRate : positive
}.

(** [buffer.duration], in seconds: the number of frames over the rate. *)
Definition duration (b : AudioBuffer) : Q :=
  Z.of_nat (List.length (channelData b)) # sampleRate b.

(** The media blob sent on the channel: transport text and mime type. *)
Record Blob : Type := {
  data : string;
  mimeType : string
}.

(** Bytes are integers in [0, 256). *)
Definition is_byte (b : Z) : Prop := (0 <= b < 256)%Z.

Class AudioUtils : Type := {
  base64ToUint8Array : string -> Outcome (list Z);
  createPcmBlob : list Q -> Blob;
  decodeAudioData : list Z -> positive -> Outcome AudioBuffer
}.

(** *** The transport text encoding (base64, standard alphabet, padded) *)

Definition alphabet : list ascii :=
  list_ascii_of_string
    "ABCDEFGHIJKLMNOPQRSTUVWXYZabcdefghijklmnopqrstuvwxyz0123456789+/".

Definition pad : ascii := "="%char.

Definition b64_char (n : Z) : ascii := nth (Z.to_nat n) alphabet pad.

Fixpoint index_of (c : ascii) (l : list ascii) (i : Z) : option Z :=
  match l with
  | [] => None
  | a :: l' => if Ascii.eqb c a then Some i else index_of c l' (i + 1)%Z
  end.

Definition b64_value (c : ascii) : option Z := index_of c alphabet 0%Z.

Fixpoint b64_encode (bs : list Z) : list ascii :=
  match bs with
  | a :: b :: c :: rest =>
      b64_char (a / 4) :: b64_char ((a mod 4) * 16 + b / 16)
      :: b64_char ((b mod 16) * 4 + c / 64) :: b64_char (c mod 64)
      :: b64_encode rest
  | [a; b] =>
      [b64_char (a / 4); b64_char ((a mod 4) * 16 + b / 16);
       b64_char ((b mod 16) * 4); pad]
  | [a] => [b64_char (a / 4); b64_char ((a mod 4) * 16); pad; pad]
  | [] => []
  end%Z.

Definition opt_bind {A B} (o : option A) (k : A -> option B) : option B :=
  match o with Some a => k a | None => None end.

Fixpoint b64_decode (cs : list ascii) : option (list Z) :=
  match cs with
  | [] => Some []
  | c1 :: c2 :: c3 :: c4 :: rest =>
      opt_bind (b64_value c1) (fun v1 =>
      opt_bind (b64_value c2) (fun v2 =>
      if Ascii.eqb c4 pad then
        match rest with
        | [] =>
            if Ascii.eqb c3 pad then Some [v1 * 4 + v2 / 16]
            else opt_bind (b64_value c3) (fun v3 =>
                 Some [v1 * 4 + v2 / 16; (v2 mod 16) * 16 + v3 / 4])
        | _ :: _ => None
        end
      else
        opt_bind (b64_value c3) (fun v3 =>
        opt_bind (b64_value c4) (fun v4 =>
        opt_bind (b64_decode rest) (fun r =>
        Some (v1 * 4 + v2 / 16 :: (v2 mod 16) * 16 + v3 / 4
              :: (v3 mod 4) * 64 + v4 :: r))))))
  | _ => None
  end%Z.

(** *** 16-bit signed little-endian PCM *)

(** Rounding toward zero. *)
Definition Qtrunc (q : Q) : Z := Z.quot (Qnum q) (Zpos (Qden q)).

(** A normalised sample as a 16-bit signed integer: scaled by 2^15, rounded
    toward zero, and kept inside the 16-bit range. *)
Definition floatToInt16 (x : Q) : Z :=
  Z.max (-32768) (Z.min 32767 (Qtrunc (x * 32768))).

(** Two's complement, low byte first. *)
Definition int16ToBytes (v : Z) : list Z :=
  let u := (v mod 65536)%Z in [u mod 256; u / 256]%Z.

Definition int16OfBytes (lo hi : Z) : Z :=
  let u := (lo + 256 * hi)%Z in
  if (u <? 32768)%Z then u else (u - 65536)%Z.

Definition int16ToFloat (v : Z) : Q := inject_Z v / 32768.

Fixpoint bytesToInt16 (bs : list Z) : option (list Z) :=
  match bs with
  | [] => Some []
  | lo :: hi :: rest =>
      opt_bind (bytesToInt16 rest) (fun r => Some (int16OfBytes lo hi :: r))
  | [_] => None
  end.

Definition DecodeError (why : string) : Exn := Thrown "DecodeError" why.

(** Modelled from the spec: [encodePcm] ([createPcmBlob] of utils/audio) is
    missing from the sources. It "converts a normalized floating-point sample
    buffer (range [-1,1]) into 16-bit signed little-endian PCM, then into a
    transport-safe text encoding". *)
Definition encodePcm (samples : list Q) : string :=
  string_of_list_ascii
    (b64_encode (flat_map (fun x => int16ToBytes (floatToInt16 x)) samples)).

(** Modelled from the spec: [base64ToUint8Array] of utils/audio is missing
    from the sources; it reads the transport text back into bytes. *)
Definition spec_base64ToUint8Array (text : string) : Outcome (list Z) :=
  match b64_decode (list_ascii_of_string text) with
  | Some bs => Returned bs
  | None => Threw (DecodeError "malformed transport text")
  end.

(** Modelled from the spec: [decodeAudio] ([decodeAudioData] of utils/audio)
    is missing from the sources. It "interprets a byte sequence as 16-bit
    signed PCM at the given sample rate" and "fails with DecodeError on
    malformed/truncated input (odd byte length, empty input)". *)
Definition spec_decodeAudioData (bytes : list Z) (rate : positive)
  : Outcome AudioBuffer :=
  match bytes with
  | [] => Threw (DecodeError "empty input")
  | _ :: _ =>
      match bytesToInt16 bytes with
      | None => Threw (DecodeError "odd byte length")
      | Some vs =>
          Returned {| channelData := map int16ToFloat vs; sampleRate := rate |}
      end
  end.

(** Modelled from the spec: the outbound audio blob of section 6,
    [{ mimeType: "audio/pcm", data: base64 }]. *)
Definition spec_createPcmBlob (samples : list Q) : Blob :=
  {| data := encodePcm samples; mimeType := "audio/pcm" |}.

#[export] Instance spec_utils : AudioUtils := {
  base64ToUint8Array := spec_base64ToUint8Array;
  createPcmBlob := spec_createPcmBlob;
  decodeAudioData := spec_decodeAudioData
}.

(** Modelled from the spec: [decodePcm], the inverse direction of the codec
    (transport text to samples), is the composition of the two missing
    decoders. *)
Definition decodePcm (text : string) (rate : positive) : Outcome AudioBuffer :=
  match spec_base64ToUint8Array text with
  | Returned bytes => spec_decodeAudioData bytes rate
  | Threw e => Threw e
  end.

End audio.

(** ** src/hooks/useGeminiLive.ts *)

Module useGeminiLive.

(** Constants *)
Definition MODEL_NAME : string := "gemini-2.5-flash-native-audio-preview-09-2025".
Definition INPUT_SAMPLE_RATE : positive := 16000.
Definition OUTPUT_SAMPLE_RATE : positive := 24000.
Definition FRAME_RATE : Z := 2.

(** The identity of a browser or SDK object. Timer handles are among them:
    [setInterval] returns a positive integer, so a stored handle is truthy. *)
Definition handle : Type := positive.

(** What is sent with [session.sendRealtimeInput]. *)
Inductive RealtimeInput : Type :=
| Media (blob : audio.Blob)                (* [{ media: blob }] *)
| ContentText (text : string).       (* [{ content: { parts: [{ text }] } }] *)

(** The effects of the hook on the world outside it, and the one resource
    the world hands to it ([UserMediaGranted]: the stream that resolves the
    microphone request). *)
Inductive Event : Type :=
| ConsoleLog (text : string)
| ConsoleError (text : string)
| NewAudioContext (c : handle) (rate : positive)
| CloseAudioContext (c : handle)
| GetUserMedia                                   (* the permission request *)
| UserMediaGranted (stream : list handle)
| LiveConnect (model instruction : string)       (* [ai.live.connect] *)
| SessionClose (s : handle)
| SessionSend (s : handle) (input : RealtimeInput)
| SetInterval (t : handle)
| ClearInterval (t : handle)
| TrackStop (k : handle)
| SourceStart (n : handle) (start : Q) (buffer : audio.AudioBuffer)
| SourceStop (n : handle)
| OnConnectionStateChange (connected : bool)     (* the props' callback *)
| OnError (text : string).                       (* the props' callback *)

(** A media stream is the list of its tracks. *)
Definition MediaStream : Type := list handle.

(** The refs and the React state of one instance of the hook, the effects
    performed so far (newest first) and the next unused handle. *)
Record World : Type := mkWorld {
  inputAudioContextRef : option handle;
  outputAudioContextRef : option handle;
  mediaStreamRef : option MediaStream;
  nextStartTimeRef : Q;
  sourcesRef : list handle;            (* a [Set], in insertion order *)
  sessionRef : option handle;
  videoIntervalRef : option handle;
  isConnected : bool;
  error : option string;
  volumeLevel : Q;
  trace : list Event;
  fresh : handle
}.

(** The state of a hook that has just been mounted. *)
Definition initial : World :=
  {| inputAudioContextRef := None; outputAudioContextRef := None;
     mediaStreamRef := None; nextStartTimeRef := 0; sourcesRef := [];
     sessionRef := None; videoIntervalRef := None; isConnected := false;
     error := None; volumeLevel := 0; trace := []; fresh := 1%positive |}.

Definition set_inputAudioContextRef (v : option handle) (w : World) : World :=
  mkWorld v (outputAudioContextRef w) (mediaStreamRef w) (nextStartTimeRef w)
    (sourcesRef w) (sessionRef w) (videoIntervalRef w) (isConnected w) (error w)
    (volumeLevel w) (trace w) (fresh w).

Definition set_outputAudioContextRef (v : option handle) (w : World) : World :=
  mkWorld (inputAudioContextRef w) v (mediaStreamRef w) (nextStartTimeRef w)
    (sourcesRef w) (sessionRef w) (videoIntervalRef w) (isConnected w) (error w)
    (volumeLevel w) (trace w) (fresh w).

Definition set_mediaStreamRef (v : option MediaStream) (w : World) : World :=
  mkWorld (inputAudioContextRef w) (outputAudioContextRef w) v (nextStartTimeRef w)
    (sourcesRef w) (sessionRef w) (videoIntervalRef w) (isConnected w) (error w)
    (volumeLevel w) (trace w) (fresh w).

Definition set_nextStartTimeRef (v : Q) (w : World) : World :=
  mkWorld (inputAudioContextRef w) (outputAudioContextRef w) (mediaStreamRef w) v
    (sourcesRef w) (sessionRef w) (videoIntervalRef w) (isConnected w) (error w)
    (volumeLevel w) (trace w) (fresh w).

Definition set_sourcesRef (v : list handle) (w : World) : World :=
  mkWorld (inputAudioContextRef w) (outputAudioContextRef w) (mediaStreamRef w)
    (nextStartTimeRef w) v (sessionRef w) (videoIntervalRef w) (isConnected w)
    (error w) (volumeLevel w) (trace w) (fresh w).

Definition set_sessionRef (v : option handle) (w : World) : World :=
  mkWorld (inputAudioContextRef w) (outputAudioContextRef w) (mediaStreamRef w)
    (nextStartTimeRef w) (sourcesRef w) v (videoIntervalRef w) (isConnected w)
    (error w) (volumeLevel w) (trace w) (fresh w).

Definition set_videoIntervalRef (v : option handle) (w : World) : World :=
  mkWorld (inputAudioContextRef w) (outputAudioContextRef w) (mediaStreamRef w)
    (nextStartTimeRef w) (sourcesRef w) (sessionRef w) v (isConnected w)
    (error w) (volumeLevel w) (trace w) (fresh w).

Definition setIsConnected (v : bool) (w : World) : World :=
  mkWorld (inputAudioContextRef w) (outputAudioContextRef w) (mediaStreamRef w)
    (nextStartTimeRef w) (sourcesRef w) (sessionRef w) (videoIntervalRef w) v
    (error w) (volumeLevel w) (trace w) (fresh w).

Definition setError (v : option string) (w : World) : World :=
  mkWorld (inputAudioContextRef w) (outputAudioContextRef w) (mediaStreamRef w)
    (nextStartTimeRef w) (sourcesRef w) (sessionRef w) (videoIntervalRef w)
    (isConnected w) v (volumeLevel w) (trace w) (fresh w).

Definition setVolumeLevel (v : Q) (w : World) : World :=
  mkWorld (inputAudioContextRef w) (outputAudioContextRef w) (mediaStreamRef w)
    (nextStartTimeRef w) (sourcesRef w) (sessionRef w) (videoIntervalRef w)
    (isConnected w) (error w) v (trace w) (fresh w).

Definition set_trace (v : list Event) (w : World) : World :=
  mkWorld (inputAudioContextRef w) (outputAudioContextRef w) (mediaStreamRef w)
    (nextStartTimeRef w) (sourcesRef w) (sessionRef w) (videoIntervalRef w)
    (isConnected w) (error w) (volumeLevel w) v (fresh w).

Definition set_fresh (v : handle) (w : World) : World :=
  mkWorld (inputAudioContextRef w) (outputAudioContextRef w) (mediaStreamRef w)
    (nextStartTimeRef w) (sourcesRef w) (sessionRef w) (videoIntervalRef w)
    (isConnected w) (error w) (volumeLevel w) (trace w) v.

(** Perform an effect. *)
Definition emit (e : Event) : M World unit :=
  modify (fun w => set_trace (e :: trace w) w).

(** A new object: the next unused handle. *)
Definition new : M World handle :=
  fun w => (Returned (fresh w), set_fresh (Pos.succ (fresh w)) w).

Fixpoint new_many (n : nat) : M World (list handle) :=
  match n with
  | O => ret []
  | S n' => h <- new ;; hs <- new_many n' ;; ret (h :: hs)
  end.

(** The props of the hook. [onConnectionStateChange] is required and
    appears as the event [OnConnectionStateChange]; [onError] and
    [systemInstruction] are optional. *)
Record UseGeminiLiveProps : Type := {
  onError : bool;                       (* is the callback given? *)
  systemInstruction : option string
}.

(** *** cleanup (returned as [disconnect]) *)

(** [clearInterval(id)]: cancels the timer; a call with [null] does nothing. *)
Definition clearInterval (id : option handle) : M World unit :=
  match id with
  | Some t => emit (ClearInterval t)
  | None => ret tt
  end.

Definition cleanup : M World unit :=
  (v <- read videoIntervalRef ;;
   when (isSome v)
     (t <- read videoIntervalRef ;;
      clearInterval t ;;
      modify (set_videoIntervalRef None))) ;;
  (s <- read sessionRef ;;
   when (isSome s)
     (s <- deref "sessionRef.close" sessionRef ;;
      emit (SessionClose s) ;;
      modify (set_sessionRef None))) ;;
  (sources <- read sourcesRef ;;
   forEach sources (fun source => emit (SourceStop source))) ;;
  modify (set_sourcesRef []) ;;
  (m <- read mediaStreamRef ;;
   when (isSome m)
     (tracks <- deref "mediaStreamRef.getTracks" mediaStreamRef ;;
      forEach tracks (fun track => emit (TrackStop track)) ;;
      modify (set_mediaStreamRef None))) ;;
  (i <- read inputAudioContextRef ;;
   when (isSome i)
     (c <- deref "inputAudioContextRef.close" inputAudioContextRef ;;
      emit (CloseAudioContext c) ;;
      modify (set_inputAudioContextRef None))) ;;
  (o <- read outputAudioContextRef ;;
   when (isSome o)
     (c <- deref "outputAudioContextRef.close" outputAudioContextRef ;;
      emit (CloseAudioContext c) ;;
      modify (set_outputAudioContextRef None))) ;;
  modify (setIsConnected false) ;;
  emit (OnConnectionStateChange false) ;;
  modify (setVolumeLevel 0).

(** *** sendMessage *)

Definition sendMessage (text : string) : M World unit :=
  s <- read sessionRef ;;
  when (isSome s)
    (s <- deref "sessionRef.sendRealtimeInput" sessionRef ;;
     emit (SessionSend s (ContentText text))).

(** *** connect

    What the attempt meets outside the hook: the credential of the process
    environment, the answer to the microphone request (the number of tracks
    of the granted stream, or the rejection) and the answer of the remote
    open handshake. *)
Record Environment : Type := {
  API_KEY : option string;
  getUserMedia : Outcome nat;
  live_connect : Outcome unit
}.

(** The capture loops themselves (audio processing callback, frame timer
    callback) are not modelled; only their set-up is. *)
Definition startVideoStream : M World unit :=
  t <- new ;;
  emit (SetInterval t) ;;
  modify (set_videoIntervalRef (Some t)).

Definition onopen : M World unit :=
  emit (ConsoleLog "Gemini Live Session Opened") ;;
  modify (setIsConnected true) ;;
  emit (OnConnectionStateChange true) ;;
  _ <- deref "inputAudioContextRef.destination" inputAudioContextRef ;;
  startVideoStream.

Definition connect (props : UseGeminiLiveProps) (env : Environment)
  : M World unit :=
  try_catch
    (when (negb (truthy (API_KEY env)))
       (throw (Thrown "Error" "API Key is missing")) ;;
     ic <- new ;;
     emit (NewAudioContext ic INPUT_SAMPLE_RATE) ;;
     modify (set_inputAudioContextRef (Some ic)) ;;
     oc <- new ;;
     emit (NewAudioContext oc OUTPUT_SAMPLE_RATE) ;;
     modify (set_outputAudioContextRef (Some oc)) ;;
     _ <- deref "outputAudioContextRef.createGain" outputAudioContextRef ;;
     emit GetUserMedia ;;
     n <- settle (getUserMedia env) ;;
     stream <- new_many n ;;
     emit (UserMediaGranted stream) ;;
     modify (set_mediaStreamRef (Some stream)) ;;
     _ <- deref "inputAudioContextRef.createMediaStreamSource"
            inputAudioContextRef ;;
     emit (LiveConnect MODEL_NAME
             (or_else (systemInstruction props)
                "You are SenseBridge, a helpful assistive AI.")) ;;
     _ <- settle (live_connect env) ;;
     session <- new ;;
     onopen ;;
     modify (set_sessionRef (Some session)))
    (fun err =>
       emit (ConsoleError (message err)) ;;
       let errorMessage := or_else (Some (message err)) "Failed to start session" in
       modify (setError (Some errorMessage)) ;;
       when (onError props) (emit (OnError errorMessage)) ;;
       cleanup).

(** *** The callbacks of the session *)

Record InlineData : Type := { data : option string }.
Record Part : Type := { inlineData : option InlineData }.
Record Content : Type := { parts : list Part }.
Record LiveServerContent : Type := {
  modelTurn : option Content;
  interrupted : option bool
}.
Record LiveServerMessage : Type := { serverContent : option LiveServerContent }.

(** [message.serverContent?.modelTurn?.parts[0]?.inlineData?.data] *)
Definition base64Audio (message : LiveServerMessage) : option string :=
  match serverContent message with
  | None => None
  | Some sc =>
      match modelTurn sc with
      | None => None
      | Some turn =>
          match parts turn with
          | [] => None
          | part :: _ =>
              match inlineData part with
              | None => None
              | Some blob => data blob
              end
          end
      end
  end.

(** [message.serverContent?.interrupted], as a condition. *)
Definition isInterrupted (message : LiveServerMessage) : bool :=
  match serverContent message with
  | Some sc =>
      match interrupted sc with
      | Some true => true
      | _ => false
      end
  | None => false
  end.

(** The listener of a source's [ended] event. *)
Definition onended (source : handle) : M World unit :=
  modify (fun w => set_sourcesRef (set_remove Pos.eq_dec source (sourcesRef w)) w).

(** [currentTime] is the reading of the output context's clock when the
    message is handled. *)
Definition onmessage `{audio.AudioUtils} (currentTime : Q)
  (message : LiveServerMessage) : M World unit :=
  (* Handle Audio Output *)
  (o <- read outputAudioContextRef ;;
   match base64Audio message with
   | None => ret tt
   | Some base64 =>
       when (truthy (Some base64) && isSome o)
         (_ <- deref "outputAudioContextRef" outputAudioContextRef ;;
          modify (fun w =>
            set_nextStartTimeRef (Qmax (nextStartTimeRef w) currentTime) w) ;;
          audioBytes <- settle (audio.base64ToUint8Array base64) ;;
          audioBuffer <- settle (audio.decodeAudioData audioBytes OUTPUT_SAMPLE_RATE) ;;
          source <- new ;;
          start <- read nextStartTimeRef ;;
          emit (SourceStart source start audioBuffer) ;;
          modify (fun w =>
            set_nextStartTimeRef (nextStartTimeRef w + audio.duration audioBuffer) w) ;;
          modify (fun w =>
            set_sourcesRef (set_add Pos.eq_dec source (sourcesRef w)) w))
   end) ;;
  (* Handle Interruption *)
  when (isInterrupted message)
    (sources <- read sourcesRef ;;
     forEach sources (fun s => emit (SourceStop s)) ;;
     modify (set_sourcesRef []) ;;
     modify (set_nextStartTimeRef 0)).

Definition onclose : M World unit :=
  emit (ConsoleLog "Gemini Live Session Closed") ;;
  cleanup.

Definition onerror (props : UseGeminiLiveProps) : M World unit :=
  emit (ConsoleError "Gemini Live Error") ;;
  let errorMessage := "Connection Error" in
  modify (setError (Some errorMessage)) ;;
  when (onError props) (emit (OnError errorMessage)) ;;
  cleanup.

(** The SDK calls [onmessage] for each inbound message and does not await
    the promise the handler returns: whether the handler returned or threw,
    the next message is delivered to the state it left. *)
Definition deliver `{audio.AudioUtils} (w : World)
  (arrival : Q * LiveServerMessage) : World :=
  snd (onmessage (fst arrival) (snd arrival) w).

Definition deliver_all `{audio.AudioUtils} (arrivals : list (Q * LiveServerMessage))
  (w : World) : World :=
  fold_left deliver arrivals w.

(** *** Readings of a trace *)

(** The playback schedule: start time and buffer of every source started,
    oldest first. *)
Fixpoint schedule (tr : list Event) : list (Q * audio.AudioBuffer) :=
  match tr with
  | [] => []
  | SourceStart _ start buffer :: tr' => schedule tr' ++ [(start, buffer)]
  | _ :: tr' => schedule tr'
  end.

(** The audio contexts created and not closed since. *)
Fixpoint open_contexts (tr : list Event) : list handle :=
  match tr with
  | [] => []
  | NewAudioContext c _ :: tr' => c :: open_contexts tr'
  | CloseAudioContext c :: tr' => remove Pos.eq_dec c (open_contexts tr')
  | _ :: tr' => open_contexts tr'
  end.

(** The hardware tracks granted and not stopped since. *)
Fixpoint live_tracks (tr : list Event) : list handle :=
  match tr with
  | [] => []
  | UserMediaGranted stream :: tr' => stream ++ live_tracks tr'
  | TrackStop k :: tr' => remove Pos.eq_dec k (live_tracks tr')
  | _ :: tr' => live_tracks tr'
  end.

(** The trace as it was when the error callback was last invoked. *)
Fixpoint when_surfaced (tr : list Event) : option (list Event) :=
  match tr with
  | [] => None
  | OnError _ :: tr' => Some tr'
  | _ :: tr' => when_surfaced tr'
  end.


(** The text inputs sent on a session, oldest first. *)
Fixpoint texts_sent (tr : list Event) : list (handle * string) :=
  match tr with
  | [] => []
  | SessionSend s (ContentText text) :: tr' => texts_sent tr' ++ [(s, text)]
  | _ :: tr' => texts_sent tr'
  end.

End useGeminiLive.

(** ** src/hooks/useGeminiLive.ts, second hook: useFeedback

    The sounds and the vibrations of the user interface. *)

Module useFeedback.

Local Open Scope Q_scope.

Definition handle : Type := positive.

Inductive OscillatorType : Type := sine | triangle | sawtooth.

(** The two automated parameters: [osc.frequency] and [gain.gain]. *)
Inductive AudioParam : Type := frequency | gain.

(** The effects of the hook, on the audio API, the console and the
    vibration API. *)
Inductive Event : Type :=
| NewAudioContext (c : handle)
| Resume (c : handle)
| CreateOscillator (c osc : handle)
| CreateGain (c g : handle)
| Connect (osc g : handle)                      (* [osc.connect(gain)] *)
| ConnectDestination (g c : handle)             (* [gain.connect(ctx.destination)] *)
| SetType (osc : handle) (type : OscillatorType)
| SetValueAtTime (node : handle) (p : AudioParam) (value time : Q)
| ExponentialRampToValueAtTime (node : handle) (p : AudioParam) (value time : Q)
| LinearRampToValueAtTime (node : handle) (p : AudioParam) (value time : Q)
| Start (osc : handle) (time : Q)
| Stop (osc : handle) (time : Q)
| ConsoleWarn (text : string)
| Vibrate (pattern : list Z).

Record World : Type := mkWorld {
  audioCtxRef : option handle;
  trace : list Event;
  fresh : handle
}.

Definition initial : World :=
  {| audioCtxRef := None; trace := []; fresh := 1%positive |}.

Definition set_audioCtxRef (v : option handle) (w : World) : World :=
  mkWorld v (trace w) (fresh w).

Definition emit (e : Event) : M World unit :=
  modify (fun w => mkWorld (audioCtxRef w) (e :: trace w) (fresh w)).

Definition new : M World handle :=
  fun w => (Returned (fresh w), mkWorld (audioCtxRef w) (trace w) (Pos.succ (fresh w))).

(** What a call meets in the browser: whether the constructor of the audio
    context returns, whether the context is suspended, and the reading of
    its clock. *)
Record Environment : Type := {
  newAudioContext : Outcome unit;
  suspended : bool;
  currentTime : Q
}.

Definition initAudio (env : Environment) : M World unit :=
  (c <- read audioCtxRef ;;
   when (negb (isSome c))
     (_ <- settle (newAudioContext env) ;;
      c <- new ;;
      emit (NewAudioContext c) ;;
      modify (set_audioCtxRef (Some c)))) ;;
  c <- deref "audioCtxRef.state" audioCtxRef ;;
  when (suspended env) (emit (Resume c)).

Inductive SoundType : Type := click | on | off | error | mode.

Definition playSound (env : Environment) (type : SoundType) : M World unit :=
  try_catch
    (initAudio env ;;
     ctx <- deref "audioCtxRef.createOscillator" audioCtxRef ;;
     osc <- new ;;
     emit (CreateOscillator ctx osc) ;;
     g <- new ;;
     emit (CreateGain ctx g) ;;
     emit (Connect osc g) ;;
     emit (ConnectDestination g ctx) ;;
     let now := currentTime env in
     match type with
     | click => (* Sharp tick *)
         emit (SetType osc sine) ;;
         emit (SetValueAtTime osc frequency 800 now) ;;
         emit (ExponentialRampToValueAtTime osc frequency 300 (now + 0.05)) ;;
         emit (SetValueAtTime g gain 0.1 now) ;;
         emit (ExponentialRampToValueAtTime g gain 0.001 (now + 0.05)) ;;
         emit (Start osc now) ;;
         emit (Stop osc (now + 0.05))
     | mode => (* Soft ping *)
         emit (SetType osc sine) ;;
         emit (SetValueAtTime osc frequency 600 now) ;;
         emit (SetValueAtTime g gain 0.05 now) ;;
         emit (ExponentialRampToValueAtTime g gain 0.001 (now + 0.3)) ;;
         emit (Start osc now) ;;
         emit (Stop osc (now + 0.3))
     | on => (* Ascending *)
         emit (SetType osc triangle) ;;
         emit (SetValueAtTime osc frequency 300 now) ;;
         emit (LinearRampToValueAtTime osc frequency 600 (now + 0.15)) ;;
         emit (SetValueAtTime g gain 0.1 now) ;;
         emit (LinearRampToValueAtTime g gain 0 (now + 0.3)) ;;
         emit (Start osc now) ;;
         emit (Stop osc (now + 0.3))
     | off => (* Descending *)
         emit (SetType osc triangle) ;;
         emit (SetValueAtTime osc frequency 600 now) ;;
         emit (LinearRampToValueAtTime osc frequency 300 (now + 0.15)) ;;
         emit (SetValueAtTime g gain 0.1 now) ;;
         emit (LinearRampToValueAtTime g gain 0 (now + 0.3)) ;;
         emit (Start osc now) ;;
         emit (Stop osc (now + 0.3))
     | error => (* Low buzz *)
         emit (SetType osc sawtooth) ;;
         emit (SetValueAtTime osc frequency 150 now) ;;
         emit (LinearRampToValueAtTime osc frequency 100 (now + 0.2)) ;;
         emit (SetValueAtTime g gain 0.1 now) ;;
         emit (LinearRampToValueAtTime g gain 0 (now + 0.2)) ;;
         emit (Start osc now) ;;
         emit (Stop osc (now + 0.2))
     end)
    (fun e => emit (ConsoleWarn "Audio feedback failed")).

Inductive HapticPattern : Type := light | medium | heavy | success | failure.

(** [navigator.vibrate(pattern)]: the call, and what it answers. *)
Definition vibrate (answer : Outcome bool) (pattern : list Z) : M World unit :=
  emit (Vibrate pattern) ;;
  _ <- settle answer ;;
  ret tt.

(** [navigator_vibrate] is [None] where there is no [navigator] or it has
    no [vibrate]; otherwise it holds what a call answers. *)
Definition triggerHaptic (navigator_vibrate : option (Outcome bool))
  (pattern : HapticPattern) : M World unit :=
  match navigator_vibrate with
  | Some answer =>
      try_catch
        match pattern with
        | light => vibrate answer [10%Z]
        | medium => vibrate answer [40%Z]
        | heavy => vibrate answer [70%Z]
        | success => vibrate answer [30; 50; 30]%Z
        | failure => vibrate answer [50; 50; 50; 50; 50]%Z
        end
        (fun e => ret tt) (* Ignore vibration errors *)
  | None => ret tt
  end.

End useFeedback.

(** ** src/components/ControlPanel.tsx *)

Module ControlPanel.

Import types.

Definition nl : string := String (ascii_of_nat 10) EmptyString.

Definition MODES : list ModeConfig := [
  {| mode := NARRATION;
     label := "Scene Narration";
     systemInstruction := "You are in Scene Narration Mode. Continuously and concisely describe what you see in the video feed. Mention safety hazards like obstacles, stairs, or traffic immediately.";
     icon := "Eye";
     description := "Real-time environment description" |};
  {| mode := WALKING_ASSIST;
     label := "Walking Assist";
     systemInstruction :=
       "CRITICAL SAFETY MODE. You are a real-time navigation guide for a blind pedestrian. Your ONLY priority is preventing collisions and falls. " ++ nl ++
       "1. IMMEDIATE FRONTAL OBSTACLES: Prioritize detecting half-open doors, glass panels, poles, wires, or overhanging objects (head/chest level) directly in front. " ++ nl ++
       "2. GROUND HAZARDS: Scan the floor for obstacles, toys, uneven pavement, stairs (up/down), or wet spots. " ++ nl ++
       "3. DYNAMIC THREATS: Warn of approaching people, vehicles, or animals. " ++ nl ++
       "4. COMMUNICATION PROTOCOL: " ++ nl ++
       "   - IMPACT IMMINENT (< 1m): Shout 'STOP! [Obstacle]'. " ++ nl ++
       "   - CAUTION (< 3m): Say 'Caution, [Obstacle] ahead'. " ++ nl ++
       "   - DIRECTIONAL: Use clock-face (e.g., 'Bench at 2 o'clock') for things not directly in path. " ++ nl ++
       "   - CLEAR PATH: If walking and safe, briefly say 'Path clear' every 10 seconds. " ++ nl ++
       "5. Be concise. Do not describe scene aesthetics.";
     icon := "Footprints";
     description := "Obstacle detection & path safety" |};
  {| mode := OBJECT_FINDER;
     label := "Object Finder";
     systemInstruction := "You are in Object Finder Mode. The user will state an object they are looking for. Your goal is to find it in the video feed. If you see it, give specific directions like 'It is slightly to the left', 'Move forward', 'It is right in front of you'. If you don't see it, ask the user to pan the camera slowly. Be concise and directive.";
     icon := "Search";
     description := "Locate specific items nearby" |};
  {| mode := DOCUMENT_READER;
     label := "Document Reader";
     systemInstruction := "You are in Document Reader Mode. When a document is visible, read the text aloud. Summarize headers first, then read details if asked. Be precise with numbers and dates.";
     icon := "FileText";
     description := "Read labels, mail, and receipts" |};
  {| mode := TASK_GUIDANCE;
     label := "Task Guidance";
     systemInstruction := "You are in Task Guidance Mode. Ask the user what task they need help with (e.g., 'Make Tea'). Then break it down into small steps, verifying each step visually before moving on.";
     icon := "CheckSquare";
     description := "Step-by-step help for daily tasks" |}
].

Definition getSystemInstructionForMode (m : AppMode) : option string :=
  option_map systemInstruction (find (fun c => AppMode_eqb (mode c) m) MODES).

(** The kinds of feedback the panel asks of its owner. *)
Inductive FeedbackType : Type := mode_feedback | click_feedback.

(** The click handler of a mode button. Its props are the connected flag
    and the two callbacks [onFeedback] and [onModeSelect]. *)
Definition handleModeClick {S} (isConnected : bool)
  (onFeedback : FeedbackType -> M S unit) (onModeSelect : AppMode -> M S unit)
  (m : AppMode) : M S unit :=
  if isConnected then
    onFeedback mode_feedback ;;
    onModeSelect m
  else
    onFeedback click_feedback.

(** The modes the panel renders a button for. *)
Definition buttons : list AppMode := map mode MODES.

(** The icons of the panel (components of the icon library). *)
Inductive Icon : Type := Eye | Search | FileText | CheckSquare | Activity | Footprints.

Definition getIcon (iconName : string) : Icon :=
  if (iconName =? "Eye")%string then Eye
  else if (iconName =? "Search")%string then Search
  else if (iconName =? "FileText")%string then FileText
  else if (iconName =? "CheckSquare")%string then CheckSquare
  else if (iconName =? "Footprints")%string then Footprints
  else Activity.

End ControlPanel.

(** ** src/components/CameraView.tsx

    The camera of the view: the stream it holds and the effect that starts
    and stops it. The rendering is not modelled. *)

Module CameraView.

Definition handle : Type := positive.

Inductive FacingMode : Type := user | environment.

(** A media stream is the list of its tracks. *)
Definition MediaStream : Type := list handle.

Inductive Event : Type :=
| GetUserMedia (facingMode : FacingMode)         (* the camera request *)
| UserMediaGranted (stream : MediaStream)
| TrackStop (k : handle)
| SetSrcObject (stream : option MediaStream)     (* [videoRef.current.srcObject = ...] *)
| ConsoleError (text : string).

Record World : Type := mkWorld {
  streamRef : option MediaStream;
  error : option string;
  hasPermission : bool;
  trace : list Event;
  fresh : handle
}.

(** The state of a view that has just been mounted. *)
Definition initial : World :=
  {| streamRef := None; error := None; hasPermission := false; trace := [];
     fresh := 1%positive |}.

Definition set_streamRef (v : option MediaStream) (w : World) : World :=
  mkWorld v (error w) (hasPermission w) (trace w) (fresh w).

Definition setError (v : option string) (w : World) : World :=
  mkWorld (streamRef w) v (hasPermission w) (trace w) (fresh w).

Definition setHasPermission (v : bool) (w : World) : World :=
  mkWorld (streamRef w) (error w) v (trace w) (fresh w).

Definition emit (e : Event) : M World unit :=
  modify (fun w => mkWorld (streamRef w) (error w) (hasPermission w) (e :: trace w)
                     (fresh w)).

Definition new : M World handle :=
  fun w => (Returned (fresh w),
            mkWorld (streamRef w) (error w) (hasPermission w) (trace w)
              (Pos.succ (fresh w))).

Fixpoint new_many (n : nat) : M World (list handle) :=
  match n with
  | O => ret []
  | S n' => h <- new ;; hs <- new_many n' ;; ret (h :: hs)
  end.

(** [videoRef] tells whether the video element is mounted
    ([videoRef.current] is not null) when the function runs. *)
Definition stopCamera (videoRef : bool) : M World unit :=
  s <- read streamRef ;;
  when (isSome s)
    (tracks <- deref "streamRef.getTracks" streamRef ;;
     forEach tracks (fun track => emit (TrackStop track)) ;;
     modify (set_streamRef None) ;;
     when videoRef (emit (SetSrcObject None))).

(** [answer] is the answer to the camera request: the number of tracks of
    the granted stream, or the rejection. The handler of the video's
    [loadedmetadata] event, which runs later, is not modelled. *)
Definition startCamera (videoRef : bool) (facingMode : FacingMode)
  (answer : Outcome nat) : M World unit :=
  stopCamera videoRef ;;
  try_catch
    (emit (GetUserMedia facingMode) ;;
     n <- settle answer ;;
     stream <- new_many n ;;
     emit (UserMediaGranted stream) ;;
     modify (set_streamRef (Some stream)) ;;
     modify (setHasPermission true) ;;
     modify (setError None) ;;
     when videoRef (emit (SetSrcObject (Some stream))))
    (fun err =>
       emit (ConsoleError "Camera access denied:") ;;
       modify (setError (Some "Camera access denied. Please enable permissions.")) ;;
       modify (setHasPermission false)).

(** The body of the effect, run after a render in which [isActive],
    [facingMode] or [onVideoReady] changed. *)
Definition effect (isActive videoRef : bool) (facingMode : FacingMode)
  (answer : Outcome nat) : M World unit :=
  if isActive then startCamera videoRef facingMode answer
  else stopCamera videoRef.

(** The cleanup the effect returns, run before the next effect and at
    unmount. *)
Definition effect_cleanup (videoRef : bool) : M World unit :=
  stopCamera videoRef.

(** The tracks granted and not stopped since. *)
Fixpoint live_tracks (tr : list Event) : list handle :=
  match tr with
  | [] => []
  | UserMediaGranted stream :: tr' => stream ++ live_tracks tr'
  | TrackStop k :: tr' => remove Pos.eq_dec k (live_tracks tr')
  | _ :: tr' => live_tracks tr'
  end.

End CameraView.

(** ** src/App.tsx *)

Module App.

Import types.

(** What the shell does to the user interface besides its state. *)
Inductive UiEvent : Type :=
| PlaySound (type : string)
| TriggerHaptic (pattern : string).

(** The state of the shell that the mode switch touches, and the hook it
    owns. The timer that clears the announcement is not modelled. *)
Record AppState : Type := mkApp {
  mode : AppMode;
  announcement : string;
  ui : list UiEvent;
  hook : useGeminiLive.World
}.

Definition setMode (m : AppMode) (a : AppState) : AppState :=
  mkApp m (announcement a) (ui a) (hook a).

Definition setAnnouncement (text : string) (a : AppState) : AppState :=
  mkApp (mode a) text (ui a) (hook a).

Definition set_hook (w : useGeminiLive.World) (a : AppState) : AppState :=
  mkApp (mode a) (announcement a) (ui a) w.

Definition perform (e : UiEvent) : M AppState unit :=
  modify (fun a => mkApp (mode a) (announcement a) (e :: ui a) (hook a)).

(** [s.replace(x, y)] with a one-character pattern: the first occurrence. *)
Fixpoint replace (x y : ascii) (s : string) : string :=
  match s with
  | EmptyString => EmptyString
  | String c r => if Ascii.eqb c x then String y r else String c (replace x y r)
  end.

Definition lower (c : ascii) : ascii :=
  let n := nat_of_ascii c in
  if (65 <=? n)%nat && (n <=? 90)%nat then ascii_of_nat (n + 32) else c.

(** [s.toLowerCase()] on ASCII text. *)
Fixpoint toLowerCase (s : string) : string :=
  match s with
  | EmptyString => EmptyString
  | String c r => String (lower c) (toLowerCase r)
  end.

Definition announce (text : string) : M AppState unit :=
  modify (setAnnouncement text).

(** The [sendMessage] the hook returns, run on the hook of the shell. *)
Definition sendMessage (text : string) : M AppState unit :=
  zoom hook set_hook (useGeminiLive.sendMessage text).

Definition handleModeChange (newMode : AppMode) : M AppState unit :=
  modify (setMode newMode) ;;
  let instruction := ControlPanel.getSystemInstructionForMode newMode in
  announce ("Switched to "
            ++ toLowerCase (replace "_" " " (AppMode_value newMode))
            ++ " mode.") ;;
  isConnected <- read (fun a => useGeminiLive.isConnected (hook a)) ;;
  when (isConnected && truthy instruction)
    (sendMessage ("System Update: User switched to " ++ AppMode_value newMode
                  ++ ". " ++ or_else instruction "")).

Definition handleFeedback (type : ControlPanel.FeedbackType) : M AppState unit :=
  match type with
  | ControlPanel.mode_feedback =>
      perform (PlaySound "mode") ;; perform (TriggerHaptic "medium")
  | ControlPanel.click_feedback =>
      perform (PlaySound "click") ;; perform (TriggerHaptic "light")
  end.

(** A click on the button of mode [m] of the panel the shell renders. *)
Definition clickMode (m : AppMode) : M AppState unit :=
  a <- read (fun a => a) ;;
  ControlPanel.handleModeClick (useGeminiLive.isConnected (hook a))
    handleFeedback handleModeChange m.

(** *** The whole shell *)

(** The state of the component around the part the mode switch touches.
    [isConnecting] is the ref of that name; [console] holds what the shell
    itself logs, newest first. *)
Record Shell : Type := mkShell {
  app : AppState;
  active : bool;
  isPageVisible : bool;
  videoElement : option useGeminiLive.handle;
  facingMode : CameraView.FacingMode;
  searchQuery : string;
  isListeningForSearch : bool;
  isConnecting : bool;
  console : list string
}.

(** The state of a shell that has just been mounted. *)
Definition initial : Shell :=
  {| app := mkApp NARRATION "" [] useGeminiLive.initial;
     active := false; isPageVisible := true; videoElement := None;
     facingMode := CameraView.environment; searchQuery := "";
     isListeningForSearch := false; isConnecting := false; console := [] |}.

Definition set_app (v : AppState) (s : Shell) : Shell :=
  mkShell v (active s) (isPageVisible s) (videoElement s) (facingMode s)
    (searchQuery s) (isListeningForSearch s) (isConnecting s) (console s).

Definition setActive (v : bool) (s : Shell) : Shell :=
  mkShell (app s) v (isPageVisible s) (videoElement s) (facingMode s)
    (searchQuery s) (isListeningForSearch s) (isConnecting s) (console s).

Definition setIsPageVisible (v : bool) (s : Shell) : Shell :=
  mkShell (app s) (active s) v (videoElement s) (facingMode s)
    (searchQuery s) (isListeningForSearch s) (isConnecting s) (console s).

Definition setVideoElement (v : option useGeminiLive.handle) (s : Shell) : Shell :=
  mkShell (app s) (active s) (isPageVisible s) v (facingMode s)
    (searchQuery s) (isListeningForSearch s) (isConnecting s) (console s).

Definition setFacingMode (v : CameraView.FacingMode) (s : Shell) : Shell :=
  mkShell (app s) (active s) (isPageVisible s) (videoElement s) v
    (searchQuery s) (isListeningForSearch s) (isConnecting s) (console s).

Definition setSearchQuery (v : string) (s : Shell) : Shell :=
  mkShell (app s) (active s) (isPageVisible s) (videoElement s) (facingMode s)
    v (isListeningForSearch s) (isConnecting s) (console s).

Definition setIsListeningForSearch (v : bool) (s : Shell) : Shell :=
  mkShell (app s) (active s) (isPageVisible s) (videoElement s) (facingMode s)
    (searchQuery s) v (isConnecting s) (console s).

Definition set_isConnecting (v : bool) (s : Shell) : Shell :=
  mkShell (app s) (active s) (isPageVisible s) (videoElement s) (facingMode s)
    (searchQuery s) (isListeningForSearch s) v (console s).

Definition log (text : string) : M Shell unit :=
  modify (fun s =>
    mkShell (app s) (active s) (isPageVisible s) (videoElement s) (facingMode s)
      (searchQuery s) (isListeningForSearch s) (isConnecting s) (text :: console s)).

(** A computation on the part of the state the mode switch touches. *)
Definition inApp {A} (m : M AppState A) : M Shell A := zoom app set_app m.

Definition playSound (type : string) : M Shell unit := inApp (perform (PlaySound type)).

Definition triggerHaptic (pattern : string) : M Shell unit :=
  inApp (perform (TriggerHaptic pattern)).

Definition handleConnectionChange (connected : bool) : M Shell unit :=
  modify (set_isConnecting false) ;;
  if connected then
    playSound "on" ;;
    triggerHaptic "success" ;;
    inApp (announce "Agent connected. Scene Narration mode active.")
  else
    modify (setActive false) ;;
    playSound "off" ;;
    triggerHaptic "medium" ;;
    inApp (announce "Agent disconnected.").

Definition handleError (err : string) : M Shell unit :=
  modify (set_isConnecting false) ;;
  modify (setActive false) ;;
  playSound "error" ;;
  triggerHaptic "failure" ;;
  inApp (announce ("Error: " ++ err)).

(** The props the shell gives the hook, besides the two handlers above. *)
Definition props : useGeminiLive.UseGeminiLiveProps :=
  {| useGeminiLive.onError := true;
     useGeminiLive.systemInstruction :=
       Some "You are SenseBridge. Wait for instructions." |}.

(** The events added to a trace that was [before] and is now [after],
    oldest first. *)
Definition since (before after : list useGeminiLive.Event)
  : list useGeminiLive.Event :=
  rev (firstn (List.length after - List.length before) after).

(** The handler of the shell a callback of the hook's props is bound to. *)
Definition dispatch (e : useGeminiLive.Event) : M Shell unit :=
  match e with
  | useGeminiLive.OnConnectionStateChange connected => handleConnectionChange connected
  | useGeminiLive.OnError text => handleError text
  | _ => ret tt
  end.

(** A function of the hook, run on the hook of the shell. The hook calls
    the callbacks of its props where its trace shows them; the handlers
    they are bound to write only state of the shell, which the hook does
    not read, and read no state of the hook, so they are run here after
    the function, in the order of the calls. *)
Definition hooked {A} (m : M useGeminiLive.World A) : M Shell A :=
  fun s =>
    let before := useGeminiLive.trace (hook (app s)) in
    let (o, w) := m (hook (app s)) in
    let (_, s') := forEach (since before (useGeminiLive.trace w)) dispatch
                     (set_app (set_hook w (app s)) s) in
    (o, s').

Definition connect (env : useGeminiLive.Environment) : M Shell unit :=
  hooked (useGeminiLive.connect props env).

Definition disconnect : M Shell unit := hooked useGeminiLive.cleanup.

(** The auto-connect effect: [env] is what the attempt meets. *)
Definition connectToGemini (env : useGeminiLive.Environment) : M Shell unit :=
  s <- read (fun s => s) ;;
  when (active s && isSome (videoElement s)
        && negb (useGeminiLive.isConnected (hook (app s)))
        && negb (isConnecting s))
    (modify (set_isConnecting true) ;;
     try_catch (connect env)
       (fun e =>
          modify (set_isConnecting false) ;;
          modify (setActive false))).

(** [hidden] is [document.hidden] when the event fires. *)
Definition handleVisibilityChange (hidden : bool) : M Shell unit :=
  let visible := negb hidden in
  modify (setIsPageVisible visible) ;;
  a <- read active ;;
  when (negb visible && a)
    (log "App minimized, disconnecting session..." ;;
     disconnect ;;
     modify (setActive false) ;;
     inApp (announce "App minimized. Agent disconnected to save battery.")).

Definition toggleSession : M Shell unit :=
  a <- read active ;;
  if a then
    disconnect ;;
    modify (setActive false)
  else
    triggerHaptic "light" ;;
    modify (setActive true) ;;
    inApp (announce "Starting camera...").

Definition handleFlipCamera : M Shell unit :=
  f <- read facingMode ;;
  let newMode :=
    match f with
    | CameraView.user => CameraView.environment
    | CameraView.environment => CameraView.user
    end in
  modify (setFacingMode newMode) ;;
  inApp (announce ("Switched to "
                   ++ match newMode with
                      | CameraView.user => "front"
                      | CameraView.environment => "back"
                      end
                   ++ " camera")) ;;
  inApp (handleFeedback ControlPanel.click_feedback).

(** White space of ASCII text: tab, line feed, vertical tab, form feed,
    carriage return and space. *)
Definition is_space (c : ascii) : bool :=
  let n := nat_of_ascii c in
  ((9 <=? n)%nat && (n <=? 13)%nat) || (n =? 32)%nat.

Fixpoint trimStart (s : string) : string :=
  match s with
  | EmptyString => EmptyString
  | String c r => if is_space c then trimStart r else s
  end.

Fixpoint trimEnd (s : string) : string :=
  match s with
  | EmptyString => EmptyString
  | String c r =>
      match trimEnd r with
      | EmptyString => if is_space c then EmptyString else String c EmptyString
      | r' => String c r'
      end
  end.

(** [s.trim()] on ASCII text. *)
Definition trim (s : string) : string := trimEnd (trimStart s).

Definition handleSearchSubmit : M Shell unit :=
  s <- read (fun s => s) ;;
  if negb (truthy (Some (trim (searchQuery s))))
     || negb (useGeminiLive.isConnected (hook (app s)))
  then ret tt
  else
    triggerHaptic "medium" ;;
    let message := ("I am looking for: " ++ searchQuery s ++ ". Guide me to it.")%string in
    inApp (sendMessage message) ;;
    inApp (announce ("Searching for " ++ searchQuery s)).

(** The handlers [handleVoiceSearch] gives the recognition it starts.
    [isConnected] is the flag as the render that created them saw it. *)
Definition onstart : M Shell unit :=
  modify (setIsListeningForSearch true) ;;
  inApp (announce "Listening for object name...") ;;
  triggerHaptic "light".

Definition onend : M Shell unit :=
  modify (setIsListeningForSearch false).

Definition onresult (isConnected : bool) (transcript : string) : M Shell unit :=
  modify (setSearchQuery transcript) ;;
  inApp (announce ("Heard " ++ transcript ++ ". Searching now.")) ;;
  when isConnected
    (let message := ("I am looking for: " ++ transcript ++ ". Guide me to it.")%string in
     inApp (sendMessage message)).

Definition onerror : M Shell unit :=
  log "Speech recognition error" ;;
  modify (setIsListeningForSearch false) ;;
  inApp (announce "Could not hear you. Please try again.").

(** [supported] tells whether the browser has a speech recognition; the
    recognition it starts calls the four handlers above. *)
Definition handleVoiceSearch (supported : bool) : M Shell unit :=
  if negb supported then
    inApp (announce "Voice recognition not supported in this browser.")
  else ret tt.

End App.

(** * Vocabulary of the properties *)

Import useGeminiLive.

(** ** Teardown *)

Definition option_list {A} (o : option A) : list A :=
  match o with Some a => [a] | None => [] end.

(** [stream.getTracks()] of a stream that may be absent. *)
Definition tracks_of (o : option MediaStream) : list handle :=
  match o with Some tracks => tracks | None => [] end.

(** The effects of one [cleanup] from state [w], newest first. *)
Definition teardown (w : World) : list Event :=
  OnConnectionStateChange false
  :: map CloseAudioContext (option_list (outputAudioContextRef w))
  ++ map CloseAudioContext (option_list (inputAudioContextRef w))
  ++ rev (map TrackStop (tracks_of (mediaStreamRef w)))
  ++ rev (map SourceStop (sourcesRef w))
  ++ map SessionClose (option_list (sessionRef w))
  ++ map ClearInterval (option_list (videoIntervalRef w)).

(** The state [cleanup] leaves. *)
Definition torn_down (w : World) : World :=
  {| inputAudioContextRef := None; outputAudioContextRef := None;
     mediaStreamRef := None; nextStartTimeRef := nextStartTimeRef w;
     sourcesRef := []; sessionRef := None; videoIntervalRef := None;
     isConnected := false; error := error w; volumeLevel := 0;
     trace := teardown w ++ trace w; fresh := fresh w |}.

(** No resource is referenced: the state of a hook that is disconnected. *)
Definition released (w : World) : Prop :=
  videoIntervalRef w = None /\ sessionRef w = None /\ sourcesRef w = [] /\
  mediaStreamRef w = None /\ inputAudioContextRef w = None /\
  outputAudioContextRef w = None.

(** Every audio context still open and every track still live is held by
    a ref of the hook: nothing is orphaned. *)
Definition owns (w : World) : Prop :=
  (forall c, In c (open_contexts (trace w)) ->
             inputAudioContextRef w = Some c \/ outputAudioContextRef w = Some c) /\
  (forall k, In k (live_tracks (trace w)) -> In k (tracks_of (mediaStreamRef w))).

(** ** Failing connect attempts *)

(** The state once the [catch] block has logged the error, stored its
    message and called the error callback, and before it calls [cleanup]. *)
Definition surfaced (props : UseGeminiLiveProps) (e : Exn) (w : World) : World :=
  let errorMessage := or_else (Some (message e)) "Failed to start session" in
  let w1 := setError (Some errorMessage)
              (set_trace (ConsoleError (message e) :: trace w) w) in
  if onError props then set_trace (OnError errorMessage :: trace w1) w1 else w1.

(** [n] consecutive handles from [p] on, and the handle after them. *)
Fixpoint handles (p : handle) (n : nat) : list handle :=
  match n with O => [] | S n' => p :: handles (Pos.succ p) n' end.

Fixpoint advance (p : handle) (n : nat) : handle :=
  match n with O => p | S n' => advance (Pos.succ p) n' end.

(** The state when the microphone request has been issued: both contexts
    are created and stored. *)
Definition requested (w : World) : World :=
  let ic := fresh w in
  let oc := Pos.succ ic in
  set_trace (GetUserMedia :: NewAudioContext oc OUTPUT_SAMPLE_RATE
             :: NewAudioContext ic INPUT_SAMPLE_RATE :: trace w)
    (set_fresh (Pos.succ oc)
       (set_outputAudioContextRef (Some oc)
          (set_inputAudioContextRef (Some ic) w))).

(** The state when the open handshake has been started: the stream of [n]
    tracks is granted and stored. *)
Definition granted (props : UseGeminiLiveProps) (n : nat) (w : World) : World :=
  let w1 := requested w in
  let stream := handles (fresh w1) n in
  set_trace (LiveConnect MODEL_NAME
               (or_else (systemInstruction props)
                  "You are SenseBridge, a helpful assistive AI.")
             :: UserMediaGranted stream :: trace w1)
    (set_mediaStreamRef (Some stream)
       (set_fresh (advance (fresh w1) n) w1)).

(** The state when the session is open: the handshake succeeded, [onopen]
    has run (the frame timer is set) and the session is stored. *)
Definition opened (props : UseGeminiLiveProps) (n : nat) (w : World) : World :=
  let w1 := granted props n w in
  let session := fresh w1 in
  let timer := Pos.succ session in
  set_sessionRef (Some session)
    (set_videoIntervalRef (Some timer)
       (set_trace (SetInterval timer :: OnConnectionStateChange true
                   :: ConsoleLog "Gemini Live Session Opened" :: trace w1)
          (setIsConnected true (set_fresh (Pos.succ timer) w1)))).

(** The exception a connect attempt fails with, if it fails. *)
Definition failure (env : Environment) : option Exn :=
  if negb (truthy (API_KEY env)) then Some (Thrown "Error" "API Key is missing")
  else match getUserMedia env with
       | Threw e => Some e
       | Returned _ =>
           match live_connect env with
           | Threw e => Some e
           | Returned _ => None
           end
       end.

(** The state a failing attempt has reached when the exception is thrown. *)
Definition attempted (props : UseGeminiLiveProps) (env : Environment) (w : World)
  : World :=
  if negb (truthy (API_KEY env)) then w
  else match getUserMedia env with
       | Threw _ => requested w
       | Returned n => granted props n w
       end.

(** Nothing is held: no ref is set, no context is open, no track is live. *)
Definition idle (w : World) : Prop :=
  released w /\ open_contexts (trace w) = [] /\ live_tracks (trace w) = [].

(** The effects of the [catch] block before [cleanup], newest first. *)
Definition surfacing (props : UseGeminiLiveProps) (e : Exn) : list Event :=
  let errorMessage := or_else (Some (message e)) "Failed to start session" in
  (if onError props then [OnError errorMessage] else [])
  ++ [ConsoleError (message e)].

(** ** Inbound messages *)

Section InboundVocabulary.
Context {U : audio.AudioUtils}.
Local Open Scope Q_scope.

(** The two decoding steps of the handler on a payload. *)
Definition decoded (base64 : string) : Outcome audio.AudioBuffer :=
  match audio.base64ToUint8Array base64 with
  | Returned audioBytes => audio.decodeAudioData audioBytes OUTPUT_SAMPLE_RATE
  | Threw e => Threw e
  end.

(** The message carries an inline audio payload (a non-empty string at
    [serverContent.modelTurn.parts[0].inlineData.data]) whose decoding
    gives [o]. *)
Definition payload (message : LiveServerMessage) (o : Outcome audio.AudioBuffer)
  : Prop :=
  exists base64, base64Audio message = Some base64 /\
                 truthy (Some base64) = true /\ decoded base64 = o.

(** The state once [buffer], arrived at clock time [now], is scheduled. *)
Definition scheduled (now : Q) (buffer : audio.AudioBuffer) (w : World) : World :=
  let start := Qmax (nextStartTimeRef w) now in
  set_sourcesRef (set_add Pos.eq_dec (fresh w) (sourcesRef w))
    (set_nextStartTimeRef (start + audio.duration buffer)
       (set_trace (SourceStart (fresh w) start buffer :: trace w)
          (set_fresh (Pos.succ (fresh w)) w))).

(** The state once the interruption is handled. *)
Definition interrupt (w : World) : World :=
  set_nextStartTimeRef 0
    (set_sourcesRef []
       (set_trace (rev (map SourceStop (sourcesRef w)) ++ trace w) w)).

Definition interrupt_if (c : bool) (w : World) : World :=
  if c then interrupt w else w.

(** An inbound chunk: the clock time of its arrival, the message and the
    buffer its payload decodes to. *)
Definition chunk : Type := Q * LiveServerMessage * audio.AudioBuffer.

Definition arrival (c : chunk) : Q * LiveServerMessage := fst c.

Definition buffer_of (c : chunk) : audio.AudioBuffer := snd c.

(** The message of the chunk carries the payload and no interruption. *)
Definition audio_only (c : chunk) : Prop :=
  payload (snd (fst c)) (Returned (snd c)) /\ isInterrupted (snd (fst c)) = false.

(** Arrival is faster than playback: each chunk arrives no later than the
    cursor stands, starting from [cursor]. *)
Fixpoint faster_than_playback (cursor : Q) (chunks : list chunk) : Prop :=
  match chunks with
  | [] => True
  | c :: rest =>
      fst (fst c) <= cursor /\
      faster_than_playback (cursor + audio.duration (snd c)) rest
  end.

(** Buffers laid end to end from [start]. *)
Fixpoint plan (start : Q) (buffers : list audio.AudioBuffer)
  : list (Q * audio.AudioBuffer) :=
  match buffers with
  | [] => []
  | b :: rest => (start, b) :: plan (start + audio.duration b) rest
  end.

(** The cursor after the buffers. *)
Fixpoint plan_end (start : Q) (buffers : list audio.AudioBuffer) : Q :=
  match buffers with
  | [] => start
  | b :: rest => plan_end (start + audio.duration b) rest
  end.

End InboundVocabulary.

(** ** Scenarios

    The hook as the shell of [src/App.tsx] uses it, with the codec of the
    specification. In the environments of the three failing attempts and of
    the successful one a granted stream has one track. *)

Definition shell_props : UseGeminiLiveProps :=
  {| onError := true;
     systemInstruction := Some "You are SenseBridge. Wait for instructions." |}.

(** The environments of the three failing attempts and of a successful one:
    the microphone request grants a stream of one track. *)
Definition no_credential : Environment :=
  {| API_KEY := None; getUserMedia := Returned 1%nat; live_connect := Returned tt |}.

Definition permission_denied : Environment :=
  {| API_KEY := Some "key";
     getUserMedia := Threw (Thrown "NotAllowedError" "Permission denied");
     live_connect := Returned tt |}.

Definition handshake_rejected : Environment :=
  {| API_KEY := Some "key"; getUserMedia := Returned 1%nat;
     live_connect := Threw (Thrown "Error" "handshake rejected") |}.

Definition reachable : Environment :=
  {| API_KEY := Some "key"; getUserMedia := Returned 1%nat;
     live_connect := Returned tt |}.

(** The hook once the session is open. *)
Definition connected : World :=
  Eval vm_compute in snd (connect shell_props reachable initial).

(** A message with an inline payload and, possibly, the interruption flag. *)
Definition inbound (base64 : string) (flag : option bool) : LiveServerMessage :=
  {| serverContent :=
       Some {| modelTurn :=
                 Some {| parts := [ {| inlineData := Some {| data := Some base64 |} |} ] |};
               interrupted := flag |} |}.

(** Three frames of silence, and a payload of one byte (an odd length). *)
Definition silence : string := "AAAAAAAA".
Definition truncated : string := "AA==".

Definition silence_buffer : audio.AudioBuffer :=
  {| audio.channelData := [0 # 32768; 0 # 32768; 0 # 32768];
     audio.sampleRate := OUTPUT_SAMPLE_RATE |}.

(** ** The mode switch *)

Section ModeSwitchVocabulary.
Import types.


End ModeSwitchVocabulary.

(** ** The codec *)

Section CodecVocabulary.
Import audio.
Local Open Scope Z_scope.

Definition sextet_ok (n : Z) : bool :=
  match b64_value (b64_char n) with
  | Some m => (m =? n) && negb (Ascii.eqb (b64_char n) pad)
  | None => false
  end.

Definition is_int16 (v : Z) : Prop := -32768 <= v <= 32767.

Definition normalised (x : Q) : Prop := (-1 <= x <= 1)%Q.

Definition within_one_step (x y : Q) : Prop := (Qabs (y - x) <= 1 # 32768)%Q.

End CodecVocabulary.

(** ** The life of a hook *)

(** The state once [onerror] has logged the transport error, stored its
    message and called the error callback, and before it calls [cleanup]. *)
Definition reported (props : UseGeminiLiveProps) (w : World) : World :=
  let w1 := setError (Some "Connection Error")
              (set_trace (ConsoleError "Gemini Live Error" :: trace w) w) in
  if onError props then set_trace (OnError "Connection Error" :: trace w1) w1 else w1.

(** The sources started so far, newest first. *)
Fixpoint started (tr : list Event) : list handle :=
  match tr with
  | [] => []
  | SourceStart n _ _ :: tr' => n :: started tr'
  | _ :: tr' => started tr'
  end.

(** The sources started and not stopped since (they play, or have played
    to their end). *)
Fixpoint unstopped (tr : list Event) : list handle :=
  match tr with
  | [] => []
  | SourceStart n _ _ :: tr' => n :: unstopped tr'
  | SourceStop n :: tr' => remove Pos.eq_dec n (unstopped tr')
  | _ :: tr' => unstopped tr'
  end.

(** The protocol of a buffer source: [start] is called on a source that
    was never started, [stop] on a source that was started and not stopped
    since. *)
Fixpoint disciplined (tr : list Event) : Prop :=
  match tr with
  | [] => True
  | SourceStart n _ _ :: tr' => ~ In n (started tr') /\ disciplined tr'
  | SourceStop n :: tr' => In n (unstopped tr') /\ disciplined tr'
  | _ :: tr' => disciplined tr'
  end.

(** Events that are not calls on a buffer source. *)
Definition sourceless (e : Event) : bool :=
  match e with
  | SourceStart _ _ _ | SourceStop _ => false
  | _ => true
  end.

(** Events that neither open nor close an audio context and neither grant
    nor stop a track. *)
Definition quiet (e : Event) : bool :=
  match e with
  | NewAudioContext _ _ | CloseAudioContext _ | UserMediaGranted _ | TrackStop _ => false
  | _ => true
  end.

(** The active set holds each source once, every source of it was started
    and not stopped, calls on sources follow the protocol, and the handles
    of the sources started are used up. *)
Definition tidy (w : World) : Prop :=
  disciplined (trace w) /\ NoDup (sourcesRef w) /\
  (forall n, In n (sourcesRef w) -> In n (unstopped (trace w))) /\
  (forall n, In n (started (trace w)) -> (n < fresh w)%positive).

(** Every ref of a live session is set. *)
Definition holding (w : World) : Prop :=
  (exists s, sessionRef w = Some s) /\ (exists t, videoIntervalRef w = Some t) /\
  (exists m, mediaStreamRef w = Some m) /\
  (exists c, inputAudioContextRef w = Some c) /\
  (exists c, outputAudioContextRef w = Some c).

(** The connected flag tells what the refs hold, and nothing is orphaned. *)
Definition settled (w : World) : Prop :=
  (isConnected w = true -> holding w) /\
  (isConnected w = false -> released w) /\
  owns w.

Section LifeVocabulary.
Context {U : audio.AudioUtils}.

(** What happens to a hook: the calls of its owner ([connect],
    [disconnect], [sendMessage]), the callbacks of the session and the
    [ended] event of a source. *)
Inductive Call : Type :=
| Connect (props : UseGeminiLiveProps) (env : Environment)
| Disconnect
| Message (now : Q) (message : LiveServerMessage)
| Ended (source : handle)
| Send (text : string)
| Close
| Error (props : UseGeminiLiveProps).

(** The state a call leaves, whether it returned or threw. *)
Definition call (w : World) (c : Call) : World :=
  match c with
  | Connect props env => snd (connect props env w)
  | Disconnect => snd (cleanup w)
  | Message now message => snd (onmessage now message w)
  | Ended source => snd (onended source w)
  | Send text => snd (sendMessage text w)
  | Close => snd (onclose w)
  | Error props => snd (onerror props w)
  end.

Definition life (calls : list Call) (w : World) : World := fold_left call calls w.


End LifeVocabulary.

(** ** Scheduling, whatever the arrival times *)

Section ScheduleVocabulary.
Local Open Scope Q_scope.

(** Each chunk starts at the later of the cursor and its arrival. *)
Fixpoint lay (cursor : Q) (chunks : list chunk) : list (Q * audio.AudioBuffer) :=
  match chunks with
  | [] => []
  | c :: rest =>
      let start := Qmax cursor (fst (fst c)) in
      (start, snd c) :: lay (start + audio.duration (snd c)) rest
  end.

Fixpoint lay_end (cursor : Q) (chunks : list chunk) : Q :=
  match chunks with
  | [] => cursor
  | c :: rest => lay_end (Qmax cursor (fst (fst c)) + audio.duration (snd c)) rest
  end.

End ScheduleVocabulary.

(** ** A session

    The hook of the shell, with the codec of the specification: the session
    opens, a chunk of silence is scheduled, a second one comes with an
    interruption, a text is sent, the session is disconnected, and a second
    attempt is rejected at the handshake. *)
Definition a_session : list Call :=
  [Connect shell_props reachable;
   Message 0 (inbound silence None);
   Message (1 # 24000) (inbound silence (Some true));
   Send "hello";
   Disconnect;
   Connect shell_props handshake_rejected].

(** ** The feedback of the user interface *)

Section FeedbackVocabulary.
Import useFeedback.
Local Open Scope Q_scope.

(** [playSound] can make a sound: the audio context exists or can be
    created. *)
Definition audible (env : Environment) (w : World) : Prop :=
  audioCtxRef w <> None \/ newAudioContext env = Returned tt.

(** The state [initAudio] leaves when it returns. *)
Definition ready (env : Environment) (w : World) : World :=
  match audioCtxRef w with
  | Some c =>
      mkWorld (Some c) ((if suspended env then [Resume c] else []) ++ trace w) (fresh w)
  | None =>
      let c := fresh w in
      mkWorld (Some c)
        ((if suspended env then [Resume c] else []) ++ NewAudioContext c :: trace w)
        (Pos.succ c)
  end.

(** The calls that shape the sound of each type, newest first. *)
Definition tone (type : SoundType) (osc g : handle) (now : Q) : list Event :=
  match type with
  | click =>
      [Stop osc (now + 0.05); Start osc now;
       ExponentialRampToValueAtTime g gain 0.001 (now + 0.05);
       SetValueAtTime g gain 0.1 now;
       ExponentialRampToValueAtTime osc frequency 300 (now + 0.05);
       SetValueAtTime osc frequency 800 now; SetType osc sine]
  | mode =>
      [Stop osc (now + 0.3); Start osc now;
       ExponentialRampToValueAtTime g gain 0.001 (now + 0.3);
       SetValueAtTime g gain 0.05 now;
       SetValueAtTime osc frequency 600 now; SetType osc sine]
  | on =>
      [Stop osc (now + 0.3); Start osc now;
       LinearRampToValueAtTime g gain 0 (now + 0.3);
       SetValueAtTime g gain 0.1 now;
       LinearRampToValueAtTime osc frequency 600 (now + 0.15);
       SetValueAtTime osc frequency 300 now; SetType osc triangle]
  | off =>
      [Stop osc (now + 0.3); Start osc now;
       LinearRampToValueAtTime g gain 0 (now + 0.3);
       SetValueAtTime g gain 0.1 now;
       LinearRampToValueAtTime osc frequency 300 (now + 0.15);
       SetValueAtTime osc frequency 600 now; SetType osc triangle]
  | error =>
      [Stop osc (now + 0.2); Start osc now;
       LinearRampToValueAtTime g gain 0 (now + 0.2);
       SetValueAtTime g gain 0.1 now;
       LinearRampToValueAtTime osc frequency 100 (now + 0.2);
       SetValueAtTime osc frequency 150 now; SetType osc sawtooth]
  end.

(** The nodes of one sound on context [ctx], newest first. *)
Definition wiring (ctx osc g : handle) : list Event :=
  [ConnectDestination g ctx; Connect osc g; CreateGain ctx g; CreateOscillator ctx osc].

(** The state [playSound] leaves when it has made the sound. *)
Definition sounded (env : Environment) (type : SoundType) (w : World) : World :=
  let w1 := ready env w in
  let osc := fresh w1 in
  let g := Pos.succ osc in
  match audioCtxRef w1 with
  | Some ctx =>
      mkWorld (Some ctx)
        (tone type osc g (currentTime env) ++ wiring ctx osc g ++ trace w1)
        (Pos.succ g)
  | None => w1
  end.

(** The state [playSound] leaves when the audio context cannot be
    created. *)
Definition warned (w : World) : World :=
  mkWorld (audioCtxRef w) (ConsoleWarn "Audio feedback failed" :: trace w) (fresh w).

(** The audio contexts created, newest first. *)
Fixpoint contexts (tr : list Event) : list handle :=
  match tr with
  | [] => []
  | NewAudioContext c :: tr' => c :: contexts tr'
  | _ :: tr' => contexts tr'
  end.

(** The contexts on which a node was created. *)
Fixpoint contexts_used (tr : list Event) : list handle :=
  match tr with
  | [] => []
  | CreateOscillator c _ :: tr' | CreateGain c _ :: tr' => c :: contexts_used tr'
  | _ :: tr' => contexts_used tr'
  end.

(** The oscillators started and stopped, with the times. *)
Fixpoint osc_starts (tr : list Event) : list (handle * Q) :=
  match tr with
  | [] => []
  | Start osc t :: tr' => (osc, t) :: osc_starts tr'
  | _ :: tr' => osc_starts tr'
  end.

Fixpoint osc_stops (tr : list Event) : list (handle * Q) :=
  match tr with
  | [] => []
  | Stop osc t :: tr' => (osc, t) :: osc_stops tr'
  | _ :: tr' => osc_stops tr'
  end.

(** The parameter is the frequency of [osc], or the gain of [g] and the
    value is at most a tenth of full scale. *)
Definition on_node (osc g node : handle) (p : AudioParam) (value : Q) : Prop :=
  (node = osc /\ p = frequency) \/ (node = g /\ p = gain /\ value <= 0.1).

(** An automation call of a sound that begins at [now] and is stopped at
    [stop]: values are set at [now], ramps end after [now] and no later
    than [stop], an exponential ramp has a positive target. *)
Definition shaped (osc g : handle) (now stop : Q) (e : Event) : Prop :=
  match e with
  | SetValueAtTime node p value time =>
      time = now /\ 0 < value /\ on_node osc g node p value
  | ExponentialRampToValueAtTime node p value time =>
      now < time <= stop /\ 0 < value /\ on_node osc g node p value
  | LinearRampToValueAtTime node p value time =>
      now < time <= stop /\ 0 <= value /\ on_node osc g node p value
  | _ => True
  end.

(** The gain is brought down to at most a thousandth at [stop]. *)
Definition faded (g : handle) (stop : Q) (events : list Event) : Prop :=
  exists value,
    (In (ExponentialRampToValueAtTime g gain value stop) events \/
     In (LinearRampToValueAtTime g gain value stop) events) /\
    value <= 0.001.

(** Sounds made one after the other. *)
Definition sounds (calls : list (Environment * SoundType)) (w : World) : World :=
  fold_left (fun w c => snd (playSound (fst c) (snd c) w)) calls w.

(** A browser in which the audio context cannot be created, and one in
    which it is created suspended. *)
Definition no_audio : Environment :=
  {| newAudioContext := Threw (Thrown "TypeError" "AudioContext is not a constructor");
     suspended := false; currentTime := 0 |}.

Definition muted_tab (now : Q) : Environment :=
  {| newAudioContext := Returned tt; suspended := true; currentTime := now |}.

End FeedbackVocabulary.

(** ** The camera of the view *)

Section CameraVocabulary.
Import CameraView.

(** The effects of one [stopCamera] from state [w], newest first. *)
Definition camera_stop (videoRef : bool) (w : World) : list Event :=
  match streamRef w with
  | Some tracks => (if videoRef then [SetSrcObject None] else [])
                   ++ rev (map TrackStop tracks)
  | None => []
  end.

(** The state [stopCamera] leaves. *)
Definition camera_stopped (videoRef : bool) (w : World) : World :=
  mkWorld None (error w) (hasPermission w) (camera_stop videoRef w ++ trace w) (fresh w).

(** The state [startCamera] leaves when the request is granted a stream
    of [n] tracks, and when it is refused. *)
Definition camera_granted (videoRef : bool) (facingMode : FacingMode) (n : nat)
  (w : World) : World :=
  let w1 := camera_stopped videoRef w in
  let stream := handles (fresh w1) n in
  mkWorld (Some stream) None true
    ((if videoRef then [SetSrcObject (Some stream)] else [])
     ++ UserMediaGranted stream :: GetUserMedia facingMode :: trace w1)
    (advance (fresh w1) n).

Definition camera_refused (videoRef : bool) (facingMode : FacingMode) (w : World)
  : World :=
  let w1 := camera_stopped videoRef w in
  mkWorld None (Some "Camera access denied. Please enable permissions.") false
    (ConsoleError "Camera access denied:" :: GetUserMedia facingMode :: trace w1)
    (fresh w1).

(** Every track that is live belongs to the stream the view holds. *)
Definition holds_camera (w : World) : Prop :=
  forall k, In k (live_tracks (trace w)) -> In k (tracks_of (streamRef w)).


(** What happens to a view: its effect runs, for any props and any answer
    to the request, and the cleanup of its effect runs. *)
Inductive Lifecycle : Type :=
| Effect (isActive videoRef : bool) (facingMode : FacingMode) (answer : Outcome nat)
| Cleanup (videoRef : bool).

Definition lifecycle (w : World) (l : Lifecycle) : World :=
  match l with
  | Effect isActive videoRef facingMode answer =>
      snd (effect isActive videoRef facingMode answer w)
  | Cleanup videoRef => snd (effect_cleanup videoRef w)
  end.

Definition view (steps : list Lifecycle) (w : World) : World :=
  fold_left lifecycle steps w.

(** The camera is started, flipped to the front while the user refuses
    it, started again and paused. *)
Definition a_view : list Lifecycle :=
  [Effect true true environment (Returned 1%nat);
   Cleanup true;
   Effect true true user (Threw (Thrown "NotAllowedError" "Permission denied"));
   Cleanup false;
   Effect true false user (Returned 2%nat);
   Cleanup true;
   Effect false false user (Returned 1%nat)].

End CameraVocabulary.

(** ** The shell *)

(** The callbacks of the hook's props, among its effects. *)
Definition is_callback (e : Event) : bool :=
  match e with
  | OnConnectionStateChange _ | OnError _ => true
  | _ => false
  end.

(** The hook of a shell, and the shell with another state of its hook. *)
Definition hook_of (s : App.Shell) : World := App.hook (App.app s).

Definition with_hook (w : World) (s : App.Shell) : App.Shell :=
  App.set_app (App.set_hook w (App.app s)) s.

(** The shell once the handlers of the callbacks among [events], oldest
    first, have run. *)
Definition handled (events : list Event) (s : App.Shell) : App.Shell :=
  fold_left (fun s e => snd (App.dispatch e s)) events s.

(** The shell once [text] is announced and the feedback [events] (newest
    first) is given. *)
Definition announced (text : string) (events : list App.UiEvent) (s : App.Shell)
  : App.Shell :=
  App.set_app
    (App.mkApp (App.mode (App.app s)) text (events ++ App.ui (App.app s))
       (App.hook (App.app s))) s.

(** The states [handleConnectionChange] and [handleError] leave. *)
Definition connection_changed (connected : bool) (s : App.Shell) : App.Shell :=
  if connected then
    announced "Agent connected. Scene Narration mode active."
      [App.TriggerHaptic "success"; App.PlaySound "on"]
      (App.set_isConnecting false s)
  else
    announced "Agent disconnected."
      [App.TriggerHaptic "medium"; App.PlaySound "off"]
      (App.setActive false (App.set_isConnecting false s)).

Definition errored (err : string) (s : App.Shell) : App.Shell :=
  announced ("Error: " ++ err)
    [App.TriggerHaptic "failure"; App.PlaySound "error"]
    (App.setActive false (App.set_isConnecting false s)).



(** The auto-connect effect would start an attempt. *)
Definition connectable (s : App.Shell) : Prop :=
  App.active s = true /\ App.videoElement s <> None /\
  isConnected (hook_of s) = false /\ App.isConnecting s = false.

Section ShellVocabulary.
Context {U : audio.AudioUtils}.

(** What happens to a shell: the gestures of the user, the effects and
    events of the page, the results of a voice recognition, and the
    callbacks of the session and of its sources. *)
Inductive Happening : Type :=
| Toggle
| AutoConnect (env : Environment)
| Visibility (hidden : bool)
| VideoReady (video : handle)
| ModeClick (m : types.AppMode)
| FlipCamera
| Typed (query : string)
| Submit
| VoiceSearch (supported : bool)
| VoiceStart
| VoiceEnd
| VoiceResult (isConnected : bool) (transcript : string)
| VoiceError
| SessionMessage (now : Q) (message : LiveServerMessage)
| SessionClosed
| SessionFailed
| SourceEnded (source : handle).

Definition happen (s : App.Shell) (h : Happening) : App.Shell :=
  match h with
  | Toggle => snd (App.toggleSession s)
  | AutoConnect env => snd (App.connectToGemini env s)
  | Visibility hidden => snd (App.handleVisibilityChange hidden s)
  | VideoReady video => App.setVideoElement (Some video) s
  | ModeClick m => snd (App.inApp (App.clickMode m) s)
  | FlipCamera => snd (App.handleFlipCamera s)
  | Typed query => App.setSearchQuery query s
  | Submit => snd (App.handleSearchSubmit s)
  | VoiceSearch supported => snd (App.handleVoiceSearch supported s)
  | VoiceStart => snd (App.onstart s)
  | VoiceEnd => snd (App.onend s)
  | VoiceResult isConnected transcript => snd (App.onresult isConnected transcript s)
  | VoiceError => snd (App.onerror s)
  | SessionMessage now message => snd (App.hooked (onmessage now message) s)
  | SessionClosed => snd (App.hooked onclose s)
  | SessionFailed => snd (App.hooked (onerror App.props) s)
  | SourceEnded source => snd (App.hooked (onended source) s)
  end.

Definition usage (happenings : list Happening) (s : App.Shell) : App.Shell :=
  fold_left happen happenings s.


End ShellVocabulary.

(** The user starts the shell, the camera gets ready, the session opens,
    the user switches to the object finder and searches for the keys; the
    page is then hidden. *)
Definition a_usage : list Happening :=
  [Toggle; VideoReady 9%positive; AutoConnect reachable;
   ModeClick types.OBJECT_FINDER; Typed "my keys"; Submit;
   SessionMessage 0 (inbound silence None); Visibility true].

(** The shell started, the camera ready. *)
Definition started_shell : App.Shell :=
  Eval vm_compute in @usage audio.spec_utils (firstn 2 a_usage) App.initial.

(** * Properties of the session manager *)

(** ** Running a computation one statement at a time *)

Section Running.
Context {S : Type}.

Lemma bind_assoc {A B C} (m : M S A) (f : A -> M S B) (g : B -> M S C) (s : S) :
  bind (bind m f) g s = bind m (fun a => bind (f a) g) s.
Proof. unfold bind. destruct (m s) as [[a|e] s']; reflexivity. Qed.

Lemma bind_ret {A B} (a : A) (k : A -> M S B) (s : S) :
  bind (ret a) k s = k a s.
Proof. reflexivity. Qed.

Lemma bind_ret_r {A} (m : M S A) (s : S) : bind m ret s = m s.
Proof. unfold bind. destruct (m s) as [[a|e] s']; reflexivity. Qed.

Lemma bind_throw {A B} (e : Exn) (k : A -> M S B) (s : S) :
  bind (throw e) k s = (Threw e, s).
Proof. reflexivity. Qed.

Lemma bind_read {A B} (f : S -> A) (k : A -> M S B) (s : S) :
  bind (read f) k s = k (f s) s.
Proof. reflexivity. Qed.

Lemma bind_modify {B} (f : S -> S) (k : unit -> M S B) (s : S) :
  bind (modify f) k s = k tt (f s).
Proof. reflexivity. Qed.

Lemma bind_settle {A B} (o : Outcome A) (k : A -> M S B) (s : S) :
  bind (settle o) k s
  = match o with Returned a => k a s | Threw e => (Threw e, s) end.
Proof. destruct o; reflexivity. Qed.

Lemma bind_when {B} (c : bool) (body : M S unit) (k : unit -> M S B) (s : S) :
  bind (when c body) k s = if c then bind body k s else k tt s.
Proof. destruct c; reflexivity. Qed.

Lemma bind_deref {A B} (what : string) (r : S -> option A) (k : A -> M S B) (s : S) :
  bind (deref what r) k s
  = match r s with
    | Some a => k a s
    | None => (Threw (TypeError_null what), s)
    end.
Proof. unfold bind, deref. destruct (r s); reflexivity. Qed.

End Running.

Lemma bind_emit {B} (e : Event) (k : unit -> M World B) (w : World) :
  bind (emit e) k w = k tt (set_trace (e :: trace w) w).
Proof. reflexivity. Qed.

Lemma bind_new {B} (k : handle -> M World B) (w : World) :
  bind new k w = k (fresh w) (set_fresh (Pos.succ (fresh w)) w).
Proof. reflexivity. Qed.

Lemma forEach_emit {A} (f : A -> Event) (l : list A) (w : World) :
  forEach l (fun a => emit (f a)) w
  = (Returned tt, set_trace (rev (map f l) ++ trace w) w).
Proof.
  revert w. induction l as [|a l IH]; intros w.
  - destruct w; reflexivity.
  - cbn [forEach]. rewrite bind_emit, IH.
    destruct w; cbn. now rewrite <- app_assoc.
Qed.

Lemma bind_forEach_emit {A B} (f : A -> Event) (l : list A)
  (k : unit -> M World B) (w : World) :
  bind (forEach l (fun a => emit (f a))) k w
  = k tt (set_trace (rev (map f l) ++ trace w) w).
Proof. unfold bind at 1. now rewrite forEach_emit. Qed.

(** Simplify the state and the tests on it, leaving the statements of the
    computation folded. *)
Ltac state :=
  cbn -[bind ret throw read modify settle when deref try_catch forEach emit
        new new_many cleanup Qmax Qplus Qle audio.duration set_add set_remove].

(** Run the statements of a straight-line computation of the hook. *)
Ltac run_step :=
  first [ rewrite bind_assoc | rewrite bind_ret | rewrite bind_read
        | rewrite bind_modify | rewrite bind_emit | rewrite bind_new
        | rewrite bind_forEach_emit | rewrite bind_when | rewrite bind_deref
        | rewrite bind_settle | rewrite bind_throw ].

Ltac run := repeat (run_step; state).

(** ** Teardown *)

Lemma teardown_onto (w : World) (tr : list Event) :
  teardown w ++ tr
  = OnConnectionStateChange false
    :: map CloseAudioContext (option_list (outputAudioContextRef w))
    ++ (map CloseAudioContext (option_list (inputAudioContextRef w))
    ++ (rev (map TrackStop (tracks_of (mediaStreamRef w)))
    ++ (rev (map SourceStop (sourcesRef w))
    ++ (map SessionClose (option_list (sessionRef w))
    ++ (map ClearInterval (option_list (videoIntervalRef w)) ++ tr))))).
Proof. unfold teardown. cbn [app]. now rewrite <- !app_assoc. Qed.

Lemma cleanup_spec (w : World) : cleanup w = (Returned tt, torn_down w).
Proof.
  unfold torn_down. rewrite teardown_onto.
  destruct w as [ic oc ms nst srcs ses vi conn err vol tr fr].
  rewrite <- bind_ret_r. unfold cleanup.
  destruct vi, ses, ms, ic, oc; run; reflexivity.
Qed.

Lemma torn_down_released (w : World) : released (torn_down w).
Proof. repeat split. Qed.

Lemma teardown_released (w : World) :
  released w -> teardown w = [OnConnectionStateChange false].
Proof.
  intros (Hv & Hs & Hq & Hm & Hi & Ho). unfold teardown.
  now rewrite Hv, Hs, Hq, Hm, Hi, Ho.
Qed.

(** ** Ownership of the hardware and of the audio contexts *)

Lemma teardown_events (w : World) (e : Event) :
  In e (teardown w) <->
  e = OnConnectionStateChange false
  \/ (exists c, e = CloseAudioContext c /\
                (inputAudioContextRef w = Some c \/ outputAudioContextRef w = Some c))
  \/ (exists k, e = TrackStop k /\ In k (tracks_of (mediaStreamRef w)))
  \/ (exists n, e = SourceStop n /\ In n (sourcesRef w))
  \/ (exists s, e = SessionClose s /\ sessionRef w = Some s)
  \/ (exists t, e = ClearInterval t /\ videoIntervalRef w = Some t).
Proof.
  unfold teardown. cbn [In]. rewrite !in_app_iff, <- !in_rev, !in_map_iff.
  destruct w as [ic oc ms nst srcs ses vi conn err vol tr fr].
  cbn [inputAudioContextRef outputAudioContextRef mediaStreamRef sourcesRef
       sessionRef videoIntervalRef].
  destruct ic, oc, ses, vi; cbn [option_list In];
    (split;
     [ intros [H | [(c & <- & H) | [(c & <- & H) | [(k & <- & H)
              | [(n & <- & H) | [(s & <- & H) | (t & <- & H)]]]]]];
       try (destruct H as [<- | []]); try contradiction; eauto 12
     | intros [H | [(c & -> & [H | H]) | [(k & -> & H) | [(n & -> & H)
              | [(s & -> & H) | (t & -> & H)]]]]];
       try discriminate H; try (injection H as ->); eauto 12 ]).
Qed.

Lemma open_contexts_after (l tr : list Event) (c : handle) :
  (forall c' r, ~ In (NewAudioContext c' r) l) ->
  In c (open_contexts (l ++ tr)) ->
  In c (open_contexts tr) /\ ~ In (CloseAudioContext c) l.
Proof.
  induction l as [|e l IH]; intros Hnew Hin; [now split|].
  assert (Hnew' : forall c' r, ~ In (NewAudioContext c' r) l)
    by (intros c' r H; apply (Hnew c' r); now right).
  destruct e; cbn [app open_contexts] in Hin;
    try (destruct (IH Hnew' Hin) as [H1 H2]; split; [exact H1|];
         intros [H | H]; [discriminate H | now apply H2]).
  - exfalso. apply (Hnew c0 rate). now left.
  - apply in_remove in Hin. destruct Hin as [Hin Hne].
    destruct (IH Hnew' Hin) as [H1 H2]. split; [exact H1|].
    intros [H | H]; [injection H as H; congruence | now apply H2].
Qed.

Lemma live_tracks_after (l tr : list Event) (k : handle) :
  (forall s, ~ In (UserMediaGranted s) l) ->
  In k (live_tracks (l ++ tr)) ->
  In k (live_tracks tr) /\ ~ In (TrackStop k) l.
Proof.
  induction l as [|e l IH]; intros Hnew Hin; [now split|].
  assert (Hnew' : forall s, ~ In (UserMediaGranted s) l)
    by (intros s H; apply (Hnew s); now right).
  destruct e; cbn [app live_tracks] in Hin;
    try (destruct (IH Hnew' Hin) as [H1 H2]; split; [exact H1|];
         intros [H | H]; [discriminate H | now apply H2]).
  - exfalso. apply (Hnew stream). now left.
  - apply in_remove in Hin. destruct Hin as [Hin Hne].
    destruct (IH Hnew' Hin) as [H1 H2]. split; [exact H1|].
    intros [H | H]; [injection H as H; congruence | now apply H2].
Qed.

Lemma nothing_in {A} (l : list A) : (forall a, ~ In a l) -> l = [].
Proof. destruct l as [|a l]; [easy|]. intros H. destruct (H a). now left. Qed.

(** After [cleanup], a hook that owned its resources leaves no audio
    context open and no track live. *)
Lemma cleanup_releases (w : World) :
  owns w ->
  open_contexts (trace (torn_down w)) = [] /\ live_tracks (trace (torn_down w)) = [].
Proof.
  intros [Hc Hk]. cbn [trace torn_down]. split; apply nothing_in.
  - intros c Hin. apply open_contexts_after in Hin.
    + destruct Hin as [Hopen Hclosed]. apply Hclosed.
      apply teardown_events. right. left. exists c. split; [easy|]. now apply Hc.
    + intros c' r H. apply teardown_events in H.
      destruct H as [H | [(? & H & _) | [(? & H & _) | [(? & H & _)
                    | [(? & H & _) | (? & H & _)]]]]]; discriminate H.
  - intros k Hin. apply live_tracks_after in Hin.
    + destruct Hin as [Hlive Hstopped]. apply Hstopped.
      apply teardown_events. right. right. left. exists k. split; [easy|].
      now apply Hk.
    + intros s H. apply teardown_events in H.
      destruct H as [H | [(? & H & _) | [(? & H & _) | [(? & H & _)
                    | [(? & H & _) | (? & H & _)]]]]]; discriminate H.
Qed.

(** ** connect *)

Lemma bind_new_many {B} (n : nat) (k : list handle -> M World B) (w : World) :
  bind (new_many n) k w
  = k (handles (fresh w) n) (set_fresh (advance (fresh w) n) w).
Proof.
  revert k w. induction n as [|n IH]; intros k w.
  - cbn [new_many handles advance]. rewrite bind_ret. now destruct w.
  - cbn [new_many handles advance]. rewrite bind_assoc, bind_new.
    rewrite bind_assoc, IH, bind_ret. now destruct w.
Qed.

Lemma catch_spec (props : UseGeminiLiveProps) (e : Exn) (w : World) :
  (emit (ConsoleError (message e)) ;;
   let errorMessage := or_else (Some (message e)) "Failed to start session" in
   modify (setError (Some errorMessage)) ;;
   when (onError props) (emit (OnError errorMessage)) ;;
   cleanup) w
  = (Returned tt, torn_down (surfaced props e w)).
Proof.
  unfold surfaced. cbv zeta. rewrite bind_emit, bind_modify, bind_when.
  destruct (onError props).
  - rewrite bind_emit, cleanup_spec. now destruct w.
  - rewrite cleanup_spec. now destruct w.
Qed.

Lemma try_catch_threw {S A} (m : M S A) (h : Exn -> M S A) (s s' : S) (e : Exn) :
  m s = (Threw e, s') -> try_catch m h s = h e s'.
Proof. intros H. unfold try_catch. now rewrite H. Qed.

Lemma try_catch_returned {S A} (m : M S A) (h : Exn -> M S A) (s s' : S) (a : A) :
  m s = (Returned a, s') -> try_catch m h s = (Returned a, s').
Proof. intros H. unfold try_catch. now rewrite H. Qed.

Lemma connect_no_key (props : UseGeminiLiveProps) (env : Environment) (w : World) :
  truthy (API_KEY env) = false ->
  connect props env w
  = (Returned tt, torn_down (surfaced props (Thrown "Error" "API Key is missing") w)).
Proof.
  intros Hkey. unfold connect.
  rewrite (try_catch_threw _ _ w w (Thrown "Error" "API Key is missing")).
  - apply catch_spec.
  - rewrite Hkey. cbn [negb]. now rewrite bind_when, bind_throw.
Qed.

Lemma connect_denied (props : UseGeminiLiveProps) (env : Environment) (w : World)
  (e : Exn) :
  truthy (API_KEY env) = true -> getUserMedia env = Threw e ->
  connect props env w = (Returned tt, torn_down (surfaced props e (requested w))).
Proof.
  intros Hkey Hmic. unfold connect.
  rewrite (try_catch_threw _ _ w (requested w) e).
  - apply catch_spec.
  - rewrite Hkey, Hmic. cbn [negb].
    destruct w as [ic oc ms nst srcs ses vi conn err vol tr fr].
    run. reflexivity.
Qed.

Lemma connect_rejected (props : UseGeminiLiveProps) (env : Environment) (w : World)
  (n : nat) (e : Exn) :
  truthy (API_KEY env) = true -> getUserMedia env = Returned n ->
  live_connect env = Threw e ->
  connect props env w = (Returned tt, torn_down (surfaced props e (granted props n w))).
Proof.
  intros Hkey Hmic Hlive. unfold connect.
  rewrite (try_catch_threw _ _ w (granted props n w) e).
  - apply catch_spec.
  - rewrite Hkey, Hmic, Hlive. cbn [negb].
    destruct w as [ic oc ms nst srcs ses vi conn err vol tr fr].
    run. rewrite bind_new_many. run. reflexivity.
Qed.

Lemma connect_failure (props : UseGeminiLiveProps) (env : Environment) (w : World)
  (e : Exn) :
  failure env = Some e ->
  connect props env w
  = (Returned tt, torn_down (surfaced props e (attempted props env w))).
Proof.
  unfold failure, attempted. destruct (truthy (API_KEY env)) eqn:Hkey; cbn [negb].
  - destruct (getUserMedia env) as [n|e'] eqn:Hmic.
    + destruct (live_connect env) as [[]|e'] eqn:Hlive; [discriminate|].
      intros [= <-]. now apply connect_rejected.
    + intros [= <-]. now apply connect_denied.
  - intros [= <-]. now apply connect_no_key.
Qed.

Lemma connect_opens (props : UseGeminiLiveProps) (env : Environment) (w : World)
  (n : nat) :
  truthy (API_KEY env) = true -> getUserMedia env = Returned n ->
  live_connect env = Returned tt ->
  connect props env w = (Returned tt, opened props n w).
Proof.
  intros Hkey Hmic Hlive. unfold connect.
  apply try_catch_returned. rewrite <- bind_ret_r.
  rewrite Hkey, Hmic, Hlive. cbn [negb].
  destruct w as [ic oc ms nst srcs ses vi conn err vol tr fr].
  run. rewrite bind_new_many. run. unfold onopen, startVideoStream. run.
  reflexivity.
Qed.

(** The session callbacks [onclose] and [onerror] tear down as [cleanup]
    does. *)
Lemma onclose_spec (w : World) :
  onclose w
  = (Returned tt,
     torn_down (set_trace (ConsoleLog "Gemini Live Session Closed" :: trace w) w)).
Proof. unfold onclose. now rewrite bind_emit, cleanup_spec. Qed.

Lemma onerror_spec (props : UseGeminiLiveProps) (w : World) :
  exists w1, onerror props w = (Returned tt, torn_down w1)
             /\ error w1 = Some "Connection Error".
Proof.
  unfold onerror. cbv zeta. rewrite bind_emit, bind_modify, bind_when.
  destruct (onError props).
  - rewrite bind_emit, cleanup_spec. eexists. split; [reflexivity|]. now destruct w.
  - rewrite cleanup_spec. eexists. split; [reflexivity|]. now destruct w.
Qed.

Lemma surfaced_trace (props : UseGeminiLiveProps) (e : Exn) (w : World) :
  trace (surfaced props e w) = surfacing props e ++ trace w.
Proof. unfold surfaced, surfacing. now destruct (onError props), w. Qed.

Lemma surfaced_owns (props : UseGeminiLiveProps) (e : Exn) (w : World) :
  owns w -> owns (surfaced props e w).
Proof.
  unfold owns. rewrite surfaced_trace. unfold surfaced, surfacing.
  now destruct (onError props), w.
Qed.

Lemma attempted_owns (props : UseGeminiLiveProps) (env : Environment) (w : World) :
  idle w -> owns (attempted props env w).
Proof.
  intros ((Hv & Hs & Hq & Hm & Hi & Ho) & Hc & Hk). unfold attempted, owns.
  destruct (negb (truthy (API_KEY env))).
  - rewrite Hc, Hk. now split.
  - destruct w as [ic oc ms nst srcs ses vi conn err vol tr fr].
    cbn in Hc, Hk.
    destruct (getUserMedia env) as [n|e]; cbn; rewrite Hc, Hk; split;
      intros x Hx; cbn in Hx; rewrite ?app_nil_r in Hx;
      try contradiction; try assumption;
      try (destruct Hx as [<- | [<- | []]]; auto).
Qed.

Lemma when_surfaced_after (l tr : list Event) (m : string) :
  (forall m', ~ In (OnError m') l) ->
  when_surfaced (l ++ OnError m :: tr) = Some tr.
Proof.
  induction l as [|e l IH]; intros Hl; [reflexivity|].
  assert (Hl' : forall m', ~ In (OnError m') l)
    by (intros m' H; apply (Hl m'); now right).
  destruct e; cbn [app when_surfaced]; try now apply IH.
  destruct (Hl text). now left.
Qed.

Lemma teardown_no_OnError (w : World) (m : string) : ~ In (OnError m) (teardown w).
Proof.
  intros H. apply teardown_events in H.
  destruct H as [H | [(? & H & _) | [(? & H & _) | [(? & H & _)
                | [(? & H & _) | (? & H & _)]]]]]; discriminate H.
Qed.

(** *** Failing attempts *)

(** C5: a connect attempt without a credential returns normally with the
    error surfaced (the error state holds "API Key is missing" and the error
    callback, when given, is called with it); among the effects of the
    attempt there is no microphone request, no granted stream, no new audio
    context and no open handshake; afterwards no ref holds a stream, a
    context or any other resource, and a hook that owned its resources has
    no context open and no track live. *)
Theorem connect_without_credential :
  forall (props : UseGeminiLiveProps) (env : Environment) (w : World),
  truthy (API_KEY env) = false ->
  let w' := snd (connect props env w) in
  fst (connect props env w) = Returned tt /\
  error w' = Some "API Key is missing" /\
  (onError props = true -> In (OnError "API Key is missing") (trace w')) /\
  (exists events, trace w' = events ++ trace w /\
     ~ In GetUserMedia events /\
     (forall stream, ~ In (UserMediaGranted stream) events) /\
     (forall c rate, ~ In (NewAudioContext c rate) events) /\
     (forall model instruction, ~ In (LiveConnect model instruction) events)) /\
  released w' /\
  (owns w -> open_contexts (trace w') = [] /\ live_tracks (trace w') = []).
Proof.
  intros props env w Hkey w'. subst w'. rewrite (connect_no_key _ _ _ Hkey).
  cbn [fst snd].
  set (e := Thrown "Error" "API Key is missing").
  repeat match goal with |- _ /\ _ => split end.
  - reflexivity.
  - cbn [error torn_down]. unfold surfaced. now destruct (onError props), w.
  - intros Hcb. cbn [trace torn_down]. apply in_or_app. right.
    rewrite surfaced_trace. unfold surfacing. rewrite Hcb. now left.
  - exists (teardown (surfaced props e w) ++ surfacing props e).
    cbn [trace torn_down]. rewrite surfaced_trace, app_assoc.
    assert (Hno : forall x, In x (teardown (surfaced props e w) ++ surfacing props e) ->
                  x = OnConnectionStateChange false \/ (exists c, x = CloseAudioContext c)
                  \/ (exists k, x = TrackStop k) \/ (exists n, x = SourceStop n)
                  \/ (exists s, x = SessionClose s) \/ (exists t, x = ClearInterval t)
                  \/ (exists m, x = OnError m) \/ (exists m, x = ConsoleError m)).
    { intros x Hx. apply in_app_or in Hx. destruct Hx as [Hx | Hx].
      - apply teardown_events in Hx.
        destruct Hx as [H | [(? & H & _) | [(? & H & _) | [(? & H & _)
                       | [(? & H & _) | (? & H & _)]]]]]; eauto 12.
      - unfold surfacing in Hx. destruct (onError props); cbn in Hx;
          intuition eauto 12. }
    repeat split; try reflexivity; intros; intros Hx; apply Hno in Hx;
      destruct Hx as [H | [(? & H) | [(? & H) | [(? & H) | [(? & H)
                     | [(? & H) | [(? & H) | (? & H)]]]]]]]; discriminate H.
  - apply torn_down_released.
  - intros Hown. apply cleanup_releases. now apply surfaced_owns.
Qed.

(** C4, as amended: a failing connect attempt (missing credential, refused
    microphone or rejected handshake) started from an idle hook returns
    normally; when it returns the error message is stored, no ref holds a
    resource, and every audio context it created is closed and every track
    it was granted is stopped. The error callback, when given, is called
    before this release: it is called on the state the attempt had reached,
    right after the error is logged. *)
Theorem connect_failure_releases :
  forall (props : UseGeminiLiveProps) (env : Environment) (w : World) (e : Exn),
  failure env = Some e -> idle w ->
  let w' := snd (connect props env w) in
  fst (connect props env w) = Returned tt /\
  error w' = Some (or_else (Some (message e)) "Failed to start session") /\
  released w' /\
  open_contexts (trace w') = [] /\ live_tracks (trace w') = [] /\
  (onError props = true ->
   when_surfaced (trace w')
   = Some (ConsoleError (message e) :: trace (attempted props env w))).
Proof.
  intros props env w e Hfail Hidle w'. subst w'.
  rewrite (connect_failure _ _ _ _ Hfail). cbn [fst snd].
  pose proof (cleanup_releases _ (surfaced_owns props e _ (attempted_owns props env w Hidle)))
    as [Hc Hk].
  repeat match goal with |- _ /\ _ => split end;
    try assumption; try reflexivity; try apply torn_down_released.
  - cbn [error torn_down]. unfold surfaced.
    now destruct (onError props), (attempted props env w).
  - intros Hcb. cbn [trace torn_down]. rewrite surfaced_trace.
    unfold surfacing. rewrite Hcb. cbn [app].
    apply when_surfaced_after. intros m'. apply teardown_no_OnError.
Qed.

(** ** Teardown is idempotent *)

(** C3: [cleanup] never throws, whatever the state; it leaves no resource
    referenced; it has cancelled the timer, closed the session and both
    audio contexts and stopped every source of the active set and every
    track of the stream that the state held; a second call in a row, or a
    call on a state that holds no resource, performs no teardown effect at
    all (only the state-change callback fires again) and does not throw
    either; and when every open context and live track was held by the
    hook, none is open or live afterwards. *)
Theorem cleanup_idempotent : forall w : World,
  let w1 := snd (cleanup w) in
  let w2 := snd (cleanup w1) in
  fst (cleanup w) = Returned tt /\ fst (cleanup w1) = Returned tt /\
  released w1 /\ released w2 /\
  isConnected w1 = false /\ isConnected w2 = false /\
  (forall t, videoIntervalRef w = Some t -> In (ClearInterval t) (trace w1)) /\
  (forall s, sessionRef w = Some s -> In (SessionClose s) (trace w1)) /\
  (forall n, In n (sourcesRef w) -> In (SourceStop n) (trace w1)) /\
  (forall tracks k, mediaStreamRef w = Some tracks -> In k tracks ->
                    In (TrackStop k) (trace w1)) /\
  (forall c, inputAudioContextRef w = Some c \/ outputAudioContextRef w = Some c ->
             In (CloseAudioContext c) (trace w1)) /\
  trace w2 = OnConnectionStateChange false :: trace w1 /\
  w2 = set_trace (trace w2) w1 /\
  (released w -> trace w1 = OnConnectionStateChange false :: trace w) /\
  (owns w -> open_contexts (trace w1) = [] /\ live_tracks (trace w1) = []).
Proof.
  intros w w1 w2. subst w1 w2. rewrite !cleanup_spec. cbn [fst snd].
  assert (Hin : forall e, In e (teardown w) -> In e (trace (torn_down w)))
    by (intros e He; cbn [trace torn_down]; apply in_or_app; now left).
  repeat match goal with |- _ /\ _ => split end;
    try reflexivity; try apply torn_down_released.
  - intros t Ht. apply Hin. unfold teardown. rewrite Ht.
    right. rewrite !in_app_iff. cbn. intuition.
  - intros s Hs. apply Hin. unfold teardown. rewrite Hs.
    right. rewrite !in_app_iff. cbn. intuition.
  - intros n Hn. apply Hin. unfold teardown.
    right. rewrite !in_app_iff, <- !in_rev. do 3 right. left.
    now apply in_map.
  - intros tracks k Hm Hk. apply Hin. unfold teardown. rewrite Hm.
    right. rewrite !in_app_iff, <- !in_rev. do 2 right. left.
    now apply in_map.
  - intros c [Hc | Hc]; apply Hin; unfold teardown; rewrite Hc;
      right; rewrite !in_app_iff; cbn; intuition.
  - intros Hr. cbn [trace torn_down]. now rewrite (teardown_released w Hr).
  - apply cleanup_releases.
Qed.

(** ** sendMessage *)

(** What [sendMessage] does, on either side of its guard. *)
Lemma sendMessage_spec (text : string) (w : World) :
  sendMessage text w
  = (Returned tt,
     match sessionRef w with
     | Some s => set_trace (SessionSend s (ContentText text) :: trace w) w
     | None => w
     end).
Proof.
  rewrite <- bind_ret_r. unfold sendMessage. rewrite bind_assoc, bind_read, bind_when.
  destruct (sessionRef w) as [s|] eqn:Hs; cbn [isSome]; [|reflexivity].
  now rewrite bind_assoc, bind_deref, Hs, bind_emit.
Qed.

(** C6: without a session [sendMessage] returns normally and leaves the
    whole state, trace included, as it was; with a session it returns
    normally and its only effect is one text input, carrying exactly the
    given string, sent on that session. *)
Theorem sendMessage_guarded : forall (text : string) (w : World),
  (sessionRef w = None -> sendMessage text w = (Returned tt, w)) /\
  (forall s, sessionRef w = Some s ->
     sendMessage text w
     = (Returned tt, set_trace (SessionSend s (ContentText text) :: trace w) w)).
Proof.
  intros text w. rewrite sendMessage_spec. split.
  - now intros ->.
  - now intros s ->.
Qed.

(** ** Inbound messages *)

Section Inbound.
Context {U : audio.AudioUtils}.
Local Open Scope Q_scope.

Lemma interruption_spec (message : LiveServerMessage) (w : World) :
  when (isInterrupted message)
    (sources <- read sourcesRef ;;
     forEach sources (fun s => emit (SourceStop s)) ;;
     modify (set_sourcesRef []) ;;
     modify (set_nextStartTimeRef 0)) w
  = (Returned tt, interrupt_if (isInterrupted message) w).
Proof.
  rewrite <- bind_ret_r, bind_when. unfold interrupt_if, interrupt.
  destruct (isInterrupted message); [|reflexivity].
  destruct w. now run.
Qed.

Lemma onmessage_scheduled (now : Q) (message : LiveServerMessage) (w : World)
  (buffer : audio.AudioBuffer) (c : handle) :
  payload message (Returned buffer) -> outputAudioContextRef w = Some c ->
  onmessage now message w
  = (Returned tt, interrupt_if (isInterrupted message) (scheduled now buffer w)).
Proof.
  intros (base64 & Hb & Ht & Hd) Hc. unfold onmessage. rewrite Hb.
  unfold decoded in Hd.
  destruct (audio.base64ToUint8Array base64) as [audioBytes|] eqn:Hbytes;
    [|discriminate].
  rewrite bind_assoc, bind_read, Ht, Hc. cbn [andb isSome].
  destruct w as [ic oc ms nst srcs ses vi conn err vol tr fr].
  cbn in Hc. subst oc.
  repeat (first [run_step | rewrite Hd]; state).
  apply interruption_spec.
Qed.

Lemma onmessage_rejected (now : Q) (message : LiveServerMessage) (w : World)
  (e : Exn) (c : handle) :
  payload message (Threw e) -> outputAudioContextRef w = Some c ->
  onmessage now message w
  = (Threw e, set_nextStartTimeRef (Qmax (nextStartTimeRef w) now) w).
Proof.
  intros (base64 & Hb & Ht & Hd) Hc. unfold onmessage. rewrite Hb.
  unfold decoded in Hd.
  rewrite bind_assoc, bind_read, Ht, Hc. cbn [andb isSome].
  destruct w as [ic oc ms nst srcs ses vi conn err vol tr fr].
  cbn in Hc. subst oc.
  destruct (audio.base64ToUint8Array base64) as [audioBytes|e'] eqn:Hbytes.
  - repeat (first [run_step | rewrite Hd]; state). reflexivity.
  - injection Hd as ->. run. reflexivity.
Qed.

Lemma onmessage_skipped (now : Q) (message : LiveServerMessage) (w : World) :
  truthy (base64Audio message) = false \/ outputAudioContextRef w = None ->
  onmessage now message w = (Returned tt, interrupt_if (isInterrupted message) w).
Proof.
  intros H. unfold onmessage. rewrite bind_assoc, bind_read.
  destruct (base64Audio message) as [base64|] eqn:Hb.
  - rewrite bind_when.
    replace (truthy (Some base64) && isSome (outputAudioContextRef w)) with false.
    + apply interruption_spec.
    + destruct H as [-> | ->]; [reflexivity|]. now rewrite andb_false_r.
  - rewrite bind_ret. apply interruption_spec.
Qed.

(** Every message falls under one of the three lemmas above. *)
Lemma onmessage_cases (message : LiveServerMessage) (w : World) :
  (truthy (base64Audio message) = false \/ outputAudioContextRef w = None)
  \/ (exists c o, outputAudioContextRef w = Some c /\ payload message o).
Proof.
  destruct (truthy (base64Audio message)) eqn:Ht; [|now left; left].
  destruct (outputAudioContextRef w) as [c|]; [|now left; right].
  right. destruct (base64Audio message) as [base64|] eqn:Hb; [|discriminate].
  exists c, (decoded base64). split; [reflexivity|].
  now exists base64.
Qed.

(** *** Scheduling *)

Lemma Qmax_on_time (cursor now : Q) : now <= cursor -> Qmax cursor now = cursor.
Proof.
  intros H. unfold Qmax, GenericMinMax.gmax.
  destruct (cursor ?= now) eqn:Hcmp; try reflexivity.
  apply Qlt_alt in Hcmp. exfalso. now apply (Qlt_not_le cursor now).
Qed.

Lemma schedule_scheduled (now : Q) (b : audio.AudioBuffer) (w : World) :
  schedule (trace (scheduled now b w))
  = schedule (trace w) ++ [(Qmax (nextStartTimeRef w) now, b)].
Proof. now destruct w. Qed.

Lemma deliver_scheduled (w : World) (c : chunk) (ctx : handle) :
  outputAudioContextRef w = Some ctx -> audio_only c ->
  deliver w (arrival c) = scheduled (fst (fst c)) (snd c) w.
Proof.
  intros Hctx [Hp Hi]. unfold deliver, arrival.
  rewrite (onmessage_scheduled _ _ _ _ _ Hp Hctx), Hi. reflexivity.
Qed.

Lemma deliver_all_cons (a : Q * LiveServerMessage)
  (l : list (Q * LiveServerMessage)) (w : World) :
  deliver_all (a :: l) w = deliver_all l (deliver w a).
Proof. reflexivity. Qed.

Lemma deliver_all_on_time (chunks : list chunk) (w : World) (ctx : handle) :
  outputAudioContextRef w = Some ctx -> Forall audio_only chunks ->
  faster_than_playback (nextStartTimeRef w) chunks ->
  let w' := deliver_all (map arrival chunks) w in
  schedule (trace w')
  = schedule (trace w) ++ plan (nextStartTimeRef w) (map buffer_of chunks) /\
  nextStartTimeRef w' = plan_end (nextStartTimeRef w) (map buffer_of chunks) /\
  outputAudioContextRef w' = Some ctx.
Proof.
  revert w. induction chunks as [|c rest IH]; intros w Hctx Hall Hfast.
  - cbn. now rewrite app_nil_r.
  - inversion Hall as [|? ? Hc Hrest]; subst. destruct Hfast as [Hnow Hfast].
    cbv zeta. cbn [map]. rewrite deliver_all_cons.
    rewrite (deliver_scheduled w c ctx Hctx Hc).
    assert (Hcur : nextStartTimeRef (scheduled (fst (fst c)) (snd c) w)
                   = nextStartTimeRef w + audio.duration (snd c)).
    { destruct w. cbn. now rewrite Qmax_on_time. }
    assert (Hctx' : outputAudioContextRef (scheduled (fst (fst c)) (snd c) w) = Some ctx)
      by now destruct w.
    rewrite <- Hcur in Hfast.
    destruct (IH _ Hctx' Hrest Hfast) as (H1 & H2 & H3).
    rewrite H1, H2, H3, Hcur, schedule_scheduled, Qmax_on_time by assumption.
    unfold buffer_of at 1 3. cbn [plan plan_end].
    rewrite <- app_assoc. now repeat split.
Qed.

Lemma plan_back_to_back (buffers : list audio.AudioBuffer) (start : Q) (i : nat)
  (s s' : Q) (b b' : audio.AudioBuffer) :
  nth_error (plan start buffers) i = Some (s, b) ->
  nth_error (plan start buffers) (S i) = Some (s', b') ->
  s' = s + audio.duration b.
Proof.
  revert start i. induction buffers as [|x rest IH]; intros start i H1 H2.
  - now destruct i.
  - destruct i as [|i].
    + cbn in H1. injection H1 as <- <-.
      destruct rest; cbn in H2; [discriminate|]. now injection H2 as <- _.
    + cbn in H1, H2. now apply (IH _ _ H1 H2).
Qed.

Lemma plan_last (buffers : list audio.AudioBuffer) (start s : Q)
  (b : audio.AudioBuffer) :
  nth_error (plan start buffers) (pred (List.length buffers)) = Some (s, b) ->
  plan_end start buffers = s + audio.duration b.
Proof.
  revert start. induction buffers as [|x rest IH]; intros start H.
  - discriminate.
  - destruct rest as [|y rest].
    + cbn in H. now injection H as <- <-.
    + cbn [plan_end]. apply IH. exact H.
Qed.

Lemma plan_buffers (buffers : list audio.AudioBuffer) (start : Q) :
  map snd (plan start buffers) = buffers.
Proof.
  revert start. induction buffers as [|x rest IH]; intros start; [easy|].
  cbn. now rewrite IH.
Qed.

Lemma skipn_own_length {A} (l l' : list A) : skipn (List.length l) (l ++ l') = l'.
Proof. induction l; [reflexivity | assumption]. Qed.

(** C1: chunks with decoded buffers [b1 ... bn] are delivered in order to a
    hook whose output context exists, none carrying an interruption, each
    after the first arriving no later than the cursor stands. Then the hook
    starts exactly these buffers, in this order; the first starts at
    [max(nextStartTime, now)]; each next one starts exactly where the one
    before it ends (its start plus its duration); and the cursor is left at
    the end of the last one. Each single chunk is started at
    [max(nextStartTime, now)] and leaves the cursor at that start plus its
    duration. *)
Theorem chunks_play_back_to_back :
  forall (w : World) (ctx : handle) (first : chunk) (rest : list chunk),
  outputAudioContextRef w = Some ctx ->
  Forall audio_only (first :: rest) ->
  faster_than_playback
    (Qmax (nextStartTimeRef w) (fst (fst first)) + audio.duration (snd first)) rest ->
  let w' := deliver_all (map arrival (first :: rest)) w in
  let played := skipn (List.length (schedule (trace w))) (schedule (trace w')) in
  map snd played = map buffer_of (first :: rest) /\
  nth_error played 0 = Some (Qmax (nextStartTimeRef w) (fst (fst first)), snd first) /\
  (forall i s b s' b',
     nth_error played i = Some (s, b) -> nth_error played (S i) = Some (s', b') ->
     s' = s + audio.duration b) /\
  (forall s b, nth_error played (List.length rest) = Some (s, b) ->
               nextStartTimeRef w' = s + audio.duration b) /\
  (forall now message buffer w0 ctx0,
     payload message (Returned buffer) -> isInterrupted message = false ->
     outputAudioContextRef w0 = Some ctx0 ->
     fst (onmessage now message w0) = Returned tt /\
     hd_error (trace (snd (onmessage now message w0)))
     = Some (SourceStart (fresh w0) (Qmax (nextStartTimeRef w0) now) buffer) /\
     nextStartTimeRef (snd (onmessage now message w0))
     = Qmax (nextStartTimeRef w0) now + audio.duration buffer).
Proof.
  intros w ctx first rest Hctx Hall Hfast w' played.
  inversion Hall as [|? ? Hfirst Hrest]; subst.
  set (start := Qmax (nextStartTimeRef w) (fst (fst first))) in *.
  assert (Hw1 : deliver w (arrival first) = scheduled (fst (fst first)) (snd first) w)
    by now apply (deliver_scheduled w first ctx).
  assert (Hcur : nextStartTimeRef (scheduled (fst (fst first)) (snd first) w)
                 = start + audio.duration (snd first)) by now destruct w.
  assert (Hctx' : outputAudioContextRef (scheduled (fst (fst first)) (snd first) w)
                  = Some ctx) by now destruct w.
  rewrite <- Hcur in Hfast.
  destruct (deliver_all_on_time rest _ ctx Hctx' Hrest Hfast) as (H1 & H2 & _).
  assert (Hplayed : played = plan start (map buffer_of (first :: rest))).
  { subst played w'. cbn [map]. rewrite deliver_all_cons, Hw1, H1, Hcur.
    rewrite schedule_scheduled, <- app_assoc. fold start.
    now rewrite skipn_own_length. }
  assert (Hend : nextStartTimeRef w' = plan_end start (map buffer_of (first :: rest))).
  { subst w'. cbn [map]. now rewrite deliver_all_cons, Hw1, H2, Hcur. }
  rewrite Hplayed, Hend.
  split; [apply plan_buffers|]. split; [reflexivity|].
  split; [intros i s b s' b'; apply plan_back_to_back|]. split.
  - intros s b H. apply plan_last. cbn [map List.length pred].
    now rewrite length_map.
  - intros now message buffer w0 ctx0 Hp Hi Hc0.
    rewrite (onmessage_scheduled now _ _ _ _ Hp Hc0), Hi.
    cbn [fst snd interrupt_if]. now destruct w0.
Qed.

(** *** Interruption *)

Lemma interrupt_stops (w : World) (n : handle) :
  In n (sourcesRef w) -> In (SourceStop n) (trace (interrupt w)).
Proof.
  intros H. destruct w. cbn in *. apply in_or_app. left.
  rewrite <- in_rev. now apply in_map.
Qed.

(** X1: when the handler of a message that signals an interruption returns
    normally, every source of the active set has been stopped, the set is
    empty and the cursor is zero. *)
Lemma interruption_clears (now : Q) (message : LiveServerMessage) (w : World) :
  isInterrupted message = true ->
  fst (onmessage now message w) = Returned tt ->
  let w' := snd (onmessage now message w) in
  (forall n, In n (sourcesRef w) -> In (SourceStop n) (trace w')) /\
  sourcesRef w' = [] /\ nextStartTimeRef w' = 0.
Proof.
  intros Hi Hret.
  destruct (onmessage_cases message w) as [Hskip | (c & [b|e] & Hctx & Hp)].
  - rewrite (onmessage_skipped now _ _ Hskip), Hi. cbn [snd interrupt_if].
    split; [apply interrupt_stops | now destruct w].
  - rewrite (onmessage_scheduled now _ _ _ _ Hp Hctx), Hi. cbn [snd interrupt_if].
    split; [|now destruct w].
    intros n Hn. apply interrupt_stops. destruct w. cbn in *.
    now apply set_add_intro1.
  - rewrite (onmessage_rejected now _ _ _ _ Hp Hctx) in Hret. discriminate Hret.
Qed.


(** X2: after an interruption (the cursor is zero) the next chunk handled
    is started at the reading of the output clock at which it is handled. *)
Lemma next_after_interruption (now : Q) (message : LiveServerMessage) (w : World)
  (buffer : audio.AudioBuffer) (ctx : handle) :
  nextStartTimeRef w = 0 -> 0 <= now ->
  payload message (Returned buffer) -> isInterrupted message = false ->
  outputAudioContextRef w = Some ctx ->
  exists start,
    trace (snd (onmessage now message w))
    = SourceStart (fresh w) start buffer :: trace w /\
    start == now.
Proof.
  intros Hz Hnow Hp Hi Hctx. exists (Qmax (nextStartTimeRef w) now). split.
  - rewrite (onmessage_scheduled now _ _ _ _ Hp Hctx), Hi.
    cbn [snd interrupt_if]. now destruct w.
  - rewrite Hz. now apply Q.max_r.
Qed.


(** *** Decode errors *)


End Inbound.

(** ** Scenarios *)

Lemma connect_reaches_connected :
  connect shell_props reachable initial = (Returned tt, connected).
Proof. vm_compute. reflexivity. Qed.

Lemma silence_decodes : @payload audio.spec_utils (inbound silence None) (Returned silence_buffer).
Proof. exists silence. split; [|split]; vm_compute; reflexivity. Qed.

Lemma idle_initial : idle initial.
Proof. repeat split. Qed.

(** A credential is missing: nothing is requested. *)
Lemma connect_without_credential_witness :
  truthy (API_KEY no_credential) = false /\
  error (snd (connect shell_props no_credential initial)) = Some "API Key is missing" /\
  released (snd (connect shell_props no_credential initial)).
Proof.
  split; [reflexivity|].
  pose proof (connect_without_credential shell_props no_credential initial eq_refl)
    as (_ & Herr & _ & _ & Hrel & _).
  exact (conj Herr Hrel).
Defined.

(** The handshake is rejected after the stream was granted: when [connect]
    returns, both contexts are closed and the track is stopped. *)
Lemma connect_failure_releases_witness :
  failure handshake_rejected = Some (Thrown "Error" "handshake rejected") /\
  idle initial /\
  open_contexts (trace (snd (connect shell_props handshake_rejected initial))) = [] /\
  live_tracks (trace (snd (connect shell_props handshake_rejected initial))) = [].
Proof.
  split; [reflexivity|]. split; [exact idle_initial|].
  pose proof (connect_failure_releases shell_props handshake_rejected initial _
                eq_refl idle_initial) as (_ & _ & _ & Hc & Hk & _).
  exact (conj Hc Hk).
Defined.

(** The microphone is refused: both contexts are closed again, no stream
    was ever stored, and the handshake is not started. *)
Lemma permission_denied_releases :
  connect shell_props permission_denied initial
  = (Returned tt,
     torn_down (surfaced shell_props (Thrown "NotAllowedError" "Permission denied")
                  (requested initial))) /\
  trace (snd (connect shell_props permission_denied initial))
  = [OnConnectionStateChange false; CloseAudioContext 2%positive;
     CloseAudioContext 1%positive; OnError "Permission denied";
     ConsoleError "Permission denied"; GetUserMedia;
     NewAudioContext 2%positive OUTPUT_SAMPLE_RATE;
     NewAudioContext 1%positive INPUT_SAMPLE_RATE].
Proof. split; vm_compute; reflexivity. Qed.

(** C4, as stated, fails: when the error callback is called for the
    rejected handshake, both audio contexts of the attempt are still open
    and its track is still live; they are released only afterwards. *)
Lemma error_surfaced_before_release :
  exists pre,
    when_surfaced (trace (snd (connect shell_props handshake_rejected initial)))
    = Some pre /\
    open_contexts pre = [2; 1]%positive /\ live_tracks pre = [3%positive].
Proof.
  exists [ConsoleError "handshake rejected";
          LiveConnect MODEL_NAME "You are SenseBridge. Wait for instructions.";
          UserMediaGranted [3%positive]; GetUserMedia;
          NewAudioContext 2%positive OUTPUT_SAMPLE_RATE;
          NewAudioContext 1%positive INPUT_SAMPLE_RATE].
  split; [vm_compute; reflexivity|]. split; vm_compute; reflexivity.
Qed.

(** Two chunks of silence, the second arriving while the first plays. *)
Lemma chunks_play_back_to_back_witness :
  outputAudioContextRef connected = Some 2%positive /\
  Forall (@audio_only audio.spec_utils)
    [(0, inbound silence None, silence_buffer);
     (1 # 24000, inbound silence None, silence_buffer)] /\
  @faster_than_playback
    (Qmax (nextStartTimeRef connected) 0 + audio.duration silence_buffer)
    [(1 # 24000, inbound silence None, silence_buffer)] /\
  map snd
    (skipn (List.length (schedule (trace connected)))
       (schedule (trace (@deliver_all audio.spec_utils
          [(0, inbound silence None); (1 # 24000, inbound silence None)] connected))))
  = [silence_buffer; silence_buffer].
Proof.
  assert (H1 : outputAudioContextRef connected = Some 2%positive)
    by (vm_compute; reflexivity).
  assert (H2 : Forall (@audio_only audio.spec_utils)
                 [(0, inbound silence None, silence_buffer);
                  (1 # 24000, inbound silence None, silence_buffer)])
    by (repeat constructor; exact silence_decodes).
  assert (H3 : @faster_than_playback
                 (Qmax (nextStartTimeRef connected) 0 + audio.duration silence_buffer)
                 [(1 # 24000, inbound silence None, silence_buffer)])
    by (split; [discriminate | exact I]).
  split; [exact H1|]. split; [exact H2|]. split; [exact H3|].
  exact (proj1 (@chunks_play_back_to_back audio.spec_utils connected 2%positive
                  (0, inbound silence None, silence_buffer)
                  [(1 # 24000, inbound silence None, silence_buffer)] H1 H2 H3)).
Defined.





(** A message that only signals the interruption, while one source plays. *)
Lemma interruption_clears_witness :
  isInterrupted (inbound "" (Some true)) = true /\
  sourcesRef (@deliver audio.spec_utils connected (0, inbound silence None))
  = [6%positive] /\
  sourcesRef
    (snd (@onmessage audio.spec_utils (1 # 24000) (inbound "" (Some true))
            (@deliver audio.spec_utils connected (0, inbound silence None))))
  = [].
Proof.
  split; [reflexivity|]. split; [vm_compute; reflexivity|].
  refine (proj1 (proj2 (@interruption_clears audio.spec_utils (1 # 24000)
                          (inbound "" (Some true))
                          (@deliver audio.spec_utils connected (0, inbound silence None))
                          eq_refl _))).
  vm_compute. reflexivity.
Defined.

(** Half a second after the output clock started, on a cursor at zero. *)
Lemma next_after_interruption_witness :
  nextStartTimeRef connected = 0 /\ 0 <= 1 # 2 /\
  exists start,
    trace (snd (@onmessage audio.spec_utils (1 # 2) (inbound silence None) connected))
    = SourceStart (fresh connected) start silence_buffer :: trace connected /\
    start == 1 # 2.
Proof.
  split; [reflexivity|]. split; [discriminate|].
  refine (@next_after_interruption audio.spec_utils (1 # 2) (inbound silence None)
            connected silence_buffer 2%positive eq_refl _ silence_decodes eq_refl _).
  - discriminate.
  - vm_compute. reflexivity.
Defined.

(** C2 on the code: one source is playing (a chunk of silence was
    scheduled) when a message arrives that carries the interruption flag
    together with a truncated payload. The handler throws at the decoding,
    before it reaches the interruption: the source is not stopped, the
    active set still holds it and the cursor is not reset. *)
Theorem interruption_lost_on_decode_error :
  let playing := @deliver audio.spec_utils connected (0, inbound silence None) in
  let w' := snd (@onmessage audio.spec_utils (1 # 24000)
                   (inbound truncated (Some true)) playing) in
  sourcesRef playing = [6%positive] /\
  isInterrupted (inbound truncated (Some true)) = true /\
  fst (@onmessage audio.spec_utils (1 # 24000) (inbound truncated (Some true)) playing)
  = Threw (audio.DecodeError "odd byte length") /\
  sourcesRef w' = [6%positive] /\
  nextStartTimeRef w' = 3 # 24000 /\
  ~ In (SourceStop 6%positive) (trace w').
Proof.
  cbv zeta. repeat (split; [vm_compute; reflexivity|]).
  intros H. vm_compute in H. repeat (destruct H as [H | H]; [discriminate H|]).
  exact H.
Qed.

(** * The mode switch *)

Section ModeSwitch.
Import types.


(** The one mode of the enumeration the panel has no button for has no
    entry in the registry: switching to it sends nothing. *)
Lemma idle_has_no_instruction :
  ControlPanel.getSystemInstructionForMode IDLE = None /\
  forall a, App.hook (snd (App.handleModeChange IDLE a)) = App.hook a.
Proof.
  split; [reflexivity|]. intros [md ann ui w].
  destruct w as [ic oc ms nst srcs ses vi conn err vol tr fr].
  now destruct conn.
Qed.





End ModeSwitch.

(** * The codec round trip *)

Section Codec.
Import audio.
Local Open Scope Z_scope.

(** *** The transport text *)

Lemma sextets_ok : forallb sextet_ok (map Z.of_nat (seq 0 64)) = true.
Proof. vm_compute. reflexivity. Qed.

Lemma b64_char_value (n : Z) :
  0 <= n < 64 ->
  b64_value (b64_char n) = Some n /\ Ascii.eqb (b64_char n) pad = false.
Proof.
  intros Hn.
  assert (Hin : In n (map Z.of_nat (seq 0 64))).
  { apply in_map_iff. exists (Z.to_nat n). split; [lia|]. apply in_seq. lia. }
  pose proof (proj1 (forallb_forall _ _) sextets_ok n Hin) as H.
  unfold sextet_ok in H. destruct (b64_value (b64_char n)) as [m|]; [|discriminate].
  apply andb_prop in H. destruct H as [H1 H2].
  apply Z.eqb_eq in H1. apply negb_true_iff in H2. now subst.
Qed.

Lemma b64_decode_quad (c1 c2 c3 c4 : ascii) (rest : list ascii) (v1 v2 v3 v4 : Z) :
  b64_value c1 = Some v1 -> b64_value c2 = Some v2 ->
  b64_value c3 = Some v3 -> b64_value c4 = Some v4 ->
  Ascii.eqb c4 pad = false ->
  b64_decode (c1 :: c2 :: c3 :: c4 :: rest)
  = opt_bind (b64_decode rest) (fun r =>
      Some (v1 * 4 + v2 / 16 :: (v2 mod 16) * 16 + v3 / 4
            :: (v3 mod 4) * 64 + v4 :: r)).
Proof.
  intros H1 H2 H3 H4 Hp. cbn [b64_decode]. rewrite H1, H2, Hp, H3, H4.
  reflexivity.
Qed.

Lemma b64_decode_two (c1 c2 c3 : ascii) (v1 v2 v3 : Z) :
  b64_value c1 = Some v1 -> b64_value c2 = Some v2 -> b64_value c3 = Some v3 ->
  Ascii.eqb c3 pad = false ->
  b64_decode [c1; c2; c3; pad]
  = Some [v1 * 4 + v2 / 16; (v2 mod 16) * 16 + v3 / 4].
Proof.
  intros H1 H2 H3 Hp. cbn [b64_decode]. rewrite H1, H2, Hp, H3.
  reflexivity.
Qed.

Lemma b64_decode_one (c1 c2 : ascii) (v1 v2 : Z) :
  b64_value c1 = Some v1 -> b64_value c2 = Some v2 ->
  b64_decode [c1; c2; pad; pad] = Some [v1 * 4 + v2 / 16].
Proof. intros H1 H2. cbn [b64_decode]. rewrite H1, H2. reflexivity. Qed.

Ltac divmod := unfold is_byte in *; Z.to_euclidean_division_equations; lia.

Ltac sextet := apply b64_char_value; divmod.

Lemma b64_round_trip_upto (n : nat) (bs : list Z) :
  (List.length bs <= n)%nat -> Forall is_byte bs ->
  b64_decode (b64_encode bs) = Some bs.
Proof.
  revert bs. induction n as [|n IH]; intros bs Hlen Hbytes.
  - destruct bs; [reflexivity | cbn in Hlen; lia].
  - destruct bs as [|a [|b [|c rest]]].
    + reflexivity.
    + inversion Hbytes as [|? ? Ha _]; subst. cbn [b64_encode].
      rewrite (b64_decode_one _ _ (a / 4) ((a mod 4) * 16)); try (now sextet).
      do 2 f_equal. divmod.
    + inversion Hbytes as [|? ? Ha Hb']; subst.
      inversion Hb' as [|? ? Hb _]; subst. cbn [b64_encode].
      rewrite (b64_decode_two _ _ _ (a / 4) ((a mod 4) * 16 + b / 16)
                 ((b mod 16) * 4)); try (now sextet).
      f_equal. f_equal; [divmod|]. f_equal. divmod.
    + inversion Hbytes as [|? ? Ha Hb']; subst.
      inversion Hb' as [|? ? Hb Hc']; subst.
      inversion Hc' as [|? ? Hc Hrest]; subst. cbn [b64_encode].
      rewrite (b64_decode_quad _ _ _ _ _ (a / 4) ((a mod 4) * 16 + b / 16)
                 ((b mod 16) * 4 + c / 64) (c mod 64)); try (now sextet).
      rewrite IH; [|cbn in Hlen; lia | exact Hrest]. cbn [opt_bind].
      f_equal. f_equal; [divmod|]. f_equal; [divmod|]. f_equal. divmod.
Qed.

(** Decoding the transport text of a byte sequence gives the bytes back. *)
Lemma b64_round_trip (bs : list Z) :
  Forall is_byte bs -> b64_decode (b64_encode bs) = Some bs.
Proof. apply (b64_round_trip_upto (List.length bs)). lia. Qed.

(** *** 16-bit samples *)

Lemma floatToInt16_range (x : Q) : is_int16 (floatToInt16 x).
Proof. unfold is_int16, floatToInt16. lia. Qed.

Lemma int16_bytes (v : Z) :
  is_int16 v ->
  Forall is_byte (int16ToBytes v) /\
  int16OfBytes ((v mod 65536) mod 256) ((v mod 65536) / 256) = v.
Proof.
  intros Hv. unfold is_int16 in Hv. unfold int16ToBytes, int16OfBytes. split.
  - repeat constructor; divmod.
  - cbv zeta.
    destruct (Z.ltb_spec ((v mod 65536) mod 256 + 256 * ((v mod 65536) / 256)) 32768);
      divmod.
Qed.

Lemma pcm_bytes (vs : list Z) :
  Forall is_int16 vs ->
  Forall is_byte (flat_map int16ToBytes vs) /\
  bytesToInt16 (flat_map int16ToBytes vs) = Some vs.
Proof.
  induction 1 as [|v vs Hv Hvs [IH1 IH2]]; [now split|].
  destruct (int16_bytes v Hv) as [Hb Hround]. split.
  - cbn [flat_map]. apply Forall_app. now split.
  - cbn [flat_map]. unfold int16ToBytes at 1. cbv zeta. cbn [app bytesToInt16].
    rewrite IH2. cbn [opt_bind]. now rewrite Hround.
Qed.

(** *** Quantisation *)

Lemma trunc_scaled (n : Z) (d : positive) :
  - Zpos d <= n <= Zpos d ->
  let v := Z.max (-32768) (Z.min 32767 (Z.quot (n * 32768) (Zpos d))) in
  - Zpos d <= v * Zpos d - n * 32768 <= Zpos d.
Proof.
  intros Hn v. subst v.
  pose proof (Z.quot_rem' (n * 32768) (Zpos d)) as Hqr.
  assert (Hr : - Zpos d < Z.rem (n * 32768) (Zpos d) < Zpos d).
  { pose proof (Z.rem_bound_abs (n * 32768) (Zpos d)). lia. }
  assert (Hs : 0 <= Z.rem (n * 32768) (Zpos d) * (n * 32768))
    by (apply Z.rem_sign_mul; lia).
  set (t := Z.quot (n * 32768) (Zpos d)) in *.
  set (r := Z.rem (n * 32768) (Zpos d)) in *.
  nia.
Qed.

(** A normalised sample and its 16-bit value read back differ by at most
    one step. *)
Lemma quantization (x : Q) :
  (-1 <= x <= 1)%Q -> (Qabs (int16ToFloat (floatToInt16 x) - x) <= 1 # 32768)%Q.
Proof.
  destruct x as [n d]. intros [Hlo Hhi].
  unfold Qle in Hlo, Hhi. cbn in Hlo, Hhi.
  assert (Hn : - Zpos d <= n <= Zpos d) by lia.
  pose proof (trunc_scaled n d Hn) as Hv. cbv zeta in Hv.
  unfold floatToInt16, Qtrunc, int16ToFloat.
  cbn [Qmult Qnum Qden inject_Z]. rewrite Pos.mul_1_r.
  set (v := Z.max (-32768) (Z.min 32767 (Z.quot (n * 32768) (Zpos d)))) in *.
  apply Qabs_Qle_condition. unfold Qle, Qminus, Qplus, Qopp, Qdiv, Qmult, Qinv.
  cbn. lia.
Qed.

(** The step is reached: the sample 1 is stored as 32767. *)
Lemma quantization_at_one :
  floatToInt16 1 = 32767 /\ (int16ToFloat (floatToInt16 1) - 1 == - (1 # 32768))%Q.
Proof. split; reflexivity. Qed.

(** *** The round trip *)

Lemma decodePcm_encodePcm (x : list Q) (rate : positive) :
  x <> [] ->
  decodePcm (encodePcm x) rate
  = Returned {| channelData := map int16ToFloat (map floatToInt16 x);
                sampleRate := rate |}.
Proof.
  intros Hx. unfold decodePcm, encodePcm, spec_base64ToUint8Array.
  rewrite list_ascii_of_string_of_list_ascii.
  assert (Hv : Forall is_int16 (map floatToInt16 x)).
  { apply Forall_forall. intros v Hin. apply in_map_iff in Hin.
    destruct Hin as (s & <- & _). apply floatToInt16_range. }
  destruct (pcm_bytes _ Hv) as [Hb Hr].
  assert (Hflat : flat_map (fun s => int16ToBytes (floatToInt16 s)) x
                  = flat_map int16ToBytes (map floatToInt16 x)).
  { clear. induction x as [|s x IH]; [reflexivity|]. cbn. now rewrite IH. }
  rewrite Hflat.
  rewrite (b64_round_trip _ Hb). unfold spec_decodeAudioData. rewrite Hr.
  destruct x as [|s x]; [contradiction|]. reflexivity.
Qed.

(** C9: for every non-empty buffer of samples in [-1, 1], decoding the
    encoded buffer succeeds, gives as many samples, and each differs from
    the original by at most one quantisation step, 1/32768. *)
Theorem pcm_round_trip : forall (x : list Q) (rate : positive),
  x <> [] -> Forall normalised x ->
  exists y,
    decodePcm (encodePcm x) rate
    = Returned {| channelData := y; sampleRate := rate |} /\
    Forall2 within_one_step x y.
Proof.
  intros x rate Hx Hn. exists (map int16ToFloat (map floatToInt16 x)).
  split; [now apply decodePcm_encodePcm|].
  clear Hx. induction Hn as [|s x Hs Hn IH]; constructor; [|exact IH].
  now apply quantization.
Qed.

Lemma pcm_round_trip_witness :
  [1; -1; 1 # 3; 0; - (1 # 2)]%Q <> [] /\
  Forall normalised [1; -1; 1 # 3; 0; - (1 # 2)]%Q /\
  exists y,
    decodePcm (encodePcm [1; -1; 1 # 3; 0; - (1 # 2)]%Q) 16000
    = Returned {| channelData := y; sampleRate := 16000 |} /\
    Forall2 within_one_step [1; -1; 1 # 3; 0; - (1 # 2)]%Q y.
Proof.
  assert (H1 : [1; -1; 1 # 3; 0; - (1 # 2)]%Q <> []) by discriminate.
  assert (H2 : Forall normalised [1; -1; 1 # 3; 0; - (1 # 2)]%Q)
    by (repeat constructor; discriminate).
  split; [exact H1|]. split; [exact H2|].
  exact (pcm_round_trip _ 16000%positive H1 H2).
Defined.

(** The empty buffer is outside the round trip: its encoding is the empty
    text, which the decoder rejects as empty input. *)
Lemma empty_buffer_is_rejected (rate : positive) :
  decodePcm (encodePcm []) rate = Threw (DecodeError "empty input").
Proof. reflexivity. Qed.

End Codec.

(** * The life of a hook *)

(** ** What each call leaves *)

Lemma onerror_reported (props : UseGeminiLiveProps) (w : World) :
  onerror props w = (Returned tt, torn_down (reported props w)).
Proof.
  unfold onerror, reported. cbv zeta. rewrite bind_emit, bind_modify, bind_when.
  destruct (onError props).
  - rewrite bind_emit, cleanup_spec. now destruct w.
  - rewrite cleanup_spec. now destruct w.
Qed.

Lemma failure_none (env : Environment) :
  failure env = None ->
  truthy (API_KEY env) = true /\
  exists n, getUserMedia env = Returned n /\ live_connect env = Returned tt.
Proof.
  unfold failure. destruct (truthy (API_KEY env)); cbn [negb]; [|discriminate].
  destruct (getUserMedia env) as [n|e]; [|discriminate].
  destruct (live_connect env) as [[]|e]; [|discriminate].
  intros _. split; [reflexivity|]. now exists n.
Qed.

(** [connect] either fails, and leaves what the [catch] block leaves, or
    opens the session. *)
Lemma connect_leaves (props : UseGeminiLiveProps) (env : Environment) (w : World) :
  (exists e, failure env = Some e /\
     connect props env w
     = (Returned tt, torn_down (surfaced props e (attempted props env w))))
  \/ (exists n, failure env = None /\ getUserMedia env = Returned n /\
        connect props env w = (Returned tt, opened props n w)).
Proof.
  destruct (failure env) as [e|] eqn:Hf.
  - left. exists e. split; [reflexivity|]. now apply connect_failure.
  - right. destruct (failure_none env Hf) as (Hkey & n & Hmic & Hlive).
    exists n. split; [reflexivity|]. split; [exact Hmic|]. now apply connect_opens.
Qed.

Section Life.
Context {U : audio.AudioUtils}.

Lemma onmessage_leaves (now : Q) (message : LiveServerMessage) (w : World) :
  snd (onmessage now message w) = interrupt_if (isInterrupted message) w
  \/ (exists b c, outputAudioContextRef w = Some c /\
        snd (onmessage now message w)
        = interrupt_if (isInterrupted message) (scheduled now b w))
  \/ (exists c, outputAudioContextRef w = Some c /\
        snd (onmessage now message w)
        = set_nextStartTimeRef (Qmax (nextStartTimeRef w) now) w).
Proof.
  destruct (onmessage_cases message w) as [Hskip | (c & [b|e] & Hctx & Hp)].
  - left. now rewrite (onmessage_skipped now _ _ Hskip).
  - right. left. exists b, c. split; [exact Hctx|].
    now rewrite (onmessage_scheduled now _ _ _ _ Hp Hctx).
  - right. right. exists c. split; [exact Hctx|].
    now rewrite (onmessage_rejected now _ _ _ _ Hp Hctx).
Qed.

End Life.

(** ** The protocol of the buffer sources *)

Lemma started_sourceless (l tr : list Event) :
  (forall e, In e l -> sourceless e = true) -> started (l ++ tr) = started tr.
Proof.
  induction l as [|a l IH]; intros H; [reflexivity|].
  assert (Ha : sourceless a = true) by (apply H; now left).
  assert (Hl : forall e, In e l -> sourceless e = true) by (intros e He; apply H; now right).
  destruct a; try discriminate Ha; cbn [app started]; now apply IH.
Qed.

Lemma unstopped_sourceless (l tr : list Event) :
  (forall e, In e l -> sourceless e = true) -> unstopped (l ++ tr) = unstopped tr.
Proof.
  induction l as [|a l IH]; intros H; [reflexivity|].
  assert (Ha : sourceless a = true) by (apply H; now left).
  assert (Hl : forall e, In e l -> sourceless e = true) by (intros e He; apply H; now right).
  destruct a; try discriminate Ha; cbn [app unstopped]; now apply IH.
Qed.

Lemma disciplined_sourceless (l tr : list Event) :
  (forall e, In e l -> sourceless e = true) -> disciplined tr -> disciplined (l ++ tr).
Proof.
  induction l as [|a l IH]; intros H Hd; [exact Hd|].
  assert (Ha : sourceless a = true) by (apply H; now left).
  assert (Hl : forall e, In e l -> sourceless e = true) by (intros e He; apply H; now right).
  destruct a; try discriminate Ha; cbn [app disciplined]; now apply IH.
Qed.

Lemma started_stops (srcs : list handle) (tr : list Event) :
  started (rev (map SourceStop srcs) ++ tr) = started tr.
Proof.
  revert tr. induction srcs as [|a l IH]; intros tr; [reflexivity|].
  cbn [map rev]. rewrite <- app_assoc. cbn [app]. now rewrite IH.
Qed.

(** Stopping, one after the other, sources that are distinct and
    unstopped follows the protocol. *)
Lemma stop_all (srcs : list handle) (tr : list Event) :
  NoDup srcs -> (forall n, In n srcs -> In n (unstopped tr)) ->
  disciplined tr -> disciplined (rev (map SourceStop srcs) ++ tr).
Proof.
  revert tr. induction srcs as [|a l IH]; intros tr Hnd Hin Hd; [exact Hd|].
  cbn [map rev]. rewrite <- app_assoc. cbn [app].
  inversion Hnd as [|? ? Hnot Hnd']; subst. apply IH.
  - exact Hnd'.
  - intros n Hn. cbn [unstopped]. apply in_in_remove.
    + intros ->. contradiction.
    + apply Hin. now right.
  - cbn [disciplined]. split; [apply Hin; now left | exact Hd].
Qed.

Lemma tidy_after (w w' : World) (l : list Event) :
  trace w' = l ++ trace w -> (forall e, In e l -> sourceless e = true) ->
  sourcesRef w' = sourcesRef w -> (fresh w <= fresh w')%positive ->
  tidy w -> tidy w'.
Proof.
  intros Htr Hl Hs Hf (Hd & Hnd & Hin & Hb). unfold tidy.
  rewrite Htr, Hs, (started_sourceless l _ Hl), (unstopped_sourceless l _ Hl).
  split; [now apply disciplined_sourceless|]. split; [exact Hnd|].
  split; [exact Hin|]. intros n Hn. specialize (Hb n Hn). lia.
Qed.

Lemma tidy_torn_down (w : World) : tidy w -> tidy (torn_down w).
Proof.
  intros (Hd & Hnd & Hin & Hb). unfold tidy. cbn [trace torn_down sourcesRef fresh].
  rewrite teardown_onto.
  set (after := map SessionClose (option_list (sessionRef w))
                ++ map ClearInterval (option_list (videoIntervalRef w)) ++ trace w).
  assert (Hafter : forall e,
            In e (map SessionClose (option_list (sessionRef w))
                  ++ map ClearInterval (option_list (videoIntervalRef w))) ->
            sourceless e = true).
  { intros e He. apply in_app_or in He.
    destruct He as [He | He]; apply in_map_iff in He; now destruct He as (a & <- & _). }
  assert (Ha1 : started after = started (trace w))
    by (subst after; rewrite app_assoc; now apply started_sourceless).
  assert (Ha2 : unstopped after = unstopped (trace w))
    by (subst after; rewrite app_assoc; now apply unstopped_sourceless).
  assert (Ha3 : disciplined after)
    by (subst after; rewrite app_assoc; now apply disciplined_sourceless).
  set (stops := rev (map SourceStop (sourcesRef w)) ++ after).
  assert (Hs1 : started stops = started (trace w))
    by (subst stops; now rewrite started_stops).
  assert (Hs3 : disciplined stops).
  { subst stops. apply stop_all; [exact Hnd | | exact Ha3].
    intros n Hn. rewrite Ha2. now apply Hin. }
  set (before := map CloseAudioContext (option_list (outputAudioContextRef w))
                 ++ map CloseAudioContext (option_list (inputAudioContextRef w))
                 ++ rev (map TrackStop (tracks_of (mediaStreamRef w)))).
  assert (Hbefore : forall e, In e (OnConnectionStateChange false :: before) ->
                              sourceless e = true).
  { intros e [<- | He]; [reflexivity|]. subst before.
    apply in_app_or in He. destruct He as [He | He];
      [apply in_map_iff in He; now destruct He as (a & <- & _)|].
    apply in_app_or in He. destruct He as [He | He];
      [apply in_map_iff in He; now destruct He as (a & <- & _)|].
    apply in_rev in He. apply in_map_iff in He. now destruct He as (a & <- & _). }
  assert (Heq : OnConnectionStateChange false
                :: map CloseAudioContext (option_list (outputAudioContextRef w))
                ++ map CloseAudioContext (option_list (inputAudioContextRef w))
                ++ rev (map TrackStop (tracks_of (mediaStreamRef w))) ++ stops
                = (OnConnectionStateChange false :: before) ++ stops).
  { subst before. cbn [app]. now rewrite <- !app_assoc. }
  fold after. fold stops. rewrite Heq.
  rewrite (started_sourceless _ _ Hbefore), Hs1.
  split; [now apply disciplined_sourceless|]. split; [constructor|].
  split; [intros n []|exact Hb].
Qed.

Lemma advance_le (p : handle) (n : nat) : (p <= advance p n)%positive.
Proof.
  revert p. induction n as [|n IH]; intros p; cbn [advance]; [lia|].
  specialize (IH (Pos.succ p)). lia.
Qed.

Lemma tidy_requested (w : World) : tidy w -> tidy (requested w).
Proof.
  apply (tidy_after w _ [GetUserMedia;
                         NewAudioContext (Pos.succ (fresh w)) OUTPUT_SAMPLE_RATE;
                         NewAudioContext (fresh w) INPUT_SAMPLE_RATE]).
  - now destruct w.
  - intros e [<- | [<- | [<- | []]]]; reflexivity.
  - now destruct w.
  - destruct w; cbn; lia.
Qed.

Lemma tidy_granted (props : UseGeminiLiveProps) (n : nat) (w : World) :
  tidy w -> tidy (granted props n w).
Proof.
  intros H. apply tidy_requested in H. revert H.
  apply (tidy_after _ _ [LiveConnect MODEL_NAME
                           (or_else (systemInstruction props)
                              "You are SenseBridge, a helpful assistive AI.");
                         UserMediaGranted (handles (fresh (requested w)) n)]).
  - unfold granted. now destruct (requested w).
  - intros e [<- | [<- | []]]; reflexivity.
  - unfold granted. now destruct (requested w).
  - unfold granted. generalize (advance_le (fresh (requested w)) n).
    now destruct (requested w).
Qed.

Lemma tidy_opened (props : UseGeminiLiveProps) (n : nat) (w : World) :
  tidy w -> tidy (opened props n w).
Proof.
  intros H. apply (tidy_granted props n) in H. revert H.
  apply (tidy_after _ _ [SetInterval (Pos.succ (fresh (granted props n w)));
                         OnConnectionStateChange true;
                         ConsoleLog "Gemini Live Session Opened"]).
  - unfold opened. now destruct (granted props n w).
  - intros e [<- | [<- | [<- | []]]]; reflexivity.
  - unfold opened. now destruct (granted props n w).
  - unfold opened. destruct (granted props n w); cbn; lia.
Qed.

Lemma tidy_attempted (props : UseGeminiLiveProps) (env : Environment) (w : World) :
  tidy w -> tidy (attempted props env w).
Proof.
  intros H. unfold attempted. destruct (negb (truthy (API_KEY env))); [exact H|].
  destruct (getUserMedia env); [now apply tidy_granted | now apply tidy_requested].
Qed.

Lemma tidy_surfaced (props : UseGeminiLiveProps) (e : Exn) (w : World) :
  tidy w -> tidy (surfaced props e w).
Proof.
  apply (tidy_after w _ (surfacing props e)).
  - apply surfaced_trace.
  - unfold surfacing. destruct (onError props); cbn [app].
    + intros x [<- | [<- | []]]; reflexivity.
    + intros x [<- | []]; reflexivity.
  - unfold surfaced. now destruct (onError props), w.
  - unfold surfaced. destruct (onError props), w; cbn; lia.
Qed.

Lemma tidy_reported (props : UseGeminiLiveProps) (w : World) :
  tidy w -> tidy (reported props w).
Proof.
  apply (tidy_after w _
           ((if onError props then [OnError "Connection Error"] else [])
            ++ [ConsoleError "Gemini Live Error"])).
  - unfold reported. now destruct (onError props), w.
  - destruct (onError props); cbn [app].
    + intros x [<- | [<- | []]]; reflexivity.
    + intros x [<- | []]; reflexivity.
  - unfold reported. now destruct (onError props), w.
  - unfold reported. destruct (onError props), w; cbn; lia.
Qed.

Section LifeOfSources.
Context {U : audio.AudioUtils}.

Lemma tidy_scheduled (now : Q) (b : audio.AudioBuffer) (w : World) :
  tidy w -> tidy (scheduled now b w).
Proof.
  intros (Hd & Hnd & Hin & Hb).
  destruct w as [ic oc ms nst srcs ses vi conn err vol tr fr].
  unfold tidy, scheduled in *. cbn in *.
  split; [split; [|exact Hd]|].
  - intros H. specialize (Hb _ H). lia.
  - split; [now apply set_add_nodup|]. split.
    + intros n Hn. apply set_add_elim in Hn. destruct Hn as [-> | Hn]; [now left|].
      right. now apply Hin.
    + intros n [<- | Hn]; [lia|]. specialize (Hb _ Hn). lia.
Qed.

Lemma tidy_interrupt (w : World) : tidy w -> tidy (interrupt w).
Proof.
  intros (Hd & Hnd & Hin & Hb).
  destruct w as [ic oc ms nst srcs ses vi conn err vol tr fr].
  unfold tidy, interrupt in *. cbn in *. rewrite started_stops.
  split; [now apply stop_all|]. split; [constructor|].
  split; [intros n []|exact Hb].
Qed.

Lemma tidy_call (w : World) (c : Call) : tidy w -> tidy (call w c).
Proof.
  intros H. destruct c as [props env| |now message|source|text| |props]; cbn [call].
  - destruct (connect_leaves props env w) as [(e & _ & ->) | (n & _ & _ & ->)];
      cbn [snd].
    + now apply tidy_torn_down, tidy_surfaced, tidy_attempted.
    + now apply tidy_opened.
  - rewrite cleanup_spec. now apply tidy_torn_down.
  - destruct (onmessage_leaves now message w)
      as [-> | [(b & c & _ & ->) | (c & _ & ->)]].
    + unfold interrupt_if. destruct (isInterrupted message); [|exact H].
      now apply tidy_interrupt.
    + apply (tidy_scheduled now b) in H. unfold interrupt_if.
      destruct (isInterrupted message); [|exact H]. now apply tidy_interrupt.
    + revert H. apply (tidy_after w _ []); try now destruct w.
  - destruct H as (Hd & Hnd & Hin & Hb).
    destruct w as [ic oc ms nst srcs ses vi conn err vol tr fr].
    unfold tidy in *. cbn in *.
    split; [exact Hd|]. split; [now apply set_remove_nodup|].
    split; [|exact Hb]. intros n Hn. apply Hin. now apply set_remove_1 in Hn.
  - rewrite sendMessage_spec. cbn [snd]. destruct (sessionRef w) as [s|]; [|exact H].
    revert H. apply (tidy_after w _ [SessionSend s (ContentText text)]).
    + now destruct w.
    + intros e [<- | []]; reflexivity.
    + now destruct w.
    + destruct w; cbn; lia.
  - rewrite onclose_spec. cbn [snd]. apply tidy_torn_down. revert H.
    apply (tidy_after w _ [ConsoleLog "Gemini Live Session Closed"]).
    + now destruct w.
    + intros e [<- | []]; reflexivity.
    + now destruct w.
    + destruct w; cbn; lia.
  - rewrite onerror_reported. cbn [snd]. now apply tidy_torn_down, tidy_reported.
Qed.

Lemma tidy_life (calls : list Call) (w : World) : tidy w -> tidy (life calls w).
Proof.
  revert w. induction calls as [|c rest IH]; intros w H; [exact H|].
  apply IH. now apply tidy_call.
Qed.

End LifeOfSources.

Lemma tidy_initial : tidy initial.
Proof. repeat split; try constructor; intros n []. Qed.

(** ** The connected flag and the ownership of the resources *)

Lemma open_contexts_quiet (l tr : list Event) :
  (forall e, In e l -> quiet e = true) -> open_contexts (l ++ tr) = open_contexts tr.
Proof.
  induction l as [|a l IH]; intros H; [reflexivity|].
  assert (Ha : quiet a = true) by (apply H; now left).
  assert (Hl : forall e, In e l -> quiet e = true) by (intros e He; apply H; now right).
  destruct a; try discriminate Ha; cbn [app open_contexts]; now apply IH.
Qed.

Lemma live_tracks_quiet (l tr : list Event) :
  (forall e, In e l -> quiet e = true) -> live_tracks (l ++ tr) = live_tracks tr.
Proof.
  induction l as [|a l IH]; intros H; [reflexivity|].
  assert (Ha : quiet a = true) by (apply H; now left).
  assert (Hl : forall e, In e l -> quiet e = true) by (intros e He; apply H; now right).
  destruct a; try discriminate Ha; cbn [app live_tracks]; now apply IH.
Qed.

Lemma owns_after (w w' : World) (l : list Event) :
  trace w' = l ++ trace w -> (forall e, In e l -> quiet e = true) ->
  inputAudioContextRef w' = inputAudioContextRef w ->
  outputAudioContextRef w' = outputAudioContextRef w ->
  mediaStreamRef w' = mediaStreamRef w ->
  owns w -> owns w'.
Proof.
  intros Htr Hl Hi Ho Hm. unfold owns.
  now rewrite Htr, Hi, Ho, Hm, (open_contexts_quiet l _ Hl), (live_tracks_quiet l _ Hl).
Qed.




Lemma settled_opened (props : UseGeminiLiveProps) (n : nat) (w : World) :
  idle w -> settled (opened props n w).
Proof.
  intros (_ & Hc & Hk).
  destruct w as [ic oc ms nst srcs ses vi conn err vol tr fr].
  cbn [trace] in Hc, Hk. split; [|split].
  - intros _. unfold holding. cbn. repeat split; eexists; reflexivity.
  - discriminate.
  - unfold owns. cbn. rewrite Hc, Hk, app_nil_r. split.
    + intros c [<- | [<- | []]]; auto.
    + auto.
Qed.

Lemma owns_reported (props : UseGeminiLiveProps) (w : World) :
  owns w -> owns (reported props w).
Proof.
  apply (owns_after w _
           ((if onError props then [OnError "Connection Error"] else [])
            ++ [ConsoleError "Gemini Live Error"]));
    try (unfold reported; now destruct (onError props), w).
  destruct (onError props); cbn [app].
  - intros x [<- | [<- | []]]; reflexivity.
  - intros x [<- | []]; reflexivity.
Qed.

Section LifeOfRefs.
Context {U : audio.AudioUtils}.





End LifeOfRefs.


(** ** Properties of every life *)

Lemma unstopped_started (tr : list Event) (n : handle) :
  In n (unstopped tr) -> In n (started tr).
Proof.
  induction tr as [|e tr IH]; [easy|].
  destruct e; cbn [unstopped started]; auto.
  - intros [<- | H]; [now left | right; auto].
  - intros H. apply in_remove in H. now apply IH.
Qed.

Lemma set_remove_add (x : handle) (l : list handle) :
  ~ In x l -> set_remove Pos.eq_dec x (set_add Pos.eq_dec x l) = l.
Proof.
  induction l as [|a l IH]; intros H; cbn [set_add set_remove].
  - now destruct (Pos.eq_dec x x).
  - destruct (Pos.eq_dec x a) as [-> | Hne]; [destruct H; now left|].
    cbn [set_remove]. destruct (Pos.eq_dec x a); [contradiction|].
    rewrite IH; [reflexivity|]. intros Hin. apply H. now right.
Qed.

Section EveryLife.
Context {U : audio.AudioUtils}.
Local Open Scope Q_scope.



(** X6: in every life of a hook, guarded or not, the calls on buffer sources
    follow the protocol of the audio API: no source is started twice, and
    [stop] is only ever called on a source that was started and not stopped
    before; the active set holds no source twice, and every source of it
    was started and not stopped. *)
Theorem sources_follow_protocol : forall calls : list Call,
  let w := life calls initial in
  disciplined (trace w) /\ NoDup (sourcesRef w) /\
  (forall n, In n (sourcesRef w) -> In n (unstopped (trace w))).
Proof.
  intros calls w. destruct (tidy_life calls initial tidy_initial) as (H1 & H2 & H3 & _).
  now repeat split.
Qed.

(** X7: the [ended] listener of a source never throws, performs no effect
    and removes that source, and only it, from the active set. In every
    life of a hook, a chunk that is scheduled and then plays to its end
    leaves the active set as it was before the chunk. *)
Theorem ended_source_leaves_set : forall (calls : list Call) (source : handle),
  let w := life calls initial in
  let w' := snd (onended source w) in
  fst (onended source w) = Returned tt /\
  ~ In source (sourcesRef w') /\
  (forall n, n <> source -> (In n (sourcesRef w') <-> In n (sourcesRef w))) /\
  trace w' = trace w /\
  (forall now message buffer ctx,
     payload message (Returned buffer) -> isInterrupted message = false ->
     outputAudioContextRef w = Some ctx ->
     sourcesRef (snd (onended (fresh w) (snd (onmessage now message w))))
     = sourcesRef w).
Proof.
  intros calls source w w'.
  destruct (tidy_life calls initial tidy_initial) as (_ & Hnd & Hin & Hb).
  fold w in Hnd, Hin, Hb.
  assert (Hset : sourcesRef w' = set_remove Pos.eq_dec source (sourcesRef w))
    by (subst w'; now destruct w).
  split; [reflexivity|]. rewrite Hset. split; [|split; [|split]].
  - intros H. now apply set_remove_2 in H.
  - intros n Hn. rewrite (set_remove_iff Pos.eq_dec n source Hnd). tauto.
  - subst w'. now destruct w.
  - intros now message buffer ctx Hp Hi Hctx.
    rewrite (onmessage_scheduled now _ _ _ _ Hp Hctx), Hi. cbn [snd interrupt_if].
    assert (Hfresh : ~ In (fresh w) (sourcesRef w)).
    { intros H. apply Hin, unstopped_started, Hb in H. revert H. apply Pos.lt_irrefl. }
    destruct w as [ic oc ms nst srcs ses vi conn err vol tr fr]. cbn in *.
    now apply set_remove_add.
Qed.

(** *** Scheduling, whatever the arrival times *)

Lemma deliver_all_lay (chunks : list chunk) (w : World) (ctx : handle) :
  outputAudioContextRef w = Some ctx -> Forall audio_only chunks ->
  let w' := deliver_all (map arrival chunks) w in
  schedule (trace w') = schedule (trace w) ++ lay (nextStartTimeRef w) chunks /\
  nextStartTimeRef w' = lay_end (nextStartTimeRef w) chunks.
Proof.
  revert w. induction chunks as [|c rest IH]; intros w Hctx Hall.
  - cbn. now rewrite app_nil_r.
  - inversion Hall as [|? ? Hc Hrest]; subst.
    cbv zeta. cbn [map]. rewrite deliver_all_cons.
    rewrite (deliver_scheduled w c ctx Hctx Hc).
    assert (Hcur : nextStartTimeRef (scheduled (fst (fst c)) (snd c) w)
                   = Qmax (nextStartTimeRef w) (fst (fst c)) + audio.duration (snd c))
      by now destruct w.
    assert (Hctx' : outputAudioContextRef (scheduled (fst (fst c)) (snd c) w) = Some ctx)
      by now destruct w.
    destruct (IH _ Hctx' Hrest) as (H1 & H2).
    rewrite H1, H2, Hcur, schedule_scheduled. cbn [lay lay_end].
    rewrite <- app_assoc. now split.
Qed.

Lemma lay_buffers (chunks : list chunk) (cursor : Q) :
  map snd (lay cursor chunks) = map buffer_of chunks.
Proof.
  revert cursor. induction chunks as [|c rest IH]; intros cursor; [easy|].
  cbn. now rewrite IH.
Qed.

(** Each start is the later of the end of the entry before and the
    arrival of the chunk. *)
Lemma lay_next (chunks : list chunk) (cursor : Q) (i : nat)
  (s s' : Q) (b b' : audio.AudioBuffer) (c' : chunk) :
  nth_error (lay cursor chunks) i = Some (s, b) ->
  nth_error (lay cursor chunks) (S i) = Some (s', b') ->
  nth_error chunks (S i) = Some c' ->
  s' = Qmax (s + audio.duration b) (fst (fst c')).
Proof.
  revert cursor i. induction chunks as [|x rest IH]; intros cursor i H1 H2 H3.
  - now destruct i.
  - destruct i as [|i].
    + cbn in H1. injection H1 as <- <-.
      destruct rest as [|y rest]; cbn in H2, H3; [discriminate|].
      injection H3 as <-. now injection H2 as <- _.
    + cbn in H1, H2, H3. now apply (IH _ _ H1 H2 H3).
Qed.

Lemma lay_not_early (chunks : list chunk) (cursor : Q) (i : nat)
  (s : Q) (b : audio.AudioBuffer) (c : chunk) :
  nth_error (lay cursor chunks) i = Some (s, b) -> nth_error chunks i = Some c ->
  cursor <= s /\ fst (fst c) <= s.
Proof.
  revert cursor i. induction chunks as [|x rest IH]; intros cursor i H1 H2.
  - now destruct i.
  - destruct i as [|i].
    + cbn in H1, H2. injection H2 as <-. injection H1 as <- _.
      split; [apply Q.le_max_l | apply Q.le_max_r].
    + cbn in H1, H2. destruct (IH _ _ H1 H2) as [Hc Hn]. split; [|exact Hn].
      apply Qle_trans with (Qmax cursor (fst (fst x)) + audio.duration (snd x));
        [|exact Hc].
      apply Qle_trans with (Qmax cursor (fst (fst x))); [apply Q.le_max_l|].
      rewrite <- (Qplus_0_r (Qmax cursor (fst (fst x)))) at 1.
      apply Qplus_le_r. unfold audio.duration, Qle. cbn. lia.
Qed.

(** X8: chunks that carry decodable audio and no interruption, delivered
    in order to a hook whose output context exists, at any clock times
    whatever: the hook starts exactly their buffers, in order; no chunk is
    started before the clock time at which it is handled, nor before the
    cursor stood when the first was handled; each chunk after the first
    starts at the later of the end of the one before it and its own clock
    time, so two chunks never overlap, and a gap opens only when a chunk
    arrives after the one before it has ended. *)
Theorem chunks_never_overlap :
  forall (w : World) (ctx : handle) (chunks : list chunk),
  outputAudioContextRef w = Some ctx -> Forall audio_only chunks ->
  let w' := deliver_all (map arrival chunks) w in
  let played := skipn (List.length (schedule (trace w))) (schedule (trace w')) in
  map snd played = map buffer_of chunks /\
  (forall i s b c,
     nth_error played i = Some (s, b) -> nth_error chunks i = Some c ->
     nextStartTimeRef w <= s /\ fst (fst c) <= s) /\
  (forall i s b s' b' c',
     nth_error played i = Some (s, b) -> nth_error played (S i) = Some (s', b') ->
     nth_error chunks (S i) = Some c' ->
     s' = Qmax (s + audio.duration b) (fst (fst c')) /\
     s + audio.duration b <= s').
Proof.
  intros w ctx chunks Hctx Hall w' played.
  destruct (deliver_all_lay chunks w ctx Hctx Hall) as (H1 & _).
  assert (Hplayed : played = lay (nextStartTimeRef w) chunks)
    by (subst played w'; rewrite H1; apply skipn_own_length).
  rewrite Hplayed. split; [apply lay_buffers|]. split.
  - intros i s b c. apply lay_not_early.
  - intros i s b s' b' c' Hi Hi' Hc'.
    rewrite (lay_next _ _ _ _ _ _ _ _ Hi Hi' Hc'). split; [reflexivity|].
    apply Q.le_max_l.
Qed.


End EveryLife.

(** ** connect and the callbacks of the session *)

Lemma surfaced_error (props : UseGeminiLiveProps) (e : Exn) (w : World) :
  error (torn_down (surfaced props e w))
  = Some (or_else (Some (message e)) "Failed to start session").
Proof. cbn [error torn_down]. unfold surfaced. now destruct (onError props), w. Qed.

(** The state a failing attempt leaves. *)
Lemma connect_failed (props : UseGeminiLiveProps) (env : Environment) (w : World)
  (e : Exn) :
  failure env = Some e ->
  isConnected (snd (connect props env w)) = false /\
  released (snd (connect props env w)) /\
  error (snd (connect props env w))
  = Some (or_else (Some (message e)) "Failed to start session").
Proof.
  intros Hf. rewrite (connect_failure props env w e Hf). cbn [snd].
  split; [reflexivity|]. split; [apply torn_down_released | apply surfaced_error].
Qed.


Lemma handles_range (p : handle) (n : nat) (k : handle) :
  In k (handles p n) -> (p <= k < advance p n)%positive.
Proof.
  revert p. induction n as [|n IH]; intros p; cbn [handles advance]; [easy|].
  intros [<- | H].
  - pose proof (advance_le (Pos.succ p) n). lia.
  - specialize (IH _ H). lia.
Qed.

Lemma handles_NoDup (p : handle) (n : nat) : NoDup (handles p n).
Proof.
  revert p. induction n as [|n IH]; intros p; cbn [handles]; constructor.
  - intros H. apply handles_range in H. lia.
  - apply IH.
Qed.

Lemma opened_shape (props : UseGeminiLiveProps) (n : nat) (w : World) :
  let ic := fresh w in
  let oc := Pos.succ ic in
  let stream := handles (Pos.succ oc) n in
  let session := advance (Pos.succ oc) n in
  let timer := Pos.succ session in
  opened props n w
  = {| inputAudioContextRef := Some ic; outputAudioContextRef := Some oc;
       mediaStreamRef := Some stream; nextStartTimeRef := nextStartTimeRef w;
       sourcesRef := sourcesRef w; sessionRef := Some session;
       videoIntervalRef := Some timer; isConnected := true; error := error w;
       volumeLevel := volumeLevel w;
       trace := [SetInterval timer; OnConnectionStateChange true;
                 ConsoleLog "Gemini Live Session Opened";
                 LiveConnect MODEL_NAME
                   (or_else (systemInstruction props)
                      "You are SenseBridge, a helpful assistive AI.");
                 UserMediaGranted stream; GetUserMedia;
                 NewAudioContext oc OUTPUT_SAMPLE_RATE;
                 NewAudioContext ic INPUT_SAMPLE_RATE] ++ trace w;
       fresh := Pos.succ timer |}.
Proof. now destruct w. Qed.

Lemma handles_length (p : handle) (n : nat) : List.length (handles p n) = n.
Proof.
  revert p. induction n as [|n IH]; intros p; cbn [handles List.length]; [easy|].
  now rewrite IH.
Qed.

(** X11: a successful attempt started from an idle hook, and the
    disconnect after it. When [connect] returns, the two audio contexts,
    the tracks of the granted stream, the session and the frame timer are
    new objects, distinct from each other, each stored in its ref; the
    open contexts are exactly the two stored and the live tracks exactly
    those of the stored stream; one microphone request and one handshake
    were issued, the handshake carrying the instruction of the props or,
    when that is absent or empty, the default one. [disconnect] then closes
    the session, cancels the timer and takes the hook back to idle. *)
Theorem connect_then_disconnect :
  forall (props : UseGeminiLiveProps) (env : Environment) (w : World),
  idle w -> failure env = None ->
  let w1 := snd (connect props env w) in
  let w2 := snd (cleanup w1) in
  (exists ic oc stream session timer,
     inputAudioContextRef w1 = Some ic /\ outputAudioContextRef w1 = Some oc /\
     mediaStreamRef w1 = Some stream /\ sessionRef w1 = Some session /\
     videoIntervalRef w1 = Some timer /\
     getUserMedia env = Returned (List.length stream) /\
     NoDup (ic :: oc :: session :: timer :: stream) /\
     (forall h, In h (ic :: oc :: session :: timer :: stream) ->
                (fresh w <= h < fresh w1)%positive) /\
     open_contexts (trace w1) = [oc; ic] /\ live_tracks (trace w1) = stream /\
     trace w1
     = [SetInterval timer; OnConnectionStateChange true;
        ConsoleLog "Gemini Live Session Opened";
        LiveConnect MODEL_NAME
          (or_else (systemInstruction props)
             "You are SenseBridge, a helpful assistive AI.");
        UserMediaGranted stream; GetUserMedia;
        NewAudioContext oc OUTPUT_SAMPLE_RATE;
        NewAudioContext ic INPUT_SAMPLE_RATE] ++ trace w /\
     In (SessionClose session) (trace w2) /\ In (ClearInterval timer) (trace w2)) /\
  idle w2 /\ isConnected w2 = false.
Proof.
  intros props env w Hidle Hf w1 w2.
  destruct (failure_none env Hf) as (Hkey & n & Hmic & Hlive).
  subst w2 w1. rewrite (connect_opens props env w n Hkey Hmic Hlive). cbn [snd].
  rewrite cleanup_spec. cbn [snd].
  pose proof (settled_opened props n w Hidle) as (_ & _ & Hown).
  destruct (cleanup_releases _ Hown) as [Hc Hk].
  split; [|split; [split; [apply torn_down_released | now split] | reflexivity]].
  clear Hown Hc Hk. rewrite opened_shape. cbv zeta.
  set (ic := fresh w). set (oc := Pos.succ ic).
  set (stream := handles (Pos.succ oc) n). set (session := advance (Pos.succ oc) n).
  set (timer := Pos.succ session).
  exists ic, oc, stream, session, timer.
  destruct Hidle as (_ & Ho & Hl).
  pose proof (advance_le (Pos.succ oc) n) as Hadv. fold session in Hadv.
  pose proof (handles_range (Pos.succ oc) n) as Hrange.
  fold stream in Hrange. fold session in Hrange.
  pose proof (handles_NoDup (Pos.succ oc) n) as Hnd. fold stream in Hnd.
  cbn [inputAudioContextRef outputAudioContextRef mediaStreamRef sessionRef
       videoIntervalRef trace fresh torn_down].
  repeat match goal with |- _ /\ _ => split end; try reflexivity.
  - subst stream. now rewrite handles_length.
  - repeat constructor; cbn [In]; try exact Hnd;
      intros H; repeat (destruct H as [H | H]; [subst oc timer; lia|]);
      try apply Hrange in H; subst oc timer; try lia; try contradiction.
  - intros h H. cbn [In] in H.
    repeat (destruct H as [<- | H]; [subst oc timer; lia|]).
    apply Hrange in H. subst oc timer. lia.
  - cbn [app open_contexts]. now rewrite Ho.
  - cbn [app live_tracks]. now rewrite Hl, app_nil_r.
  - apply in_or_app. left. unfold teardown. right.
    cbn [sessionRef option_list map]. rewrite !in_app_iff. cbn [In]. tauto.
  - apply in_or_app. left. unfold teardown. right.
    cbn [videoIntervalRef option_list map]. rewrite !in_app_iff. cbn [In]. tauto.
Qed.

(** X12: the two callbacks by which the session ends. [onerror] never
    throws; it stores "Connection Error", calls the error callback (when
    given) right after logging and before any resource is released, and
    then tears down as [disconnect] does. [onclose] never throws and tears
    down the same way, but stores and surfaces no error. Both leave no ref
    holding a resource and, in a hook that owned its resources, no context
    open and no track live. *)
Theorem session_end_tears_down : forall (props : UseGeminiLiveProps) (w : World),
  let we := snd (onerror props w) in
  let wc := snd (onclose w) in
  (fst (onerror props w) = Returned tt /\
   error we = Some "Connection Error" /\ released we /\ isConnected we = false /\
   (if onError props
    then when_surfaced (trace we) = Some (ConsoleError "Gemini Live Error" :: trace w)
    else when_surfaced (trace we) = when_surfaced (trace w)) /\
   (owns w -> open_contexts (trace we) = [] /\ live_tracks (trace we) = [])) /\
  (fst (onclose w) = Returned tt /\
   error wc = error w /\ released wc /\ isConnected wc = false /\
   trace wc = teardown w ++ ConsoleLog "Gemini Live Session Closed" :: trace w /\
   when_surfaced (trace wc) = when_surfaced (trace w) /\
   (owns w -> open_contexts (trace wc) = [] /\ live_tracks (trace wc) = [])).
Proof.
  intros props w we wc. subst we wc. rewrite onerror_reported, onclose_spec.
  cbn [fst snd].
  assert (Hskip : forall l tr, (forall m, ~ In (OnError m) l) ->
                    when_surfaced (l ++ tr) = when_surfaced tr).
  { induction l as [|e l IH]; intros tr Hl; [reflexivity|].
    assert (Hl' : forall m, ~ In (OnError m) l) by (intros m H; apply (Hl m); now right).
    destruct e; cbn [app when_surfaced]; try now apply IH.
    destruct (Hl text). now left. }
  split.
  - split; [reflexivity|]. split; [unfold reported; now destruct (onError props), w|].
    split; [apply torn_down_released|]. split; [reflexivity|]. split.
    + assert (Htr : trace (reported props w)
                    = (if onError props then [OnError "Connection Error"] else [])
                      ++ ConsoleError "Gemini Live Error" :: trace w)
        by (unfold reported; now destruct (onError props), w).
      cbn [trace torn_down]. rewrite Htr. destruct (onError props); cbn [app].
      * apply when_surfaced_after. intros m. apply teardown_no_OnError.
      * now rewrite Hskip by (intros m; apply teardown_no_OnError).
    + intros Hown. now apply cleanup_releases, owns_reported.
  - assert (Hlast : owns w ->
              open_contexts (trace (torn_down
                (set_trace (ConsoleLog "Gemini Live Session Closed" :: trace w) w))) = [] /\
              live_tracks (trace (torn_down
                (set_trace (ConsoleLog "Gemini Live Session Closed" :: trace w) w))) = []).
    { intros Hown. apply cleanup_releases. revert Hown.
      apply (owns_after w _ [ConsoleLog "Gemini Live Session Closed"]);
        try now destruct w.
      intros e [<- | []]; reflexivity. }
    split; [reflexivity|]. split; [now destruct w|].
    split; [apply torn_down_released|]. split; [reflexivity|].
    split; [|split; [|exact Hlast]]; clear Hlast.
    + now destruct w.
    + assert (Ht : teardown (set_trace (ConsoleLog "Gemini Live Session Closed" :: trace w) w)
                   = teardown w) by now destruct w.
      assert (Htr : trace (set_trace (ConsoleLog "Gemini Live Session Closed" :: trace w) w)
                    = ConsoleLog "Gemini Live Session Closed" :: trace w) by now destruct w.
      cbn [trace torn_down]. rewrite Ht, Htr.
      now rewrite Hskip by (intros m; apply teardown_no_OnError).
Qed.

(** ** Scenarios of a life *)




(** A chunk of silence scheduled on the open session, then played to its
    end. *)
Lemma ended_source_leaves_set_witness :
  @payload audio.spec_utils (inbound silence None) (Returned silence_buffer) /\
  outputAudioContextRef (@life audio.spec_utils (firstn 1 a_session) initial)
  = Some 2%positive /\
  sourcesRef
    (snd (onended (fresh (@life audio.spec_utils (firstn 1 a_session) initial))
            (snd (@onmessage audio.spec_utils 0 (inbound silence None)
                    (@life audio.spec_utils (firstn 1 a_session) initial)))))
  = sourcesRef (@life audio.spec_utils (firstn 1 a_session) initial).
Proof.
  assert (Hc : outputAudioContextRef (@life audio.spec_utils (firstn 1 a_session) initial)
               = Some 2%positive) by (vm_compute; reflexivity).
  split; [exact silence_decodes|]. split; [exact Hc|].
  exact (proj2 (proj2 (proj2 (proj2
           (@ended_source_leaves_set audio.spec_utils (firstn 1 a_session) 1%positive))))
           0 (inbound silence None) silence_buffer 2%positive
           silence_decodes eq_refl Hc).
Defined.

(** Two chunks of silence, the second arriving half a second after the
    first has ended. *)
Lemma chunks_never_overlap_witness :
  outputAudioContextRef connected = Some 2%positive /\
  Forall (@audio_only audio.spec_utils)
    [(0, inbound silence None, silence_buffer);
     (1 # 2, inbound silence None, silence_buffer)] /\
  map snd
    (skipn (List.length (schedule (trace connected)))
       (schedule (trace (@deliver_all audio.spec_utils
          [(0, inbound silence None); (1 # 2, inbound silence None)] connected))))
  = [silence_buffer; silence_buffer].
Proof.
  assert (H1 : outputAudioContextRef connected = Some 2%positive)
    by (vm_compute; reflexivity).
  assert (H2 : Forall (@audio_only audio.spec_utils)
                 [(0, inbound silence None, silence_buffer);
                  (1 # 2, inbound silence None, silence_buffer)])
    by (repeat constructor; exact silence_decodes).
  split; [exact H1|]. split; [exact H2|].
  exact (proj1 (@chunks_never_overlap audio.spec_utils connected 2%positive
                  [(0, inbound silence None, silence_buffer);
                   (1 # 2, inbound silence None, silence_buffer)] H1 H2)).
Defined.



Lemma connect_then_disconnect_witness :
  idle initial /\ failure reachable = None /\
  idle (snd (cleanup (snd (connect shell_props reachable initial)))).
Proof.
  split; [exact idle_initial|]. split; [reflexivity|].
  exact (proj1 (proj2 (connect_then_disconnect shell_props reachable initial
                         idle_initial eq_refl))).
Defined.

(** * The feedback of the user interface *)

Section Feedback.
Import useFeedback.
Local Open Scope Q_scope.

Lemma feedback_emit {B} (e : Event) (k : unit -> M World B) (w : World) :
  bind (emit e) k w = k tt (mkWorld (audioCtxRef w) (e :: trace w) (fresh w)).
Proof. reflexivity. Qed.

Lemma feedback_new {B} (k : handle -> M World B) (w : World) :
  bind new k w = k (fresh w) (mkWorld (audioCtxRef w) (trace w) (Pos.succ (fresh w))).
Proof. reflexivity. Qed.

Ltac feedback_state :=
  cbn -[bind ret throw read modify settle when deref try_catch emit new Qplus].

Ltac feedback_run :=
  repeat (first [ rewrite bind_assoc | rewrite bind_ret | rewrite bind_read
                | rewrite feedback_emit | rewrite feedback_new | rewrite bind_modify
                | rewrite bind_when | rewrite bind_deref | rewrite bind_settle
                | rewrite bind_throw ];
          feedback_state).

Lemma initAudio_spec (env : Environment) (w : World) :
  audible env w -> initAudio env w = (Returned tt, ready env w).
Proof.
  intros Ha. rewrite <- bind_ret_r. unfold initAudio, ready.
  destruct w as [[c|] tr fr]; feedback_state.
  - feedback_run. destruct (suspended env); feedback_run; reflexivity.
  - destruct Ha as [Ha | Ha]; [now destruct Ha|]. cbn in Ha.
    feedback_run. rewrite Ha. feedback_run.
    destruct (suspended env); feedback_run; reflexivity.
Qed.

Lemma initAudio_fails (env : Environment) (w : World) (e : Exn) :
  audioCtxRef w = None -> newAudioContext env = Threw e ->
  initAudio env w = (Threw e, w).
Proof.
  intros Hc He. unfold initAudio. destruct w as [c tr fr]. cbn in Hc. subst c.
  feedback_run. rewrite He. reflexivity.
Qed.

Lemma playSound_spec (env : Environment) (type : SoundType) (w : World) :
  audible env w -> playSound env type w = (Returned tt, sounded env type w).
Proof.
  intros Ha. unfold playSound. apply try_catch_returned.
  unfold bind at 1. rewrite (initAudio_spec env w Ha). cbv beta iota.
  unfold sounded.
  assert (Hc : exists c, audioCtxRef (ready env w) = Some c)
    by (unfold ready; destruct (audioCtxRef w); eexists; reflexivity).
  destruct Hc as (c & Hc). rewrite Hc.
  destruct (ready env w) as [c' tr fr]. cbn in Hc. subst c'.
  destruct type; feedback_run; reflexivity.
Qed.

Lemma playSound_warns (env : Environment) (type : SoundType) (w : World) (e : Exn) :
  audioCtxRef w = None -> newAudioContext env = Threw e ->
  playSound env type w = (Returned tt, warned w).
Proof.
  intros Hc He. unfold playSound. rewrite (try_catch_threw _ _ w w e).
  - reflexivity.
  - unfold bind at 1. now rewrite (initAudio_fails env w e Hc He).
Qed.

(** [playSound] either makes the sound or logs the warning. *)
Lemma playSound_leaves (env : Environment) (type : SoundType) (w : World) :
  (audible env w /\ playSound env type w = (Returned tt, sounded env type w))
  \/ (audioCtxRef w = None /\ playSound env type w = (Returned tt, warned w)).
Proof.
  destruct (audioCtxRef w) as [c|] eqn:Hc.
  - left. assert (Ha : audible env w) by (left; congruence).
    split; [exact Ha | now apply playSound_spec].
  - destruct (newAudioContext env) as [[]|e] eqn:He.
    + left. assert (Ha : audible env w) by now right.
      split; [exact Ha | now apply playSound_spec].
    + right. split; [reflexivity|]. now apply (playSound_warns env type w e).
Qed.

Lemma triggerHaptic_spec (answer : Outcome bool) (pattern : HapticPattern) (w : World) :
  exists p,
    triggerHaptic (Some answer) pattern w
    = (Returned tt, mkWorld (audioCtxRef w) (Vibrate p :: trace w) (fresh w)) /\
    In p [[10]; [40]; [70]; [30; 50; 30]; [50; 50; 50; 50; 50]]%Z.
Proof.
  exists (match pattern with
          | light => [10] | medium => [40] | heavy => [70]
          | success => [30; 50; 30] | failure => [50; 50; 50; 50; 50]
          end)%Z.
  split; [|destruct pattern; cbn; auto 6].
  unfold triggerHaptic, vibrate, try_catch.
  destruct pattern; rewrite feedback_emit, bind_settle; destruct answer; reflexivity.
Qed.

(** X13: the feedback is best effort. [playSound] and [triggerHaptic]
    never throw, whatever the browser does. When the audio context cannot
    be created, the only effect of [playSound] is one warning on the
    console, and the ref stays empty, so that the next sound tries again.
    Where the browser has no vibration, [triggerHaptic] does nothing at
    all; where it has, it makes exactly one request, even if that request
    throws, for a pattern that starts and ends with a vibration and lasts
    a quarter of a second at most. *)
Theorem feedback_never_throws :
  forall (env : Environment) (type : SoundType)
         (navigator_vibrate : option (Outcome bool)) (pattern : HapticPattern)
         (w : World),
  fst (playSound env type w) = Returned tt /\
  (forall e, audioCtxRef w = None -> newAudioContext env = Threw e ->
     let w' := snd (playSound env type w) in
     trace w' = ConsoleWarn "Audio feedback failed" :: trace w /\
     audioCtxRef w' = None) /\
  fst (triggerHaptic navigator_vibrate pattern w) = Returned tt /\
  (navigator_vibrate = None -> snd (triggerHaptic navigator_vibrate pattern w) = w) /\
  (navigator_vibrate <> None ->
     exists p,
       trace (snd (triggerHaptic navigator_vibrate pattern w)) = Vibrate p :: trace w /\
       Nat.odd (List.length p) = true /\ Forall (fun d => 0 < d)%Z p /\
       (fold_right Z.add 0 p <= 250)%Z).
Proof.
  intros env type nv pattern w. split; [|split; [|split; [|split]]].
  - destruct (playSound_leaves env type w) as [[_ ->] | [_ ->]]; reflexivity.
  - intros e Hc He w'. subst w'. rewrite (playSound_warns env type w e Hc He).
    cbn [snd]. now destruct w.
  - destruct nv as [answer|]; [|reflexivity].
    destruct (triggerHaptic_spec answer pattern w) as (p & -> & _). reflexivity.
  - now intros ->.
  - intros Hnv. destruct nv as [answer|]; [|now destruct Hnv].
    destruct (triggerHaptic_spec answer pattern w) as (p & -> & Hp).
    exists p. split; [reflexivity|]. cbn [In] in Hp.
    repeat (destruct Hp as [<- | Hp];
            [split; [reflexivity|]; split; [repeat constructor | cbn; lia]|]).
    destruct Hp.
Qed.

(** ** One audio context for all sounds *)

Lemma contexts_app (l tr : list Event) : contexts (l ++ tr) = contexts l ++ contexts tr.
Proof.
  induction l as [|e l IH]; [reflexivity|].
  destruct e; cbn [app contexts]; now rewrite ?IH.
Qed.

Lemma contexts_used_app (l tr : list Event) :
  contexts_used (l ++ tr) = contexts_used l ++ contexts_used tr.
Proof.
  induction l as [|e l IH]; [reflexivity|].
  destruct e; cbn [app contexts_used]; now rewrite ?IH.
Qed.

Lemma sounded_contexts (env : Environment) (type : SoundType) (w : World) :
  let w' := sounded env type w in
  exists c, audioCtxRef w' = Some c /\
    (audioCtxRef w = None -> contexts (trace w') = c :: contexts (trace w)) /\
    (audioCtxRef w <> None ->
       audioCtxRef w = Some c /\ contexts (trace w') = contexts (trace w)) /\
    contexts_used (trace w') = c :: c :: contexts_used (trace w).
Proof.
  unfold sounded, ready.
  destruct w as [[c|] tr fr]; cbn [audioCtxRef trace fresh].
  - exists c. split; [reflexivity|].
    rewrite !contexts_app, !contexts_used_app.
    split; [discriminate|]. split; [intros _; split; [reflexivity|]|];
      destruct type, (suspended env); reflexivity.
  - exists fr. split; [reflexivity|].
    rewrite !contexts_app, !contexts_used_app.
    split; [intros _|split; [intros H; now destruct H|]];
      destruct type, (suspended env); reflexivity.
Qed.

(** The ref holds the one context created, and every node is made on
    it. *)
Lemma sounds_share (calls : list (Environment * SoundType)) (w : World) :
  contexts (trace w) = option_list (audioCtxRef w) ->
  (forall c, In c (contexts_used (trace w)) -> audioCtxRef w = Some c) ->
  contexts (trace (sounds calls w)) = option_list (audioCtxRef (sounds calls w)) /\
  (forall c, In c (contexts_used (trace (sounds calls w))) ->
             audioCtxRef (sounds calls w) = Some c).
Proof.
  revert w. induction calls as [|[env type] rest IH]; intros w Hc Hu; [now split|].
  unfold sounds. cbn [fold_left fst snd]. apply IH.
  - destruct (playSound_leaves env type w) as [[_ ->] | [_ ->]]; cbn [snd].
    + destruct (sounded_contexts env type w) as (c & Hc' & Hnew & Hold & _).
      rewrite Hc'. destruct (audioCtxRef w) as [c0|] eqn:H0.
      * destruct Hold as [Heq ->]; [discriminate|]. rewrite Hc. now injection Heq as ->.
      * rewrite (Hnew eq_refl), Hc. reflexivity.
    + now destruct w.
  - destruct (playSound_leaves env type w) as [[_ ->] | [_ ->]]; cbn [snd].
    + destruct (sounded_contexts env type w) as (c & Hc' & Hnew & Hold & Hused).
      rewrite Hc', Hused. intros c' [<- | [<- | H]]; try reflexivity.
      specialize (Hu c' H). destruct Hold as [Heq _]; congruence.
    + destruct w; exact Hu.
Qed.

(** X14: however many sounds are played, in whatever browser, the hook
    creates at most one audio context: the first sound that can create it
    stores it, and every oscillator and every gain node of every sound is
    made on the context the ref holds. *)
Theorem feedback_context_is_shared :
  forall calls : list (Environment * SoundType),
  let w := sounds calls initial in
  (List.length (contexts (trace w)) <= 1)%nat /\
  contexts (trace w) = option_list (audioCtxRef w) /\
  (forall c, In c (contexts_used (trace w)) -> audioCtxRef w = Some c).
Proof.
  intros calls w.
  destruct (sounds_share calls initial eq_refl (fun c (H : False) => match H with end))
    as [Hc Hu].
  fold w in Hc, Hu. split; [|now split]. rewrite Hc.
  destruct (audioCtxRef w); cbn; lia.
Qed.

(** ** The shape of a sound *)

(** X15: every sound [playSound] makes is short and quiet. When the audio
    context exists or can be created, [playSound] makes one oscillator and
    one gain node on it, connects the oscillator to the gain and the gain
    to the output, starts the oscillator once, at the reading of the
    clock, and stops it once, at most three tenths of a second later.
    Between the two, every value is set at the start and is positive,
    every ramp ends no later than the stop, every exponential ramp has a
    positive target (zero would be rejected by the audio API), the gain
    never exceeds a tenth of full scale, and it is brought down to at most
    a thousandth when the oscillator stops. *)
Theorem sounds_are_short_and_quiet :
  forall (env : Environment) (type : SoundType) (w : World),
  audible env w ->
  let now := currentTime env in
  let w' := snd (playSound env type w) in
  exists ctx osc g stop events,
    audioCtxRef w' = Some ctx /\
    trace w' = events ++ wiring ctx osc g ++ trace (ready env w) /\
    osc <> g /\
    osc_starts events = [(osc, now)] /\ osc_stops events = [(osc, stop)] /\
    now < stop <= now + 0.3 /\
    Forall (shaped osc g now stop) events /\
    faded g stop events.
Proof.
  intros env type w Ha now w'. subst w'. rewrite (playSound_spec env type w Ha).
  cbn [snd]. unfold sounded.
  assert (Hc : exists c, audioCtxRef (ready env w) = Some c)
    by (unfold ready; destruct (audioCtxRef w); eexists; reflexivity).
  destruct Hc as (ctx & Hc). rewrite Hc.
  set (osc := fresh (ready env w)). set (g := Pos.succ osc).
  assert (Hne : osc <> g) by (subst g; lia).
  exists ctx, osc, g.
  exists (match type with click => now + 0.05 | error => now + 0.2 | _ => now + 0.3 end).
  exists (tone type osc g now).
  split; [reflexivity|]. split; [reflexivity|]. split; [exact Hne|].
  split; [now destruct type|]. split; [now destruct type|].
  split; [destruct type; split; lra|]. split.
  - destruct type; cbn [tone];
      repeat match goal with
             | |- Forall _ (_ :: _) => apply Forall_cons
             | |- Forall _ [] => apply Forall_nil
             end;
      cbn [shaped]; try exact I;
      (split; [first [reflexivity | lra]|]; split; [lra|]; unfold on_node;
       first [ left; split; reflexivity
             | right; split; [reflexivity|]; split; [reflexivity | lra] ]).
  - unfold faded. destruct type; cbn [tone In].
    + exists 0.001. split; [left; auto 8 | lra].
    + exists 0. split; [right; auto 8 | lra].
    + exists 0. split; [right; auto 8 | lra].
    + exists 0. split; [right; auto 8 | lra].
    + exists 0.001. split; [left; auto 8 | lra].
Qed.

(** Where the audio context cannot be created, the first sound only logs
    the warning. *)
Lemma feedback_never_throws_witness :
  audioCtxRef initial = None /\
  newAudioContext no_audio = Threw (Thrown "TypeError" "AudioContext is not a constructor") /\
  trace (snd (playSound no_audio click initial)) = [ConsoleWarn "Audio feedback failed"] /\
  audioCtxRef (snd (playSound no_audio click initial)) = None.
Proof.
  split; [reflexivity|]. split; [reflexivity|].
  exact (proj1 (proj2 (feedback_never_throws no_audio click None light initial))
           _ eq_refl eq_refl).
Defined.

(** The first click in a tab whose audio is suspended, one second on the
    clock. *)
Lemma sounds_are_short_and_quiet_witness :
  audible (muted_tab 1) initial /\
  exists ctx osc g stop events,
    audioCtxRef (snd (playSound (muted_tab 1) click initial)) = Some ctx /\
    trace (snd (playSound (muted_tab 1) click initial))
    = events ++ wiring ctx osc g ++ trace (ready (muted_tab 1) initial) /\
    osc <> g /\
    osc_starts events = [(osc, 1)] /\ osc_stops events = [(osc, stop)] /\
    1 < stop <= 1 + 0.3 /\
    Forall (shaped osc g 1 stop) events /\
    faded g stop events.
Proof.
  assert (Ha : audible (muted_tab 1) initial) by now right.
  split; [exact Ha|].
  exact (sounds_are_short_and_quiet (muted_tab 1) click initial Ha).
Defined.

End Feedback.

(** * The camera of the view *)

Section Camera.
Import CameraView.

Lemma camera_emit {B} (e : Event) (k : unit -> M World B) (w : World) :
  bind (emit e) k w
  = k tt (mkWorld (streamRef w) (error w) (hasPermission w) (e :: trace w) (fresh w)).
Proof. reflexivity. Qed.

Lemma camera_forEach (tracks : list handle) (w : World) :
  forEach tracks (fun track => emit (TrackStop track)) w
  = (Returned tt,
     mkWorld (streamRef w) (error w) (hasPermission w)
       (rev (map TrackStop tracks) ++ trace w) (fresh w)).
Proof.
  revert w. induction tracks as [|a l IH]; intros w.
  - destruct w; reflexivity.
  - cbn [forEach]. rewrite camera_emit, IH.
    destruct w; cbn. now rewrite <- app_assoc.
Qed.

Lemma camera_new_many {B} (n : nat) (k : list handle -> M World B) (w : World) :
  bind (new_many n) k w
  = k (handles (fresh w) n)
      (mkWorld (streamRef w) (error w) (hasPermission w) (trace w)
         (advance (fresh w) n)).
Proof.
  revert k w. induction n as [|n IH]; intros k w.
  - cbn [new_many handles advance]. rewrite bind_ret. now destruct w.
  - cbn [new_many handles advance]. rewrite bind_assoc. unfold bind at 1, new at 1.
    rewrite bind_assoc, IH, bind_ret. now destruct w.
Qed.

Lemma stopCamera_spec (videoRef : bool) (w : World) :
  stopCamera videoRef w = (Returned tt, camera_stopped videoRef w).
Proof.
  unfold stopCamera, camera_stopped, camera_stop. rewrite bind_read.
  destruct w as [[tracks|] err perm tr fr]; cbn [isSome streamRef when];
    [|reflexivity].
  rewrite bind_deref. cbn [streamRef]. unfold bind at 1. rewrite camera_forEach.
  rewrite bind_modify.
  destruct videoRef; cbn; now rewrite <- ?app_assoc.
Qed.

Lemma startCamera_spec (videoRef : bool) (facingMode : FacingMode)
  (answer : Outcome nat) (w : World) :
  startCamera videoRef facingMode answer w
  = (Returned tt,
     match answer with
     | Returned n => camera_granted videoRef facingMode n w
     | Threw _ => camera_refused videoRef facingMode w
     end).
Proof.
  unfold startCamera. unfold bind at 1. rewrite stopCamera_spec.
  destruct answer as [n|e].
  - apply try_catch_returned.
    rewrite camera_emit, bind_settle, camera_new_many, camera_emit, !bind_modify.
    unfold camera_granted. destruct videoRef; reflexivity.
  - rewrite (try_catch_threw _ _ _
               (mkWorld None (error w) (hasPermission w)
                  (GetUserMedia facingMode :: camera_stop videoRef w ++ trace w)
                  (fresh w)) e).
    + reflexivity.
    + now rewrite camera_emit, bind_settle.
Qed.


(** ** One stream at a time *)

Lemma live_after_stops (tracks : list handle) (tr : list Event) (k : handle) :
  In k (live_tracks (rev (map TrackStop tracks) ++ tr)) ->
  In k (live_tracks tr) /\ ~ In k tracks.
Proof.
  revert tr. induction tracks as [|a l IH]; intros tr H; [now split|].
  cbn [map rev] in H. rewrite <- app_assoc in H. cbn [app] in H.
  apply IH in H. destruct H as [H Hl]. cbn [live_tracks] in H.
  apply in_remove in H. destruct H as [H Hne]. split; [exact H|].
  intros [Heq | Hin]; [congruence | contradiction].
Qed.


(** After [stopCamera], a view that held its camera has no track live. *)
Lemma camera_stopped_dark (videoRef : bool) (w : World) :
  holds_camera w -> live_tracks (trace (camera_stopped videoRef w)) = [].
Proof.
  intros Hh. apply nothing_in. intros k Hk. unfold camera_stopped, camera_stop in Hk.
  cbn [trace] in Hk. unfold holds_camera in Hh.
  destruct (streamRef w) as [tracks|]; cbn [tracks_of] in Hh.
  - rewrite <- app_assoc in Hk.
    assert (Hk' : In k (live_tracks (rev (map TrackStop tracks) ++ trace w)))
      by (destruct videoRef; exact Hk).
    apply live_after_stops in Hk'. destruct Hk' as [Hlive Hnot]. auto.
  - exact (Hh k Hk).
Qed.





(** X17: [startCamera] never throws. It first stops the stream the view
    holds. When the request is refused it logs the refusal, stores the
    message "Camera access denied. Please enable permissions.", clears the
    permission flag and holds no stream, so that, in a view that held its
    camera, no track is live. When the request is granted it stores the
    new stream, sets the permission flag and clears the error; the tracks
    of the new stream are then the live ones, and the stream is attached
    to the video element exactly when that element is mounted. *)
Theorem startCamera_settles :
  forall (videoRef : bool) (facingMode : FacingMode) (answer : Outcome nat) (w : World),
  let w' := snd (startCamera videoRef facingMode answer w) in
  fst (startCamera videoRef facingMode answer w) = Returned tt /\
  (forall tracks k, streamRef w = Some tracks -> In k tracks ->
                    In (TrackStop k) (trace w')) /\
  (forall e, answer = Threw e ->
     error w' = Some "Camera access denied. Please enable permissions." /\
     hasPermission w' = false /\ streamRef w' = None /\
     (holds_camera w -> live_tracks (trace w') = [])) /\
  (forall n, answer = Returned n ->
     error w' = None /\ hasPermission w' = true /\
     exists stream,
       streamRef w' = Some stream /\ List.length stream = n /\ NoDup stream /\
       (forall k, In k stream -> (fresh w <= k < fresh w')%positive) /\
       (holds_camera w -> live_tracks (trace w') = stream) /\
       hd_error (trace w')
       = Some (if videoRef then SetSrcObject (Some stream) else UserMediaGranted stream)).
Proof.
  intros v f answer w w'. subst w'. rewrite startCamera_spec. cbn [fst snd].
  split; [reflexivity|]. split; [|split].
  - intros tracks k Hs Hk.
    assert (Hin : In (TrackStop k) (trace (camera_stopped v w))).
    { unfold camera_stopped, camera_stop. cbn [trace]. rewrite Hs.
      apply in_or_app. left. apply in_or_app. right.
      rewrite <- in_rev. now apply in_map. }
    destruct answer as [n|e]; unfold camera_granted, camera_refused; cbn [trace].
    + apply in_or_app. right. now do 2 right.
    + now do 2 right.
  - intros e ->. unfold camera_refused. cbn [error hasPermission streamRef trace].
    repeat split. intros Hh. cbn [live_tracks]. now apply camera_stopped_dark.
  - intros n ->. unfold camera_granted.
    cbn [error hasPermission streamRef trace fresh camera_stopped].
    split; [reflexivity|]. split; [reflexivity|].
    exists (handles (fresh w) n).
    split; [reflexivity|]. split; [apply handles_length|].
    split; [apply handles_NoDup|]. split; [apply handles_range|]. split.
    + intros Hh. pose proof (camera_stopped_dark v w Hh) as Hd.
      unfold camera_stopped in Hd. cbn [trace] in Hd.
      destruct v; cbn [app live_tracks]; now rewrite Hd, app_nil_r.
    + now destruct v.
Qed.


(** A flip to the front camera that the user refuses, while the back
    camera is on. *)
Lemma startCamera_settles_witness :
  streamRef (view (firstn 1 a_view) initial) = Some [1%positive] /\
  In (TrackStop 1%positive)
     (trace (snd (startCamera true user
                    (Threw (Thrown "NotAllowedError" "Permission denied"))
                    (view (firstn 1 a_view) initial)))) /\
  error (snd (startCamera true user
                (Threw (Thrown "NotAllowedError" "Permission denied"))
                (view (firstn 1 a_view) initial)))
  = Some "Camera access denied. Please enable permissions.".
Proof.
  assert (Hs : streamRef (view (firstn 1 a_view) initial) = Some [1%positive])
    by (vm_compute; reflexivity).
  split; [exact Hs|]. split.
  - exact (proj1 (proj2 (startCamera_settles true user
                           (Threw (Thrown "NotAllowedError" "Permission denied"))
                           (view (firstn 1 a_view) initial)))
             [1%positive] 1%positive Hs (or_introl eq_refl)).
  - exact (proj1 (proj1 (proj2 (proj2 (startCamera_settles true user
                           (Threw (Thrown "NotAllowedError" "Permission denied"))
                           (view (firstn 1 a_view) initial))))
                    _ eq_refl)).
Defined.

End Camera.

(** * The shell *)

(** ** The handlers of the hook's callbacks *)

Lemma handleConnectionChange_spec (connected : bool) (s : App.Shell) :
  App.handleConnectionChange connected s = (Returned tt, connection_changed connected s).
Proof. destruct s as [[md ann ui w] a v vid f q l c cons], connected; reflexivity. Qed.

Lemma handleError_spec (err : string) (s : App.Shell) :
  App.handleError err s = (Returned tt, errored err s).
Proof. destruct s as [[md ann ui w] a v vid f q l c cons]; reflexivity. Qed.

Lemma dispatch_spec (e : Event) (s : App.Shell) :
  App.dispatch e s
  = (Returned tt,
     match e with
     | OnConnectionStateChange connected => connection_changed connected s
     | OnError text => errored text s
     | _ => s
     end).
Proof.
  destruct e; cbn [App.dispatch];
    first [apply handleConnectionChange_spec | apply handleError_spec | reflexivity].
Qed.

Lemma forEach_dispatch (l : list Event) (s : App.Shell) :
  forEach l App.dispatch s = (Returned tt, handled l s).
Proof.
  revert s. induction l as [|e l IH]; intros s; [reflexivity|].
  cbn [forEach]. unfold bind. rewrite dispatch_spec, IH.
  unfold handled. cbn [fold_left]. now rewrite dispatch_spec.
Qed.

Lemma handled_app (l l' : list Event) (s : App.Shell) :
  handled (l ++ l') s = handled l' (handled l s).
Proof. unfold handled. apply fold_left_app. Qed.

Lemma handled_none (l : list Event) (s : App.Shell) :
  (forall e, In e l -> is_callback e = false) -> handled l s = s.
Proof.
  revert s. induction l as [|e l IH]; intros s H; [reflexivity|].
  unfold handled. cbn [fold_left]. rewrite dispatch_spec.
  assert (He : is_callback e = false) by (apply H; now left).
  destruct e; try discriminate He; apply IH; intros x Hx; apply H; now right.
Qed.

Lemma since_app (l before : list Event) : App.since before (l ++ before) = rev l.
Proof.
  unfold App.since. rewrite length_app, Nat.add_sub.
  now rewrite firstn_app, Nat.sub_diag, firstn_all, firstn_O, app_nil_r.
Qed.

(** A function of the hook that adds the events [l] to the trace: the
    shell is left with the state of the hook the function leaves, after
    the handlers of the callbacks among [l]. *)
Lemma hooked_spec {A} (m : M World A) (s : App.Shell) (o : Outcome A) (w' : World)
  (l : list Event) :
  m (hook_of s) = (o, w') -> trace w' = l ++ trace (hook_of s) ->
  App.hooked m s = (o, handled (rev l) (with_hook w' s)).
Proof.
  intros Hm Htr. unfold App.hooked. fold (hook_of s). rewrite Hm, Htr, since_app.
  fold (with_hook w' s). now rewrite forEach_dispatch.
Qed.

(** The handlers leave the hook alone. *)
Lemma handled_hook (l : list Event) (s : App.Shell) : hook_of (handled l s) = hook_of s.
Proof.
  revert s. induction l as [|e l IH]; intros s; [reflexivity|].
  unfold handled. cbn [fold_left]. rewrite dispatch_spec. cbn [snd].
  fold (handled l). rewrite IH.
  destruct e; try reflexivity.
  match goal with |- context [connection_changed ?c _] => now destruct c end.
Qed.

(** ** The functions of the hook, run in the shell *)

Lemma teardown_tail (w : World) (e : Event) :
  In e (tl (teardown w)) -> is_callback e = false.
Proof.
  unfold teardown. cbn [tl]. rewrite !in_app_iff, <- !in_rev, !in_map_iff.
  intros [H | [H | [H | [H | [H | H]]]]]; destruct H as (x & <- & _); reflexivity.
Qed.

Lemma teardown_handled (w : World) (s : App.Shell) :
  handled (rev (teardown w)) s = connection_changed false s.
Proof.
  replace (teardown w) with (OnConnectionStateChange false :: tl (teardown w))
    by reflexivity.
  cbn [rev]. rewrite handled_app, (handled_none (rev (tl (teardown w)))).
  - reflexivity.
  - intros e He. apply in_rev in He. now apply teardown_tail in He.
Qed.

Lemma disconnect_spec (s : App.Shell) :
  App.disconnect s
  = (Returned tt, connection_changed false (with_hook (torn_down (hook_of s)) s)).
Proof.
  unfold App.disconnect.
  rewrite (hooked_spec _ s (Returned tt) (torn_down (hook_of s)) (teardown (hook_of s)));
    [|apply cleanup_spec|reflexivity].
  now rewrite teardown_handled.
Qed.

Lemma attempted_trace (props : UseGeminiLiveProps) (env : Environment) (w : World) :
  exists l, trace (attempted props env w) = l ++ trace w /\
            (forall e, In e l -> is_callback e = false).
Proof.
  unfold attempted. destruct (negb (truthy (API_KEY env))).
  - exists []. now split.
  - destruct (getUserMedia env) as [n|e].
    + exists [LiveConnect MODEL_NAME
                (or_else (systemInstruction props)
                   "You are SenseBridge, a helpful assistive AI.");
              UserMediaGranted (handles (Pos.succ (Pos.succ (fresh w))) n);
              GetUserMedia;
              NewAudioContext (Pos.succ (fresh w)) OUTPUT_SAMPLE_RATE;
              NewAudioContext (fresh w) INPUT_SAMPLE_RATE].
      split; [now destruct w|].
      intros e [<- | [<- | [<- | [<- | [<- | []]]]]]; reflexivity.
    + exists [GetUserMedia;
              NewAudioContext (Pos.succ (fresh w)) OUTPUT_SAMPLE_RATE;
              NewAudioContext (fresh w) INPUT_SAMPLE_RATE].
      split; [now destruct w|].
      intros x [<- | [<- | [<- | []]]]; reflexivity.
Qed.

(** A failing attempt, in the shell: the error handler runs first, then
    the handler of the connection change that [cleanup] signals. *)
Lemma connect_fails (env : Environment) (s : App.Shell) (e : Exn) :
  failure env = Some e ->
  App.connect env s
  = (Returned tt,
     connection_changed false
       (errored (or_else (Some (message e)) "Failed to start session")
          (with_hook (snd (connect App.props env (hook_of s))) s))).
Proof.
  intros Hf. unfold App.connect.
  rewrite (connect_failure App.props env (hook_of s) e Hf). cbn [snd].
  set (w1 := surfaced App.props e (attempted App.props env (hook_of s))).
  destruct (attempted_trace App.props env (hook_of s)) as (l & Hl & Hnone).
  rewrite (hooked_spec _ s (Returned tt) (torn_down w1)
             (teardown w1 ++ surfacing App.props e ++ l)).
  - rewrite !rev_app_distr, !handled_app, (handled_none (rev l)).
    + rewrite teardown_handled. reflexivity.
    + intros x Hx. apply in_rev in Hx. now apply Hnone.
  - subst w1. now apply connect_failure.
  - cbn [trace torn_down]. subst w1. rewrite surfaced_trace, Hl.
    now rewrite <- !app_assoc.
Qed.

(** A successful attempt, in the shell. *)
Lemma connect_succeeds (env : Environment) (s : App.Shell) :
  failure env = None ->
  App.connect env s
  = (Returned tt,
     connection_changed true (with_hook (snd (connect App.props env (hook_of s))) s)).
Proof.
  intros Hf. destruct (failure_none env Hf) as (Hkey & n & Hmic & Hlive).
  unfold App.connect.
  rewrite (connect_opens App.props env (hook_of s) n Hkey Hmic Hlive). cbn [snd].
  pose proof (opened_shape App.props n (hook_of s)) as Hshape. cbv zeta in Hshape.
  rewrite (hooked_spec _ s (Returned tt) (opened App.props n (hook_of s))
             [SetInterval (Pos.succ (advance (Pos.succ (Pos.succ (fresh (hook_of s)))) n));
              OnConnectionStateChange true;
              ConsoleLog "Gemini Live Session Opened";
              LiveConnect MODEL_NAME
                (or_else (systemInstruction App.props)
                   "You are SenseBridge, a helpful assistive AI.");
              UserMediaGranted (handles (Pos.succ (Pos.succ (fresh (hook_of s)))) n);
              GetUserMedia;
              NewAudioContext (Pos.succ (fresh (hook_of s))) OUTPUT_SAMPLE_RATE;
              NewAudioContext (fresh (hook_of s)) INPUT_SAMPLE_RATE]).
  - reflexivity.
  - now apply connect_opens.
  - now rewrite Hshape.
Qed.

(** While its condition does not hold the auto-connect effect does
    nothing. *)
Lemma connectToGemini_idle (env : Environment) (s : App.Shell) :
  ~ connectable s -> App.connectToGemini env s = (Returned tt, s).
Proof.
  intros Hn. unfold App.connectToGemini. rewrite bind_read.
  replace (App.active s && isSome (App.videoElement s)
           && negb (isConnected (App.hook (App.app s))) && negb (App.isConnecting s))
    with false; [reflexivity|].
  symmetry. apply not_true_is_false. intros H. apply Hn.
  apply andb_prop in H. destruct H as [H H4]. apply andb_prop in H.
  destruct H as [H H3]. apply andb_prop in H. destruct H as [H1 H2].
  unfold connectable, hook_of.
  repeat split; try assumption.
  - now destruct (App.videoElement s).
  - now destruct (isConnected (App.hook (App.app s))).
  - now destruct (App.isConnecting s).
Qed.

Lemma connectToGemini_runs (env : Environment) (s : App.Shell) :
  connectable s ->
  App.connectToGemini env s = App.connect env (App.set_isConnecting true s).
Proof.
  intros (Ha & Hv & Hc & Hi). unfold App.connectToGemini. rewrite bind_read.
  unfold hook_of in Hc. rewrite Ha, Hc, Hi.
  destruct (App.videoElement s) as [v|] eqn:Hvid; [|now destruct Hv].
  cbn [isSome andb negb when]. rewrite bind_modify.
  destruct (failure env) as [e|] eqn:Hf.
  - rewrite (connect_fails env _ e Hf). apply try_catch_returned.
    now apply connect_fails.
  - rewrite (connect_succeeds env _ Hf). apply try_catch_returned.
    now apply connect_succeeds.
Qed.

(** ** The auto-connect effect *)

(** X18: the auto-connect effect, run while its condition holds (the shell
    is active, the video is ready, the hook is not connected and no
    attempt is pending), makes one attempt and never throws. When the
    attempt opens the session the shell stays active and announces the
    connection; the mode is left as it was and no text is sent. When the
    attempt fails the shell is no longer active, the hook holds no
    resource and stores the error, the feedback is the error sound and
    vibration followed by those of a disconnection, and the announcement
    that remains is "Agent disconnected." (the handler of the connection
    change runs after, and overwrites, the announcement of the error). In
    both cases no attempt is pending afterwards and the condition fails: the
    effect, run again in any environment, does nothing, so that a failed
    attempt is not retried until the user starts the shell again. *)
Theorem auto_connect_settles : forall (env : Environment) (s : App.Shell),
  connectable s ->
  let s' := snd (App.connectToGemini env s) in
  fst (App.connectToGemini env s) = Returned tt /\
  hook_of s' = snd (connect App.props env (hook_of s)) /\
  App.isConnecting s' = false /\
  (failure env = None ->
     isConnected (hook_of s') = true /\ App.active s' = true /\
     App.announcement (App.app s') = "Agent connected. Scene Narration mode active." /\
     App.ui (App.app s')
     = [App.TriggerHaptic "success"; App.PlaySound "on"] ++ App.ui (App.app s) /\
     App.mode (App.app s') = App.mode (App.app s) /\
     texts_sent (trace (hook_of s')) = texts_sent (trace (hook_of s))) /\
  (forall e, failure env = Some e ->
     isConnected (hook_of s') = false /\ released (hook_of s') /\
     App.active s' = false /\
     error (hook_of s') = Some (or_else (Some (message e)) "Failed to start session") /\
     App.announcement (App.app s') = "Agent disconnected." /\
     App.ui (App.app s')
     = [App.TriggerHaptic "medium"; App.PlaySound "off";
        App.TriggerHaptic "failure"; App.PlaySound "error"] ++ App.ui (App.app s)) /\
  (forall env', App.connectToGemini env' s' = (Returned tt, s')).
Proof.
  intros env s Hgate s'. subst s'. rewrite (connectToGemini_runs env s Hgate).
  destruct (failure env) as [e|] eqn:Hf.
  - rewrite (connect_fails env _ e Hf). cbn [fst snd].
    destruct (connect_failed App.props env (hook_of s) e Hf) as (Hc & Hr & He).
    replace (hook_of (App.set_isConnecting true s)) with (hook_of s) by reflexivity.
    set (w' := snd (connect App.props env (hook_of s))) in *.
    split; [reflexivity|]. split; [reflexivity|]. split; [reflexivity|].
    split; [discriminate|]. split.
    + intros e' [= <-]. repeat split; try assumption; apply Hr.
    + intros env'. apply connectToGemini_idle. intros (Ha & _). discriminate Ha.
  - rewrite (connect_succeeds env _ Hf). cbn [fst snd].
    replace (hook_of (App.set_isConnecting true s)) with (hook_of s) by reflexivity.
    destruct (failure_none env Hf) as (Hkey & n & Hmic & Hlive).
    assert (Hw : snd (connect App.props env (hook_of s)) = opened App.props n (hook_of s))
      by now rewrite (connect_opens App.props env (hook_of s) n Hkey Hmic Hlive).
    assert (Hc : isConnected (snd (connect App.props env (hook_of s))) = true)
      by (rewrite Hw; now destruct (hook_of s)).
    set (w' := snd (connect App.props env (hook_of s))) in *.
    split; [reflexivity|]. split; [reflexivity|]. split; [reflexivity|].
    split; [|split; [discriminate|]].
    + intros _. split; [exact Hc|]. split; [apply Hgate|].
      split; [reflexivity|]. split; [reflexivity|]. split; [reflexivity|].
      change (hook_of (connection_changed true (with_hook w' (App.set_isConnecting true s))))
        with w'.
      rewrite Hw, opened_shape. reflexivity.
    + intros env'. apply connectToGemini_idle. intros (_ & _ & Hc' & _).
      change (hook_of (connection_changed true (with_hook w' (App.set_isConnecting true s))))
        with w' in Hc'.
      congruence.
Qed.

(** ** Stopping *)

Lemma toggleSession_stops (s : App.Shell) :
  App.active s = true ->
  App.toggleSession s
  = (Returned tt,
     App.setActive false
       (connection_changed false (with_hook (torn_down (hook_of s)) s))).
Proof.
  intros Ha. unfold App.toggleSession. rewrite bind_read, Ha.
  unfold bind at 1. now rewrite disconnect_spec.
Qed.

Lemma toggleSession_starts (s : App.Shell) :
  App.active s = false ->
  App.toggleSession s
  = (Returned tt,
     announced "Starting camera..." [App.TriggerHaptic "light"] (App.setActive true s)).
Proof.
  intros Ha. unfold App.toggleSession. rewrite bind_read, Ha.
  now destruct s as [[md ann ui w] a v vid f q l c cons].
Qed.

Lemma handleVisibilityChange_stops (s : App.Shell) :
  App.active s = true ->
  App.handleVisibilityChange true s
  = (Returned tt,
     announced "App minimized. Agent disconnected to save battery." []
       (App.setActive false
          (connection_changed false
             (with_hook (torn_down (hook_of s))
                (snd (App.log "App minimized, disconnecting session..."
                        (App.setIsPageVisible false s))))))).
Proof.
  intros Ha. unfold App.handleVisibilityChange. cbv zeta. cbn [negb].
  rewrite bind_modify, bind_read.
  replace (App.active (App.setIsPageVisible false s)) with true by now destruct s.
  cbn [andb when]. unfold bind at 1.
  set (s1 := snd (App.log "App minimized, disconnecting session..."
                    (App.setIsPageVisible false s))).
  replace (App.log "App minimized, disconnecting session..."
             (App.setIsPageVisible false s)) with (Returned tt, s1) by reflexivity.
  cbv beta iota. unfold bind at 1. rewrite disconnect_spec.
  replace (hook_of s1) with (hook_of s) by now destruct s as [[md ann ui w] a v vid f q l c cons].
  reflexivity.
Qed.

Lemma handleVisibilityChange_passes (hidden : bool) (s : App.Shell) :
  hidden = false \/ App.active s = false ->
  App.handleVisibilityChange hidden s
  = (Returned tt, App.setIsPageVisible (negb hidden) s).
Proof.
  intros H. unfold App.handleVisibilityChange. cbv zeta.
  rewrite bind_modify, bind_read.
  replace (negb (negb hidden) && App.active (App.setIsPageVisible (negb hidden) s))
    with false; [reflexivity|].
  destruct H as [-> | H]; [reflexivity|].
  replace (App.active (App.setIsPageVisible (negb hidden) s)) with (App.active s)
    by now destruct s.
  rewrite H. now destruct hidden.
Qed.

(** X19: the two ways the shell stops a session. In an active shell, a
    press on the main button and the page going hidden both disconnect the
    hook: neither throws, the hook is left as [disconnect] leaves it, with
    no resource held, the shell is no longer active, and the auto-connect
    effect, run again in any environment, does nothing. In a shell that
    owned its resources no audio context is open and no microphone track is
    live afterwards. The press leaves the announcement of the
    disconnection; the hidden page logs, clears the visibility flag and
    leaves its own announcement. In a shell that is not active the press
    starts it and touches neither the hook nor the pending flag, and a
    change of visibility only updates the visibility flag, as does the
    page becoming visible again in any shell. *)
Theorem stopping_releases : forall s : App.Shell,
  let st := snd (App.toggleSession s) in
  let sv := snd (App.handleVisibilityChange true s) in
  fst (App.toggleSession s) = Returned tt /\
  fst (App.handleVisibilityChange true s) = Returned tt /\
  (App.active s = true ->
     (hook_of st = snd (cleanup (hook_of s)) /\ released (hook_of st) /\
      App.active st = false /\ App.isConnecting st = false /\
      App.announcement (App.app st) = "Agent disconnected." /\
      (owns (hook_of s) ->
         open_contexts (trace (hook_of st)) = [] /\ live_tracks (trace (hook_of st)) = []) /\
      (forall env, App.connectToGemini env st = (Returned tt, st))) /\
     (hook_of sv = snd (cleanup (hook_of s)) /\ released (hook_of sv) /\
      App.active sv = false /\ App.isConnecting sv = false /\
      App.isPageVisible sv = false /\
      App.console sv = "App minimized, disconnecting session..." :: App.console s /\
      App.announcement (App.app sv)
      = "App minimized. Agent disconnected to save battery." /\
      (owns (hook_of s) ->
         open_contexts (trace (hook_of sv)) = [] /\ live_tracks (trace (hook_of sv)) = []) /\
      (forall env, App.connectToGemini env sv = (Returned tt, sv)))) /\
  (App.active s = false ->
     (App.active st = true /\ hook_of st = hook_of s /\
      App.isConnecting st = App.isConnecting s /\
      App.announcement (App.app st) = "Starting camera...") /\
     sv = App.setIsPageVisible false s) /\
  snd (App.handleVisibilityChange false s) = App.setIsPageVisible true s.
Proof.
  intros s st sv. subst st sv.
  destruct (App.active s) eqn:Ha.
  - rewrite (toggleSession_stops s Ha), (handleVisibilityChange_stops s Ha).
    cbn [fst snd]. rewrite cleanup_spec. cbn [snd].
    split; [reflexivity|]. split; [reflexivity|]. split; [|split; [discriminate|]].
    + intros _. split.
      * split; [reflexivity|]. split; [apply torn_down_released|].
        split; [reflexivity|]. split; [reflexivity|]. split; [reflexivity|]. split.
        -- intros Hown. now apply cleanup_releases.
        -- intros env. apply connectToGemini_idle. intros (H & _). discriminate H.
      * split; [reflexivity|]. split; [apply torn_down_released|].
        split; [reflexivity|]. split; [reflexivity|]. split; [reflexivity|].
        split; [now destruct s|]. split; [reflexivity|]. split.
        -- intros Hown. now apply cleanup_releases.
        -- intros env. apply connectToGemini_idle. intros (H & _). discriminate H.
    + now rewrite (handleVisibilityChange_passes false s (or_introl eq_refl)).
  - rewrite (toggleSession_starts s Ha).
    rewrite (handleVisibilityChange_passes true s (or_intror Ha)).
    cbn [fst snd]. split; [reflexivity|]. split; [reflexivity|].
    split; [discriminate|]. split.
    + intros _. split; [|reflexivity]. now destruct s as [[md ann ui w] a v vid f q l c cons].
    + now rewrite (handleVisibilityChange_passes false s (or_introl eq_refl)).
Qed.

(** ** Every usage of the shell *)







(** ** Searching *)











(** ** The camera flip *)

(** X22: a flip of the camera never throws and only turns the facing
    mode to the other one, announces the camera now in use and gives the
    click feedback: the hook, the active flag and the query are left as
    they were. Two flips in a row bring the facing mode back. The camera
    view, rendered again with the new facing mode while it is active (the
    cleanup of its effect, then the effect), requests the camera of that
    facing mode, and does so when the stream it held has been stopped: in
    a view that held its camera no track is live at the request. *)
Theorem flip_camera_round_trip : forall s : App.Shell,
  let s1 := snd (App.handleFlipCamera s) in
  let s2 := snd (App.handleFlipCamera s1) in
  fst (App.handleFlipCamera s) = Returned tt /\
  App.facingMode s1 <> App.facingMode s /\
  App.facingMode s2 = App.facingMode s /\
  hook_of s1 = hook_of s /\ App.active s1 = App.active s /\
  App.searchQuery s1 = App.searchQuery s /\
  App.announcement (App.app s1)
  = match App.facingMode s with
    | CameraView.environment => "Switched to front camera"
    | CameraView.user => "Switched to back camera"
    end /\
  App.ui (App.app s1)
  = [App.TriggerHaptic "light"; App.PlaySound "click"] ++ App.ui (App.app s) /\
  (forall (w : CameraView.World) (videoRef : bool) (answer : Outcome nat),
     let w1 := snd (CameraView.effect_cleanup videoRef w) in
     let w2 := snd (CameraView.effect true videoRef (App.facingMode s1) answer w1) in
     (exists events,
        CameraView.trace w2
        = events ++ CameraView.GetUserMedia (App.facingMode s1) :: CameraView.trace w1) /\
     (holds_camera w -> CameraView.live_tracks (CameraView.trace w1) = [])).
Proof.
  intros s s1 s2.
  assert (Hview : forall (w : CameraView.World) (videoRef : bool) (answer : Outcome nat),
            let w1 := snd (CameraView.effect_cleanup videoRef w) in
            let w2 := snd (CameraView.effect true videoRef (App.facingMode s1) answer w1) in
            (exists events,
               CameraView.trace w2
               = events ++ CameraView.GetUserMedia (App.facingMode s1)
                 :: CameraView.trace w1) /\
            (holds_camera w -> CameraView.live_tracks (CameraView.trace w1) = [])).
  { intros w v answer. cbv zeta. unfold CameraView.effect_cleanup, CameraView.effect.
    rewrite stopCamera_spec. cbn [snd]. rewrite startCamera_spec. cbn [snd]. split.
    - destruct answer as [n|e].
      + eexists ((if v then [_] else []) ++ [_]). unfold camera_granted.
        cbn [CameraView.trace]. rewrite <- app_assoc. reflexivity.
      + exists [CameraView.ConsoleError "Camera access denied:"]. reflexivity.
    - apply camera_stopped_dark. }
  revert Hview. subst s1 s2.
  destruct s as [[md ann ui w] a v vid [|] q l c cons]; cbn [snd fst]; intros Hview;
    (split; [reflexivity|]); (split; [discriminate|]);
    repeat (split; [reflexivity|]); exact Hview.
Qed.

Section Usage.
Context {U : audio.AudioUtils}.






End Usage.

(** * The registry of modes *)

Section Registry.
Import types.

(** X23: the registry of the control panel is consistent. It holds each
    mode once, so that the lookup of the mode of an entry gives the
    instruction of that very entry, and that instruction is not empty;
    the lookup fails for the idle mode and for no other; every entry
    names an icon of its own that the panel knows (none is shown with the
    fallback icon). *)
Theorem registry_is_consistent :
  NoDup ControlPanel.buttons /\
  (forall c, In c ControlPanel.MODES ->
     ControlPanel.getSystemInstructionForMode (mode c) = Some (systemInstruction c) /\
     truthy (Some (systemInstruction c)) = true /\
     ControlPanel.getIcon (icon c) <> ControlPanel.Activity) /\
  (forall m, ControlPanel.getSystemInstructionForMode m = None <-> m = IDLE) /\
  (forall m, In m ControlPanel.buttons <-> m <> IDLE) /\
  NoDup (map (fun c => ControlPanel.getIcon (icon c)) ControlPanel.MODES).
Proof.
  split; [|split; [|split; [|split]]].
  - vm_compute. repeat constructor; cbn; intuition discriminate.
  - intros c Hc. vm_compute in Hc.
    repeat (destruct Hc as [<- | Hc];
            [split; [vm_compute; reflexivity|];
             split; [vm_compute; reflexivity|]; vm_compute; discriminate|]).
    destruct Hc.
  - intros m. split.
    + destruct m; try reflexivity; vm_compute; discriminate.
    + now intros ->.
  - intros m. vm_compute. destruct m; intuition discriminate.
  - vm_compute. repeat constructor; cbn; intuition discriminate.
Qed.


End Registry.

(** * Scenarios of the shell *)

Lemma started_shell_connectable : connectable started_shell.
Proof. repeat split; try reflexivity. discriminate. Qed.

(** The shell is started and the camera is ready; the handshake is
    rejected. *)
Lemma auto_connect_settles_witness :
  connectable started_shell /\
  App.active (snd (App.connectToGemini handshake_rejected started_shell)) = false /\
  App.announcement (App.app (snd (App.connectToGemini handshake_rejected started_shell)))
  = "Agent disconnected.".
Proof.
  split; [exact started_shell_connectable|].
  destruct (proj1 (proj2 (proj2 (proj2 (proj2
              (auto_connect_settles handshake_rejected started_shell
                 started_shell_connectable)))))
              (Thrown "Error" "handshake rejected") eq_refl)
    as (_ & _ & Ha & _ & Hann & _).
  exact (conj Ha Hann).
Defined.

(** The started shell is stopped by a second press. *)
Lemma stopping_releases_witness :
  App.active started_shell = true /\
  App.active (snd (App.toggleSession started_shell)) = false /\
  released (hook_of (snd (App.toggleSession started_shell))).
Proof.
  split; [reflexivity|].
  destruct (proj1 (proj1 (proj2 (proj2 (stopping_releases started_shell))) eq_refl))
    as (_ & Hr & Ha & _).
  exact (conj Ha Hr).
Defined.

